(** * Game of Life: Grid, World and Zoo

    A shallow embedding of [grid.cpp], [world.cpp] and [zoo.cpp].

    Conventions.
    - A C++ [int] is a [Z] with the conversions written out: [int] to
      [unsigned int] ([to_unsigned]), [int] to [char] ([to_uchar], [to_char])
      and the truncating [/] and [%] ([Z.quot], [Z.rem]).  A sum or product
      of [int]s that leaves the range of [int] wraps around in the compiled
      code (the language leaves it undefined).  The wrap is written out
      ([to_int]) in the helper [mod] of world.cpp and in the cell counts of
      grid.cpp, which take every size an [int] can hold.  Elsewhere the sums
      and products are the mathematical ones, and the theorems about those
      functions carry the bounds that keep them within [int].
    - [std::vector<std::vector<Cell>>] is a [list (list Cell)], indexed
      [grid[x][y]] as in the source: the outer list has one entry per column.
    - A function that may throw returns a [result]; the exception classes the
      sources throw are the constructors of [exn].  What an object holds
      after an exception has left one of its methods is not modelled.
    - A file is the sequence of its bytes; opening it may fail.  An [int] is
      four bytes in memory, the least significant first.
    - Memory does not run out: no allocation throws [std::bad_alloc].  The
      arrays that the binary codecs keep on the stack are lists; the
      theorems about the codecs are stated for grids small enough for any
      stack, of at most 65536 cells. *)

From stdpp Require Import base list numbers strings.
From Stdlib Require Import DecimalString.

Open Scope Z_scope.

(** ** Exceptions *)

Inductive exn : Set :=
| invalid_argument
| runtime_error
| length_error.

Inductive result (A : Type) : Type :=
| Ok (a : A)
| Throw (e : exn).

Arguments Ok {A} a.
Arguments Throw {A} e.

Definition bind {A B : Type} (m : result A) (k : A → result B) : result B :=
  match m with
  | Ok a => k a
  | Throw e => Throw e
  end.

Notation "'let*' x ':=' m 'in' k" := (bind m (fun x => k))
  (at level 10, x name, m at level 100, k at level 200).
Notation "'let*' ' p ':=' m 'in' k" := (bind m (fun x => match x with p => k end))
  (at level 10, p pattern, m at level 100, k at level 200).

(** [try { m } catch (std::exception e) { throw std::runtime_error(..); }] *)
Definition rethrow_runtime_error {A : Type} (m : result A) : result A :=
  match m with
  | Ok a => Ok a
  | Throw _ => Throw runtime_error
  end.

(** ** Loops *)

(** [for (int i = lo; i < hi; i++) s = body(i, s);] where the body may throw. *)
Fixpoint foldM {S : Type} (body : Z → S → result S) (idx : list Z) (s : S)
  : result S :=
  match idx with
  | [] => Ok s
  | i :: idx' => let* s' := body i s in foldM body idx' s'
  end.

Definition for_range {S : Type} (lo hi : Z) (body : Z → S → result S) (s : S)
  : result S :=
  foldM body (seqZ lo (hi - lo)) s.

(** The same loop for a body that cannot throw. *)
Definition for_pure {S : Type} (lo hi : Z) (body : Z → S → S) (s : S) : S :=
  foldl (fun s i => body i s) s (seqZ lo (hi - lo)).

(** A loop whose body may leave it with [break]. *)
Inductive ctl (S : Type) : Type :=
| Next (s : S)
| Break (s : S).

Arguments Next {S} s.
Arguments Break {S} s.

Fixpoint foldM_break {S : Type} (body : Z → S → result (ctl S)) (idx : list Z)
  (s : S) : result S :=
  match idx with
  | [] => Ok s
  | i :: idx' =>
      let* r := body i s in
      match r with
      | Next s' => foldM_break body idx' s'
      | Break s' => Ok s'
      end
  end.

Definition for_range_break {S : Type} (lo hi : Z)
  (body : Z → S → result (ctl S)) (s : S) : result S :=
  foldM_break body (seqZ lo (hi - lo)) s.

(** ** Integer conversions *)

Definition INT_MAX : Z := 2147483647.

(** [(unsigned int) v] *)
Definition to_unsigned (v : Z) : Z := v `mod` 2 ^ 32.

(** [(unsigned char) v]: the low eight bits. *)
Definition to_uchar (v : Z) : Z := Z.land v 255.

(** [(char) v] for a [char] that is signed, as on the usual targets. *)
Definition to_char (v : Z) : Z :=
  let u := to_uchar v in if u <? 128 then u else u - 256.

Definition INT_MIN : Z := -2147483648.

(** [(int) v] for an [unsigned int] [v]: the value modulo 2^32 that lies in
    the range of [int].  It is also what a sum or product of [int]s wraps
    to when it leaves that range. *)
Definition to_int (v : Z) : Z :=
  let u := v `mod` 2 ^ 32 in if u <? 2 ^ 31 then u else u - 2 ^ 32.

(** ** Cells *)

Inductive Cell : Set :=
| DEAD
| ALIVE.

Definition Cell_eqb (a b : Cell) : bool :=
  match a, b with
  | DEAD, DEAD | ALIVE, ALIVE => true
  | _, _ => false
  end.

(** The [char] value of a cell: [' '] and ['#']. *)
Definition Cell_char (c : Cell) : Z :=
  match c with
  | DEAD => 32
  | ALIVE => 35
  end.

#[global] Instance Cell_inhabited : Inhabited Cell := populate DEAD.

(** ** grid.cpp *)

Module Grid.

Record t : Type := mk {
  width : Z;
  height : Z;
  grid : list (list Cell)
}.

(** [this->grid[x][y]] read without a bounds check. *)
Definition cell (g : t) (x y : Z) : Cell :=
  (grid g !!! Z.to_nat x) !!! Z.to_nat y.

(** [this->grid[x][y] = v] without a bounds check. *)
Definition put_cells (cells : list (list Cell)) (x y : Z) (v : Cell)
  : list (list Cell) :=
  alter (fun col => <[Z.to_nat y := v]> col) (Z.to_nat x) cells.

Definition put (g : t) (x y : Z) (v : Cell) : t :=
  mk (width g) (height g) (put_cells (grid g) x y v).

(** [std::vector<std::vector<Cell>>(width, std::vector<Cell>(height, DEAD))];
    a negative size converts to a [size_t] above [max_size()]. *)
Definition new_cells (width height : Z) : result (list (list Cell)) :=
  if height <? 0 then Throw length_error
  else if width <? 0 then Throw length_error
  else Ok (replicate (Z.to_nat width) (replicate (Z.to_nat height) DEAD)).

(** [Grid::Grid(int width, int height)] *)
Definition make (width height : Z) : result t :=
  let* cells := new_cells width height in
  Ok (mk width height cells).

(** [Grid::Grid(int square_size)] *)
Definition make_square (square_size : Z) : result t :=
  make square_size square_size.

(** [Grid::Grid()] *)
Definition make_empty : result t := make_square 0.

Definition get_width (g : t) : Z := width g.
Definition get_height (g : t) : Z := height g.

(** [Grid::get_total_cells]: the product is an [int]. *)
Definition get_total_cells (g : t) : Z := to_int (get_width g * get_height g).

(** The guard shared by [get], [set] and both [operator()]:
    [x >= this->grid.size() || y >= this->grid[0].size()], the coordinates
    being [unsigned int] parameters. *)
Definition out_of_range (g : t) (x y : Z) : bool :=
  (Z.of_nat (length (grid g)) <=? to_unsigned x)
  || (Z.of_nat (length (grid g !!! 0%nat)) <=? to_unsigned y).

(** [Grid::get] *)
Definition get (g : t) (x y : Z) : result Cell :=
  if out_of_range g x y then Throw invalid_argument
  else Ok (cell g (to_unsigned x) (to_unsigned y)).

(** [Grid::set] *)
Definition set (g : t) (x y : Z) (value : Cell) : result t :=
  if out_of_range g x y then Throw invalid_argument
  else Ok (put g (to_unsigned x) (to_unsigned y) value).

(** [Grid::operator()] used as an rvalue. *)
Definition at_ (g : t) (x y : Z) : result Cell :=
  if out_of_range g x y then Throw invalid_argument
  else Ok (cell g (to_unsigned x) (to_unsigned y)).

(** [Grid::resize(int width, int height)] *)
Definition resize (g : t) (width height : Z) : result t :=
  let* gridTemp := new_cells width height in
  let stopWidth := Z.min width (get_width g) in
  let stopHeight := Z.min height (get_height g) in
  let gridTemp :=
    for_pure 0 stopWidth (fun x tmp =>
      for_pure 0 stopHeight (fun y tmp =>
        put_cells tmp x y (cell g x y)) tmp) gridTemp in
  Ok (mk width height gridTemp).

(** [Grid::resize(int square_size)] *)
Definition resize_square (g : t) (square_size : Z) : result t :=
  resize g square_size square_size.

(** [Grid::merge].  The sums of the fit test are the mathematical ones; they
    are [int]s in the source, so the model is that of the source for
    [x0 + width other] and [y0 + height other] up to [INT_MAX]. *)
Definition merge (g other : t) (x0 y0 : Z) (alive_only : bool) : result t :=
  if (x0 <? 0) || (y0 <? 0) then Throw invalid_argument
  else if (x0 + get_width other >? get_width g)
          || (y0 + get_height other >? get_height g)
  then Throw invalid_argument
  else if alive_only then
    Ok (for_pure x0 (get_width other + x0) (fun x g =>
          for_pure y0 (get_height other + y0) (fun y g =>
            if Cell_eqb (cell g x y) DEAD
            then put g x y (cell other (x - x0) (y - y0))
            else g) g) g)
  else
    Ok (for_pure x0 (get_width other + x0) (fun x g =>
          for_pure y0 (get_height other + y0) (fun y g =>
            put g x y (cell other (x - x0) (y - y0))) g) g).

(** [Grid::get_alive_cells]: [counter++] on an [int]. *)
Definition get_alive_cells (g : t) : Z :=
  for_pure 0 (get_width g) (fun x counter =>
    for_pure 0 (get_height g) (fun y counter =>
      if Cell_eqb (cell g x y) ALIVE then to_int (counter + 1) else counter)
      counter) 0.

(** [Grid::get_dead_cells]: [counter++] on an [int]. *)
Definition get_dead_cells (g : t) : Z :=
  for_pure 0 (get_width g) (fun x counter =>
    for_pure 0 (get_height g) (fun y counter =>
      if Cell_eqb (cell g x y) DEAD then to_int (counter + 1) else counter)
      counter) 0.

(** [Grid::operator()] used as an lvalue: [grid(x, y) = value]. *)
Definition at_assign (g : t) (x y : Z) (value : Cell) : result t :=
  if out_of_range g x y then Throw invalid_argument
  else Ok (put g (to_unsigned x) (to_unsigned y) value).

(** [Grid::crop].  The four coordinates are [unsigned int] parameters; the
    sizes of the grid convert to [unsigned int] in the comparisons, and the
    differences convert to [int] for the constructor. *)
Definition crop (g : t) (x0 y0 x1 y1 : Z) : result t :=
  let x0 := to_unsigned x0 in
  let y0 := to_unsigned y0 in
  let x1 := to_unsigned x1 in
  let y1 := to_unsigned y1 in
  if (x0 >? to_unsigned (get_width g)) || (y0 >? to_unsigned (get_height g))
     || (x1 >? to_unsigned (get_width g)) || (y1 >? to_unsigned (get_height g))
  then Throw invalid_argument
  else if (x0 <? 0) || (x1 <? 0) || (y0 <? 0) || (y1 <? 0)
  then Throw invalid_argument
  else if x0 >? x1 then Throw invalid_argument
  else if y0 >? y1 then Throw invalid_argument
  else
    let* croppedGrid :=
      make (to_int (to_unsigned (x1 - x0))) (to_int (to_unsigned (y1 - y0))) in
    for_range x0 x1 (fun x croppedGrid =>
      for_range y0 y1 (fun y croppedGrid =>
        at_assign croppedGrid (to_unsigned (x - x0)) (to_unsigned (y - y0))
          (cell g x y)) croppedGrid) croppedGrid.

(** [operator<<(std::ostream&, Grid)]: the bytes it sends to the stream. *)
Definition print (g : t) : result (list Z) :=
  let output_stream := [43] in
  let output_stream :=
    for_pure 0 (get_width g) (fun i out => out ++ [45]) output_stream in
  let output_stream := output_stream ++ [43; 10] in
  let* output_stream :=
    for_range 0 (get_height g) (fun y out =>
      let out := out ++ [124] in
      let* out :=
        for_range 0 (get_width g) (fun x out =>
          let* c := get g x y in
          if Cell_eqb c ALIVE then Ok (out ++ [35]) else Ok (out ++ [32])) out in
      Ok (out ++ [124; 10])) output_stream in
  let output_stream := output_stream ++ [43] in
  let output_stream :=
    for_pure 0 (get_width g) (fun i out => out ++ [45]) output_stream in
  Ok (output_stream ++ [43; 10]).

(** The class invariant: the sizes are [int]s, there are [width] columns
    and each holds [height] cells. *)
Definition wf (g : t) : Prop :=
  0 ≤ width g ≤ INT_MAX ∧ 0 ≤ height g ≤ INT_MAX
  ∧ Z.of_nat (length (grid g)) = width g
  ∧ Forall (fun col => Z.of_nat (length col) = height g) (grid g).

(** Modelled from the spec: [Grid::rotate].  grid.h declares it, but both
    drafts of its body in grid.cpp are commented out, so the repository has
    no definition.  The contract: a new grid rotated by [rotation] quarter
    turns clockwise, [rotation] being reduced modulo 4 first; an odd number
    of quarter turns swaps width and height. *)
Definition rotate90 (g : t) : t :=
  mk (height g) (width g)
     ((fun x => (fun y => cell g y (height g - 1 - x))
                  <$> seqZ 0 (width g))
        <$> seqZ 0 (height g)).

Definition rotate (g : t) (rotation : Z) : t :=
  Nat.iter (Z.to_nat (rotation `mod` 4)) rotate90 g.

End Grid.

(** ** world.cpp *)

Module World.

Record t : Type := mk {
  currentState : Grid.t;
  nextState : Grid.t
}.

(** The helper [int mod(int a, int b)] of world.cpp: [(a % b + b) % b].  The
    sum is an [int]: past [INT_MAX] it wraps around. *)
Definition c_mod (a b : Z) : Z := Z.rem (to_int (Z.rem a b + b)) b.

(** [World::World(int width, int height)] *)
Definition make (width height : Z) : result t :=
  let* worldGrid := Grid.make_empty in
  let* nextGrid := Grid.make_empty in
  let* worldGrid := Grid.make width height in
  let* nextGrid := Grid.make width height in
  Ok (mk worldGrid nextGrid).

(** [World::World(int square_size)] *)
Definition make_square (square_size : Z) : result t :=
  make square_size square_size.

(** [World::World(Grid initial_state)] *)
Definition of_grid (initial_state : Grid.t) : t :=
  mk initial_state initial_state.

Definition get_width (w : t) : Z := Grid.get_width (currentState w).
Definition get_height (w : t) : Z := Grid.get_height (currentState w).

(** [World::get_state] *)
Definition get_state (w : t) : Grid.t := currentState w.

(** [World::resize(int new_width, int new_height)] *)
Definition resize (w : t) (new_width new_height : Z) : result t :=
  let* cur := Grid.resize (currentState w) new_width new_height in
  Ok (mk cur (nextState w)).

(** [if (get(..) == ALIVE) numNeighbours++;] *)
Definition count_alive (g : Grid.t) (x y : Z) (numNeighbours : Z) : result Z :=
  let* c := Grid.get g x y in
  Ok (if Cell_eqb c ALIVE then numNeighbours + 1 else numNeighbours).

(** [if (cond) { if (get(..) == ALIVE) numNeighbours++; }] *)
Definition count_alive_if (cond : bool) (g : Grid.t) (x y : Z)
  (numNeighbours : Z) : result Z :=
  if cond then count_alive g x y numNeighbours else Ok numNeighbours.

(** [World::count_neighbours] *)
Definition count_neighbours (w : t) (x y : Z) (toroidal : bool) : result Z :=
  let cur := currentState w in
  let numNeighbours := 0 in
  if negb toroidal then
    let* numNeighbours :=
      count_alive_if (x >? 0) cur (x - 1) y numNeighbours in
    let* numNeighbours :=
      count_alive_if (x <? Grid.get_width cur - 1) cur (x + 1) y numNeighbours in
    let* numNeighbours :=
      count_alive_if (y >? 0) cur x (y - 1) numNeighbours in
    let* numNeighbours :=
      count_alive_if (y <? Grid.get_height cur - 1) cur x (y + 1) numNeighbours in
    let* numNeighbours :=
      count_alive_if ((x >? 0) && (y <? Grid.get_height cur - 1))
        cur (x - 1) (y + 1) numNeighbours in
    let* numNeighbours :=
      count_alive_if ((x <? Grid.get_width cur - 1)
                      && (y <? Grid.get_height cur - 1))
        cur (x + 1) (y + 1) numNeighbours in
    let* numNeighbours :=
      count_alive_if ((x >? 0) && (y >? 0)) cur (x - 1) (y - 1) numNeighbours in
    let* numNeighbours :=
      count_alive_if ((x <? Grid.get_width cur - 1) && (y >? 0))
        cur (x + 1) (y - 1) numNeighbours in
    Ok numNeighbours
  else
    let width := Grid.get_width cur in
    let height := Grid.get_height cur in
    let* numNeighbours := count_alive cur (c_mod (x - 1) width) y numNeighbours in
    let* numNeighbours := count_alive cur (c_mod (x + 1) width) y numNeighbours in
    let* numNeighbours := count_alive cur x (c_mod (y - 1) height) numNeighbours in
    let* numNeighbours := count_alive cur x (c_mod (y + 1) height) numNeighbours in
    let* numNeighbours :=
      count_alive cur (c_mod (x - 1) width) (c_mod (y - 1) height) numNeighbours in
    let* numNeighbours :=
      count_alive cur (c_mod (x + 1) width) (c_mod (y - 1) height) numNeighbours in
    let* numNeighbours :=
      count_alive cur (c_mod (x - 1) width) (c_mod (y + 1) height) numNeighbours in
    let* numNeighbours :=
      count_alive cur (c_mod (x + 1) width) (c_mod (y + 1) height) numNeighbours in
    Ok numNeighbours.

(** [if (currentState.get(x,y) == c && cond) nextState.set(x,y,v);] *)
Definition set_if (w : t) (x y : Z) (c : Cell) (cond : bool) (v : Cell)
  (next : Grid.t) : result Grid.t :=
  let* here := Grid.get (currentState w) x y in
  if Cell_eqb here c && cond then Grid.set next x y v else Ok next.

(** The body of the two loops of [World::step]. *)
Definition step_cell (w : t) (toroidal : bool) (x y : Z) (next : Grid.t)
  : result Grid.t :=
  let* numNeighbours := count_neighbours w x y toroidal in
  let* next := set_if w x y ALIVE (numNeighbours <? 2) DEAD next in
  let* next :=
    set_if w x y ALIVE ((numNeighbours =? 2) || (numNeighbours =? 3)) ALIVE next in
  let* next := set_if w x y ALIVE (numNeighbours >? 3) DEAD next in
  let* next := set_if w x y DEAD (numNeighbours =? 3) ALIVE next in
  Ok next.

(** [World::step]: the loops write [nextState], then
    [this->currentState = this->nextState]. *)
Definition step (w : t) (toroidal : bool) : result t :=
  let* next :=
    for_range 0 (get_height w) (fun y next =>
      for_range 0 (get_width w) (fun x next =>
        step_cell w toroidal x y next) next) (nextState w) in
  Ok (mk next next).

(** [World::advance] *)
Definition advance (w : t) (steps : Z) (toroidal : bool) : result t :=
  for_range 0 steps (fun _ w => step w toroidal) w.

(** [World::get_total_cells], [World::get_alive_cells] and
    [World::get_dead_cells] *)
Definition get_total_cells (w : t) : Z := Grid.get_total_cells (currentState w).
Definition get_alive_cells (w : t) : Z := Grid.get_alive_cells (currentState w).
Definition get_dead_cells (w : t) : Z := Grid.get_dead_cells (currentState w).

End World.

(** ** Files and streams *)

(** The bytes of a string literal. *)
Definition bytes_of_string (s : string) : list Z :=
  (fun a => Z.of_N (Ascii.N_of_ascii a)) <$> String.list_ascii_of_string s.

(** [out << v] for an [int]: its decimal digits. *)
Definition decimal (v : Z) : list Z :=
  bytes_of_string (NilZero.string_of_int (Z.to_int v)).

(** [std::ifstream::get()]: the next byte, or [EOF] once the input is used
    up.  A stream whose file could not be opened behaves as an empty one; no
    stream of this program throws on [failbit] or [eofbit]. *)
Definition EOF : Z := -1.

Definition stream_get (s : list Z) : Z * list Z :=
  match s with
  | [] => (EOF, [])
  | b :: s' => (b, s')
  end.

(** [std::ifstream::read(buf, n)]: the bytes that are there overwrite the
    front of [buf]; the rest of [buf] keeps what it held. *)
Definition stream_read (n : Z) (buf : list Z) (s : list Z) : list Z * list Z :=
  let got := take (Z.to_nat n) s in
  (got ++ drop (length got) buf, drop (Z.to_nat n) s).

(** The four bytes of an [int] in memory, least significant first, and the
    [int] four such bytes hold. *)
Definition int_bytes (v : Z) : list Z :=
  [to_uchar v; to_uchar (Z.shiftr v 8); to_uchar (Z.shiftr v 16);
   to_uchar (Z.shiftr v 24)].

Definition bytes_int (b : list Z) : Z :=
  let u := b !!! 0%nat + Z.shiftl (b !!! 1%nat) 8 + Z.shiftl (b !!! 2%nat) 16
           + Z.shiftl (b !!! 3%nat) 24 in
  if u <? 2 ^ 31 then u else u - 2 ^ 32.

(** ** zoo.cpp *)

Module Zoo.

(** [Zoo::glider] *)
Definition glider : result Grid.t :=
  let* grid := Grid.make 3 3 in
  let* grid := Grid.set grid 0 2 ALIVE in
  let* grid := Grid.set grid 1 2 ALIVE in
  let* grid := Grid.set grid 2 2 ALIVE in
  let* grid := Grid.set grid 2 1 ALIVE in
  let* grid := Grid.set grid 1 0 ALIVE in
  Ok grid.

(** [Zoo::r_pentomino] *)
Definition r_pentomino : result Grid.t :=
  let* grid := Grid.make 3 3 in
  let* grid := Grid.set grid 1 0 ALIVE in
  let* grid := Grid.set grid 2 0 ALIVE in
  let* grid := Grid.set grid 0 1 ALIVE in
  let* grid := Grid.set grid 1 1 ALIVE in
  let* grid := Grid.set grid 1 2 ALIVE in
  Ok grid.

(** [Zoo::light_weight_spaceship] *)
Definition light_weight_spaceship : result Grid.t :=
  let* grid := Grid.make 5 4 in
  let* grid := Grid.set grid 1 0 ALIVE in
  let* grid := Grid.set grid 4 0 ALIVE in
  let* grid := Grid.set grid 0 1 ALIVE in
  let* grid := Grid.set grid 0 2 ALIVE in
  let* grid := Grid.set grid 4 2 ALIVE in
  let* grid := Grid.set grid 0 3 ALIVE in
  let* grid := Grid.set grid 1 3 ALIVE in
  let* grid := Grid.set grid 2 3 ALIVE in
  let* grid := Grid.set grid 3 3 ALIVE in
  Ok grid.

(** [Zoo::load_ascii].  [file] is the content of the file at [path], or
    [None] when it cannot be opened.  The [catch] of the source only takes
    [std::ifstream::failure], which the stream throws when a read fails with
    [badbit]; reading a file that is given by its bytes never does, so the
    handler has no counterpart here.  A path that opens and cannot be read,
    a directory for one, is outside this model. *)
Definition load_ascii (file : option (list Z)) : result Grid.t :=
  let* parsedGrid := Grid.make_empty in
  let inputFile := default [] file in
  let '(c, inputFile) := stream_get inputFile in
  let widthChar := to_char c in
  let '(_, inputFile) := stream_get inputFile in
  let '(c, inputFile) := stream_get inputFile in
  let heightChar := to_char c in
  let width := widthChar - 48 in
  let height := heightChar - 48 in
  if (width <? 0) || (height <? 0) then Throw runtime_error
  else
    let '(_, inputFile) := stream_get inputFile in
    let* parsedGrid := Grid.resize parsedGrid width height in
    let* '(parsedGrid, _) :=
      for_range 0 height (fun y '(parsedGrid, inputFile) =>
        let* '(parsedGrid, inputFile) :=
          for_range 0 width (fun x '(parsedGrid, inputFile) =>
            let '(c, inputFile) := stream_get inputFile in
            let buffer := to_char c in
            if buffer =? 35 then
              let* parsedGrid := Grid.set parsedGrid x y ALIVE in
              Ok (parsedGrid, inputFile)
            else if buffer =? 32 then
              let* parsedGrid := Grid.set parsedGrid x y DEAD in
              Ok (parsedGrid, inputFile)
            else Throw runtime_error) (parsedGrid, inputFile) in
        let '(c, inputFile) := stream_get inputFile in
        let buffer := to_char c in
        if negb (buffer =? 10) then Throw runtime_error
        else Ok (parsedGrid, inputFile)) (parsedGrid, inputFile) in
    Ok parsedGrid.

(** [Zoo::save_ascii].  [writable] tells whether the file at [path] can be
    opened for writing; the result is what the file holds afterwards. *)
Definition save_ascii (writable : bool) (grid : Grid.t) : result (list Z) :=
  if negb writable then Throw runtime_error
  else
    let writefile :=
      decimal (Grid.get_width grid) ++ bytes_of_string " "
        ++ decimal (Grid.get_height grid) ++ [10] in
    for_range 0 (Grid.get_height grid) (fun y writefile =>
      let* writefile :=
        for_range 0 (Grid.get_height grid) (fun x writefile =>
          let* c := Grid.get grid x y in
          if Cell_eqb c ALIVE then Ok (writefile ++ bytes_of_string "#")
          else
            let* c := Grid.get grid x y in
            if Cell_eqb c DEAD then Ok (writefile ++ bytes_of_string " ")
            else Ok writefile) writefile in
      Ok (writefile ++ [10])) writefile.

(** [((height*width)+((height*width)%8))/8], the size both codecs give to
    the cell bytes.  The product and the sum are the mathematical ones; they
    are [int]s in the source, and the cell bytes are an array on the stack of
    the codec.  The model is that of the source for a cell count that both
    stays within [int] and leaves the array within the stack. *)
Definition numBytes (width height : Z) : Z :=
  Z.quot (height * width + Z.rem (height * width) 8) 8.

(** [Zoo::load_binary].  [file] is as for [load_ascii].  The locals
    [width] and [height] are not initialised; [width0] and [height0] stand
    for what they hold before the reads. *)
Definition load_binary (width0 height0 : Z) (file : option (list Z))
  : result Grid.t :=
  let* loadGrid := Grid.make_empty in
  match file with
  | None => Throw runtime_error
  | Some inputFile =>
      rethrow_runtime_error (
        let '(b, inputFile) := stream_read 4 (int_bytes width0) inputFile in
        let width := bytes_int b in
        let '(b, inputFile) := stream_read 4 (int_bytes height0) inputFile in
        let height := bytes_int b in
        let* loadGrid := Grid.make width height in
        let numBytes := numBytes width height in
        let cellBytes := replicate (Z.to_nat numBytes) 0 in
        let '(cellBytes, inputFile) := stream_read numBytes cellBytes inputFile in
        for_range 0 numBytes (fun i loadGrid =>
          for_range_break 0 8 (fun j loadGrid =>
            let curBit := i * 8 + j in
            if curBit >=? height * width then Ok (Break loadGrid)
            else
              let x := Z.rem curBit width in
              let y := Z.quot curBit width in
              if negb (Z.land (cellBytes !!! Z.to_nat i) (Z.shiftl 1 j) =? 0)
              then
                let* loadGrid := Grid.set loadGrid x y ALIVE in
                Ok (Next loadGrid)
              else Ok (Next loadGrid)) loadGrid) loadGrid)
  end.

(** [Zoo::save_binary].  [writable] and the result are as for
    [save_ascii]. *)
Definition save_binary (writable : bool) (grid : Grid.t) : result (list Z) :=
  if negb writable then Throw runtime_error
  else
    let width := Grid.get_width grid in
    let height := Grid.get_height grid in
    let headBytes :=
      [to_uchar (Z.shiftl width 0); to_uchar (Z.shiftl width 8);
       to_uchar (Z.shiftl width 16); to_uchar (Z.shiftl width 24);
       to_uchar (Z.shiftl height 0); to_uchar (Z.shiftl height 8);
       to_uchar (Z.shiftl height 16); to_uchar (Z.shiftl height 24)] in
    let numBytes := numBytes width height in
    let gridBytes := replicate (Z.to_nat numBytes) 0 in
    let* gridBytes :=
      for_range 0 numBytes (fun i gridBytes =>
        for_range_break 0 8 (fun j gridBytes =>
          let curBit := i * 8 + j in
          if curBit >=? height * width then Ok (Break gridBytes)
          else
            let x := Z.rem curBit width in
            let y := Z.quot curBit width in
            let* c := Grid.at_ grid x y in
            if Cell_eqb c ALIVE then
              Ok (Next (<[Z.to_nat i :=
                           to_uchar (Z.lor (gridBytes !!! Z.to_nat i)
                                           (Z.shiftl 1 j))]> gridBytes))
            else Ok (Next gridBytes)) gridBytes) gridBytes in
    Ok (headBytes ++ gridBytes).

End Zoo.

(** ** The transition as the specification words it *)

Definition in_bounds (g : Grid.t) (x y : Z) : Prop :=
  0 ≤ x < Grid.width g ∧ 0 ≤ y < Grid.height g.

Definition same_size (g g' : Grid.t) : Prop :=
  Grid.width g' = Grid.width g ∧ Grid.height g' = Grid.height g.

Definition alive01 (c : Cell) : Z :=
  match c with
  | ALIVE => 1
  | DEAD => 0
  end.

(** The eight cells of the 3x3 neighbourhood, the centre left out. *)
Definition neighbourhood : list (Z * Z) :=
  [(-1, -1); (0, -1); (1, -1); (-1, 0); (1, 0); (-1, 1); (0, 1); (1, 1)].

(** What the cell at a neighbour coordinate adds to the count: on a torus
    the coordinate wraps by the non-negative modulo; otherwise a coordinate
    outside the grid adds nothing. *)
Definition spec_neighbour (toroidal : bool) (g : Grid.t) (x y : Z) : Z :=
  if toroidal then
    alive01 (Grid.cell g (x `mod` Grid.width g) (y `mod` Grid.height g))
  else if (0 <=? x) && (x <? Grid.width g) && (0 <=? y) && (y <? Grid.height g)
  then alive01 (Grid.cell g x y)
  else 0.

Definition spec_alive_neighbours (toroidal : bool) (g : Grid.t) (x y : Z) : Z :=
  foldr Z.add 0
    ((fun d => spec_neighbour toroidal g (x + d.1) (y + d.2)) <$> neighbourhood).

(** Conway's rule for one cell with [n] live neighbours. *)
Definition spec_conway (c : Cell) (n : Z) : Cell :=
  match c with
  | ALIVE => if (n <? 2) || (3 <? n) then DEAD else ALIVE
  | DEAD => if n =? 3 then ALIVE else DEAD
  end.

(** [n] calls of [step], one after the other. *)
Fixpoint step_n (n : nat) (w : World.t) (toroidal : bool) : result World.t :=
  match n with
  | O => Ok w
  | Datatypes.S n' => let* w' := World.step w toroidal in step_n n' w' toroidal
  end.

(** The worlds a program can hold when it never resizes one: built from
    sizes or from a grid, then stepped. *)
Inductive reachable : World.t → Prop :=
| reachable_make (width height : Z) (w : World.t) :
    width ≤ INT_MAX → height ≤ INT_MAX →
    World.make width height = Ok w → reachable w
| reachable_of_grid (g : Grid.t) :
    Grid.wf g → reachable (World.of_grid g)
| reachable_step (w w' : World.t) (toroidal : bool) :
    reachable w → World.step w toroidal = Ok w' → reachable w'.

(** The sum inside [mod(a, b)] is within [int]. *)
Definition mod_in_range (a b : Z) : Prop := Z.rem a b + b ≤ INT_MAX.

(** The four calls of [mod] that [count_neighbours] makes for the cell
    [(x, y)] on a torus stay within [int]. *)
Definition torus_in_range (g : Grid.t) (x y : Z) : Prop :=
  mod_in_range (x - 1) (Grid.width g) ∧ mod_in_range (x + 1) (Grid.width g)
  ∧ mod_in_range (y - 1) (Grid.height g)
  ∧ mod_in_range (y + 1) (Grid.height g).

(** ** Loop invariants *)

(** What [step_cell] leaves at [(x, y)] of the next grid, which held [old]
    there. *)
Definition written (toroidal : bool) (cur : Grid.t) (x y : Z) (old : Cell)
  : Cell :=
  let n := spec_alive_neighbours toroidal cur x y in
  match Grid.cell cur x y with
  | ALIVE => spec_conway ALIVE n
  | DEAD => if n =? 3 then ALIVE else old
  end.

(** The next grid when the loops of [step] have reached column [i] of row
    [y]: the cells passed hold what [step_cell] wrote, the others what
    [next] held. *)
Definition step_inv (toroidal : bool) (cur next : Grid.t) (y i : Z)
  (g : Grid.t) : Prop :=
  Grid.wf g ∧ same_size cur g
  ∧ ∀ x' y', in_bounds cur x' y' →
      Grid.cell g x' y'
      = if decide (y' < y ∨ (y' = y ∧ x' < i))
        then written toroidal cur x' y' (Grid.cell next x' y')
        else Grid.cell next x' y'.

(** What a merge with [alive_only] leaves in a target cell. *)
Definition overlay (old new : Cell) : Cell :=
  match old with
  | ALIVE => ALIVE
  | DEAD => new
  end.

(** The target of a merge when its loops have reached row [i] of column
    [x]: the cells passed hold the overlay, the others what [g] held. *)
Definition merge_inv (g other : Grid.t) (x0 y0 x i : Z) (g' : Grid.t) : Prop :=
  Grid.wf g' ∧ same_size g g'
  ∧ ∀ x' y', 0 ≤ x' → 0 ≤ y' →
      Grid.cell g' x' y'
      = if decide ((x0 ≤ x' < x ∧ y0 ≤ y' < y0 + Grid.height other)
                   ∨ (x' = x ∧ y0 ≤ y' < i))
        then overlay (Grid.cell g x' y') (Grid.cell other (x' - x0) (y' - y0))
        else Grid.cell g x' y'.

(** ** The binary format as the specification words it *)

(** Bit [i] of the cell data: the cell at [(i mod width, i / width)], rows
    first; the bits past the last cell are padding, written as 0. *)
Definition spec_cell_bit (g : Grid.t) (i : Z) : Z :=
  if i <? Grid.width g * Grid.height g
  then alive01 (Grid.cell g (i `mod` Grid.width g) (i `div` Grid.width g))
  else 0.

(** Byte [k] of the cell data, its least significant bit first. *)
Definition spec_cell_byte (g : Grid.t) (k : Z) : Z :=
  foldr Z.add 0 ((fun j => Z.shiftl (spec_cell_bit g (8 * k + j)) j) <$> seqZ 0 8).

(** The file: width and height as 4-byte little-endian integers, then
    [ceil(width * height / 8)] bytes of cell data. *)
Definition spec_binary_file (g : Grid.t) : list Z :=
  int_bytes (Grid.width g) ++ int_bytes (Grid.height g)
    ++ (spec_cell_byte g <$> seqZ 0 ((Grid.width g * Grid.height g + 7) `div` 8)).

(** ** The layout of a printed grid *)

(** The top and the bottom line: a plus, [width] dashes, a plus, a newline. *)
Definition print_border (width : Z) : list Z :=
  [43] ++ replicate (Z.to_nat width) 45 ++ [43; 10].

(** The line of row [y]: the characters of its cells between two pipes. *)
Definition print_row (g : Grid.t) (y : Z) : list Z :=
  [124] ++ ((fun x => Cell_char (Grid.cell g x y)) <$> seqZ 0 (Grid.width g))
    ++ [124; 10].

(** ** The bits of a binary file *)

(** Bit [n] of the cell data [data] of a file, the least significant bit of
    each byte first; a byte the file does not have reads as 0. *)
Definition file_bit (data : list Z) (n : Z) : bool :=
  Z.testbit (default 0 (data !! Z.to_nat (n `div` 8))) (n `mod` 8).

(** ** The rows of an ascii file *)

(** The first [n] cells of row [y] as characters, and a newline. *)
Definition ascii_row (g : Grid.t) (n y : Z) : list Z :=
  ((fun x => Cell_char (Grid.cell g x y)) <$> seqZ 0 n) ++ [10].

(** ** Sample grids *)

Definition blinker : Grid.t :=
  Grid.mk 3 3 [[DEAD; DEAD; DEAD]; [ALIVE; ALIVE; ALIVE]; [DEAD; DEAD; DEAD]].

Definition lonely : Grid.t :=
  Grid.mk 3 3 [[DEAD; DEAD; DEAD]; [DEAD; ALIVE; DEAD]; [DEAD; DEAD; DEAD]].

Definition bar : Grid.t := Grid.mk 1 3 [[ALIVE; DEAD; DEAD]].

Definition dot : Grid.t := Grid.mk 1 1 [[DEAD]].

Definition live_dot : Grid.t := Grid.mk 1 1 [[ALIVE]].

Definition pair : Grid.t := Grid.mk 2 1 [[DEAD]; [DEAD]].

Definition dead_4x2 : Grid.t :=
  Grid.mk 4 2 [[DEAD; DEAD]; [DEAD; DEAD]; [DEAD; DEAD]; [DEAD; DEAD]].

(** * Proofs *)

(** ** Loops *)

Section Loops.
Context {S : Type}.

Lemma seqZ_step (lo hi : Z) :
  lo < hi → seqZ lo (hi - lo) = lo :: seqZ (lo + 1) (hi - (lo + 1)).
Proof.
  intros Hlt. rewrite seqZ_cons by lia. f_equal.
  replace (Z.succ lo) with (lo + 1) by lia. f_equal. lia.
Qed.

Lemma seqZ_empty (lo hi : Z) : hi ≤ lo → seqZ lo (hi - lo) = [].
Proof. intros Hle. apply seqZ_nil. lia. Qed.

(** The rule for a counted loop: an invariant that holds at [lo] and is
    carried by every iteration holds at [hi], and the loop does not throw. *)
Lemma for_range_inv (Inv : Z → S → Prop) (lo hi : Z)
  (body : Z → S → result S) (s : S) :
  lo ≤ hi →
  Inv lo s →
  (∀ i s, lo ≤ i < hi → Inv i s → ∃ s', body i s = Ok s' ∧ Inv (i + 1) s') →
  ∃ s', for_range lo hi body s = Ok s' ∧ Inv hi s'.
Proof.
  intros Hle. unfold for_range.
  remember (Z.to_nat (hi - lo)) as n eqn:Hn.
  revert lo s Hle Hn. induction n as [|n IH]; intros lo s Hle Hn H0 Hbody.
  - assert (lo = hi) as -> by lia. rewrite seqZ_empty by lia.
    exists s. auto.
  - rewrite seqZ_step by lia. simpl.
    destruct (Hbody lo s) as (s1 & -> & H1); [lia | done |]. simpl.
    apply IH; [lia | lia | done |].
    intros i s2 Hi. apply Hbody. lia.
Qed.

Lemma for_pure_inv (Inv : Z → S → Prop) (lo hi : Z)
  (body : Z → S → S) (s : S) :
  lo ≤ hi →
  Inv lo s →
  (∀ i s, lo ≤ i < hi → Inv i s → Inv (i + 1) (body i s)) →
  Inv hi (for_pure lo hi body s).
Proof.
  intros Hle. unfold for_pure.
  remember (Z.to_nat (hi - lo)) as n eqn:Hn.
  revert lo s Hle Hn. induction n as [|n IH]; intros lo s Hle Hn H0 Hbody.
  - assert (lo = hi) as -> by lia. rewrite seqZ_empty by lia. done.
  - rewrite seqZ_step by lia. simpl.
    apply IH; [lia | lia | |].
    + apply Hbody; [lia | done].
    + intros i s2 Hi. apply Hbody. lia.
Qed.

(** A loop whose bound is not above its start does nothing. *)
Lemma for_range_none (lo hi : Z) (body : Z → S → result S) (s : S) :
  hi ≤ lo → for_range lo hi body s = Ok s.
Proof. intros Hle. unfold for_range. by rewrite seqZ_empty. Qed.

Lemma for_range_unroll (lo hi : Z) (body : Z → S → result S) (s : S) :
  lo < hi →
  for_range lo hi body s = bind (body lo s) (for_range (lo + 1) hi body).
Proof. intros Hlt. unfold for_range. by rewrite seqZ_step. Qed.

End Loops.

(** ** Loops that throw *)

Lemma foldM_ok {S : Type} (P : S → Prop) (body : Z → S → result S)
  (idx : list Z) (s s' : S) :
  (∀ i s s', P s → body i s = Ok s' → P s') →
  P s → foldM body idx s = Ok s' → P s'.
Proof.
  intros Hbody. revert s. induction idx as [|i idx IH]; intros s Hs Hrun.
  - simpl in Hrun. by injection Hrun as <-.
  - simpl in Hrun. destruct (body i s) as [s1|e] eqn:Hi; [|done].
    simpl in Hrun. apply (IH s1); [by apply (Hbody i s)|done].
Qed.

Lemma foldM_app {S : Type} (body : Z → S → result S) (l1 l2 : list Z) (s : S) :
  foldM body (l1 ++ l2) s = bind (foldM body l1 s) (foldM body l2).
Proof.
  revert s. induction l1 as [|i l1 IH]; intros s; [done|].
  simpl. destruct (body i s) as [s1|e]; [|done]. simpl. apply IH.
Qed.

Lemma for_range_throws {S : Type} (Inv : Z → S → Prop) (lo k hi : Z)
  (body : Z → S → result S) (s : S) (e : exn) :
  lo ≤ k < hi →
  Inv lo s →
  (∀ i s, lo ≤ i < k → Inv i s → ∃ s', body i s = Ok s' ∧ Inv (i + 1) s') →
  (∀ s, Inv k s → body k s = Throw e) →
  for_range lo hi body s = Throw e.
Proof.
  intros Hk H0 Hbefore Hat. unfold for_range.
  replace (hi - lo) with ((k - lo) + (hi - k)) by lia.
  rewrite seqZ_app by lia. rewrite foldM_app.
  destruct (for_range_inv Inv lo k body s) as (s' & Hrun & Hinv);
    [lia | done | done |].
  unfold for_range in Hrun. rewrite Hrun. cbn [bind].
  replace (lo + (k - lo)) with k by lia.
  rewrite seqZ_step by lia. simpl. by rewrite Hat.
Qed.

(** ** Grid *)

Section GridFacts.
Import Grid.

Lemma to_unsigned_id (v : Z) : 0 ≤ v ≤ INT_MAX → to_unsigned v = v.
Proof.
  unfold to_unsigned, INT_MAX. intros Hv. apply Z.mod_small. lia.
Qed.

Lemma to_int_id (v : Z) : 0 ≤ v ≤ INT_MAX → to_int v = v.
Proof.
  unfold to_int, INT_MAX. intros Hv. rewrite Z.mod_small by lia.
  destruct (Z.ltb_spec v (2 ^ 31)); lia.
Qed.

Lemma to_unsigned_negative (v : Z) :
  INT_MIN ≤ v < 0 → to_unsigned v = v + 2 ^ 32.
Proof.
  unfold to_unsigned, INT_MIN. intros Hv.
  symmetry. apply (Z.mod_unique_pos _ _ (-1)); lia.
Qed.

Lemma wf_column (g : t) (x : Z) :
  wf g → 0 ≤ x < width g →
  Z.of_nat (length (grid g !!! Z.to_nat x)) = height g.
Proof.
  intros (_ & _ & Hlen & Hcols) Hx.
  destruct (lookup_lt_is_Some_2 (grid g) (Z.to_nat x)) as [col Hcol]; [lia|].
  rewrite (list_lookup_total_correct _ _ _ Hcol).
  by apply (Forall_lookup_1 _ _ _ _ Hcols Hcol).
Qed.

Lemma out_of_range_false (g : t) (x y : Z) :
  wf g → in_bounds g x y → out_of_range g x y = false.
Proof.
  intros Hwf [Hx Hy]. unfold out_of_range.
  pose proof Hwf as (Hw & Hh & Hlen & _).
  pose proof (wf_column g 0 Hwf) as H0.
  change (Z.to_nat 0) with 0%nat in H0.
  rewrite !to_unsigned_id by lia.
  rewrite H0 by lia. rewrite Hlen.
  apply orb_false_iff. split; apply Z.leb_gt; lia.
Qed.

Lemma get_in_bounds (g : t) (x y : Z) :
  wf g → in_bounds g x y → get g x y = Ok (cell g x y).
Proof.
  intros Hwf Hb. unfold get. rewrite out_of_range_false by done.
  destruct Hwf as (Hw & Hh & _), Hb as [Hx Hy].
  by rewrite !to_unsigned_id by lia.
Qed.

Lemma at_in_bounds (g : t) (x y : Z) :
  wf g → in_bounds g x y → at_ g x y = Ok (cell g x y).
Proof. apply get_in_bounds. Qed.

Lemma set_in_bounds (g : t) (x y : Z) (v : Cell) :
  wf g → in_bounds g x y → set g x y v = Ok (put g x y v).
Proof.
  intros Hwf Hb. unfold set. rewrite out_of_range_false by done.
  destruct Hwf as (Hw & Hh & _), Hb as [Hx Hy].
  by rewrite !to_unsigned_id by lia.
Qed.

Lemma put_wf (g : t) (x y : Z) (v : Cell) : wf g → wf (put g x y v).
Proof.
  intros (Hw & Hh & Hlen & Hcols). unfold wf, put, put_cells. simpl.
  repeat split; try lia.
  - by rewrite length_alter.
  - apply Forall_alter; [done|]. intros col Hcol.
    rewrite length_insert. done.
Qed.

Lemma put_same_size (g : t) (x y : Z) (v : Cell) : same_size g (put g x y v).
Proof. done. Qed.

Lemma cell_put_cells (cells : list (list Cell)) (w h x y x' y' : Z) (v : Cell) :
  wf (mk w h cells) → in_bounds (mk w h cells) x y → 0 ≤ x' → 0 ≤ y' →
  (put_cells cells x y v !!! Z.to_nat x') !!! Z.to_nat y'
  = if decide (x' = x ∧ y' = y) then v
    else (cells !!! Z.to_nat x') !!! Z.to_nat y'.
Proof.
  intros Hwf [Hx Hy] Hx' Hy'. simpl in *. unfold put_cells.
  pose proof Hwf as (_ & _ & Hlen & _). simpl in Hlen.
  pose proof (wf_column _ x Hwf ltac:(simpl; lia)) as Hcol. simpl in Hcol.
  rewrite list_lookup_total_alter.
  destruct (decide (Z.to_nat x = Z.to_nat x' ∧ (Z.to_nat x < length cells)%nat))
    as [[Hxe _]|Hne].
  - assert (x' = x) as -> by lia.
    destruct (decide (y' = y)) as [->|Hny].
    + rewrite decide_True by done.
      apply list_lookup_total_insert_eq. lia.
    + rewrite decide_False by tauto.
      apply list_lookup_total_insert_ne. lia.
  - rewrite decide_False; [done|]. intros [-> ->]. apply Hne. split; lia.
Qed.

Lemma cell_put (g : t) (x y x' y' : Z) (v : Cell) :
  wf g → in_bounds g x y → 0 ≤ x' → 0 ≤ y' →
  cell (put g x y v) x' y'
  = if decide (x' = x ∧ y' = y) then v else cell g x' y'.
Proof.
  destruct g as [w h cells]. intros Hwf Hb Hx' Hy'.
  unfold cell, put. simpl. by apply (cell_put_cells cells w h).
Qed.

Lemma in_bounds_same_size (g g' : t) (x y : Z) :
  same_size g g' → in_bounds g x y → in_bounds g' x y.
Proof. unfold same_size, in_bounds. intros [-> ->]. done. Qed.

Lemma out_of_range_true (g : Grid.t) (x y : Z) :
  Grid.wf g →
  INT_MIN ≤ x ≤ INT_MAX → INT_MIN ≤ y ≤ INT_MAX →
  ¬ in_bounds g x y → Grid.out_of_range g x y = true.
Proof.
  intros Hwf Hx Hy Hout. unfold Grid.out_of_range.
  pose proof Hwf as (Hw & Hh & Hlen & _).
  apply orb_true_iff.
  destruct (decide (0 ≤ x < Grid.width g)) as [Hin|Hnx].
  - right. pose proof (wf_column g 0 Hwf ltac:(lia)) as H0.
    change (Z.to_nat 0) with 0%nat in H0. rewrite H0.
    apply Z.leb_le. unfold in_bounds in Hout.
    destruct (decide (y < 0)).
    + rewrite to_unsigned_negative by lia. unfold INT_MIN, INT_MAX in *. lia.
    + rewrite to_unsigned_id by lia. lia.
  - left. rewrite Hlen. apply Z.leb_le.
    destruct (decide (x < 0)).
    + rewrite to_unsigned_negative by lia. unfold INT_MIN, INT_MAX in *. lia.
    + rewrite to_unsigned_id by lia. lia.
Qed.

Lemma get_checks_bounds_aux (g : Grid.t) (x y : Z) :
  Grid.wf g →
  INT_MIN ≤ x ≤ INT_MAX → INT_MIN ≤ y ≤ INT_MAX →
  ¬ in_bounds g x y →
  Grid.get g x y = Throw invalid_argument
  ∧ Grid.at_ g x y = Throw invalid_argument.
Proof.
  intros Hwf Hx Hy Hout. unfold Grid.get, Grid.at_.
  by rewrite out_of_range_true.
Qed.

End GridFacts.

(** ** Counting neighbours *)

Ltac bool_cases :=
  repeat match goal with
    | |- context [?a <? ?b] => destruct (Z.ltb_spec a b)
    | |- context [?a >? ?b] => rewrite (Z.gtb_ltb a b)
    | |- context [?a <=? ?b] => destruct (Z.leb_spec a b)
    | |- context [?a =? ?b] => destruct (Z.eqb_spec a b)
    end;
  simpl; try lia; try reflexivity.

Section Neighbours.
Import Grid.

(** When the sum stays within [int], [mod] is the non-negative modulo. *)
Lemma c_mod_spec (a b : Z) :
  0 < b → mod_in_range a b → World.c_mod a b = a `mod` b.
Proof.
  intros Hb Hr. unfold World.c_mod, mod_in_range in *.
  pose proof (Z.rem_bound_abs a b ltac:(lia)) as Habs.
  rewrite to_int_id by lia.
  rewrite Z.rem_mod_nonneg by lia.
  replace (Z.rem a b + b) with (a + (1 - Z.quot a b) * b)
    by (pose proof (Z.quot_rem' a b); lia).
  apply Z.mod_add. lia.
Qed.

(** For the arguments [count_neighbours] passes, the sum inside [c_mod] is an
    [int] as long as the side is at most 2^30. *)
Lemma c_mod_sum_range (a b : Z) :
  0 < b ≤ 2 ^ 30 → -1 ≤ a ≤ b → 0 ≤ Z.rem a b + b ≤ INT_MAX.
Proof.
  intros Hb Ha. unfold INT_MAX.
  pose proof (Z.rem_bound_abs a b ltac:(lia)) as Habs. lia.
Qed.

Lemma mod_in_range_side (a b : Z) : 0 < b ≤ 2 ^ 30 → mod_in_range a b.
Proof.
  intros Hb. unfold mod_in_range, INT_MAX.
  pose proof (Z.rem_bound_abs a b ltac:(lia)) as Habs. lia.
Qed.


(** On a grid whose sides are at most 2^30 every call of [mod] stays within
    [int]. *)
Lemma torus_in_range_sides (g : t) (x y : Z) :
  0 < width g ≤ 2 ^ 30 → 0 < height g ≤ 2 ^ 30 → torus_in_range g x y.
Proof.
  intros Hw Hh. unfold torus_in_range.
  repeat split; by apply mod_in_range_side.
Qed.

Lemma count_alive_in_bounds (g : t) (x y n : Z) :
  wf g → in_bounds g x y →
  World.count_alive g x y n = Ok (n + alive01 (cell g x y)).
Proof.
  intros Hwf Hb. unfold World.count_alive.
  rewrite get_in_bounds by done. simpl.
  destruct (cell g x y); simpl; f_equal; lia.
Qed.

Lemma count_alive_if_flat (cond : bool) (g : t) (x y n : Z) :
  wf g →
  cond = (0 <=? x) && (x <? width g) && (0 <=? y) && (y <? height g) →
  World.count_alive_if cond g x y n = Ok (n + spec_neighbour false g x y).
Proof.
  intros Hwf ->. unfold World.count_alive_if, spec_neighbour.
  destruct ((0 <=? x) && (x <? width g) && (0 <=? y) && (y <? height g))
    eqn:Hc.
  - apply count_alive_in_bounds; [done|].
    unfold in_bounds. repeat (apply andb_prop in Hc as [Hc ?]). lia.
  - f_equal. lia.
Qed.

Lemma count_alive_torus (g : t) (x y x' y' n : Z) :
  wf g → 0 < width g → 0 < height g →
  x' = x `mod` width g → y' = y `mod` height g →
  World.count_alive g x' y' n = Ok (n + spec_neighbour true g x y).
Proof.
  intros Hwf Hw Hh -> ->. unfold spec_neighbour.
  apply count_alive_in_bounds; [done|]. unfold in_bounds.
  pose proof (Z.mod_pos_bound x (width g)).
  pose proof (Z.mod_pos_bound y (height g)). lia.
Qed.

Local Ltac torus_side :=
  solve [ done | lia | apply c_mod_spec; [lia | done]
        | symmetry; apply Z.mod_small; lia ].

(** [count_neighbours] returns the number of live cells among the eight
    neighbours: off the torus always, on the torus when the sums of [mod]
    stay within [int]. *)
Lemma count_neighbours_spec (w : World.t) (x y : Z) (toroidal : bool) :
  wf (World.currentState w) → in_bounds (World.currentState w) x y →
  (toroidal = true → torus_in_range (World.currentState w) x y) →
  World.count_neighbours w x y toroidal
  = Ok (spec_alive_neighbours toroidal (World.currentState w) x y).
Proof.
  intros Hwf [Hx Hy] Hsafe. unfold World.count_neighbours.
  set (g := World.currentState w) in *. unfold get_width, get_height.
  destruct toroidal; simpl negb; cbv iota.
  - destruct (Hsafe eq_refl) as (Hxl & Hxr & Hyl & Hyr).
    rewrite (count_alive_torus g (x - 1) y) by torus_side. cbn [bind].
    rewrite (count_alive_torus g (x + 1) y) by torus_side. cbn [bind].
    rewrite (count_alive_torus g x (y - 1)) by torus_side. cbn [bind].
    rewrite (count_alive_torus g x (y + 1)) by torus_side. cbn [bind].
    rewrite (count_alive_torus g (x - 1) (y - 1)) by torus_side. cbn [bind].
    rewrite (count_alive_torus g (x + 1) (y - 1)) by torus_side. cbn [bind].
    rewrite (count_alive_torus g (x - 1) (y + 1)) by torus_side. cbn [bind].
    rewrite (count_alive_torus g (x + 1) (y + 1)) by torus_side. cbn [bind].
    unfold spec_alive_neighbours, neighbourhood. simpl.
    rewrite !Z.add_0_r. f_equal.
    replace (x + -1) with (x - 1) by lia.
    replace (y + -1) with (y - 1) by lia. lia.
  - repeat (rewrite count_alive_if_flat by (done || bool_cases); cbn [bind]).
    unfold spec_alive_neighbours, neighbourhood. simpl.
    rewrite !Z.add_0_r. f_equal.
    replace (x + -1) with (x - 1) by lia.
    replace (y + -1) with (y - 1) by lia. lia.
Qed.

End Neighbours.

(** ** One generation *)

Section Step.
Import Grid.
Variable w : World.t.
Variable toroidal : bool.
Local Abbreviation cur := (World.currentState w).
Hypothesis cur_wf : wf cur.

Lemma step_cell_spec (x y : Z) (next : t) :
  in_bounds cur x y → wf next → same_size cur next →
  (toroidal = true → torus_in_range cur x y) →
  ∃ next',
    World.step_cell w toroidal x y next = Ok next'
    ∧ wf next' ∧ same_size cur next'
    ∧ ∀ x' y', 0 ≤ x' → 0 ≤ y' →
        cell next' x' y'
        = if decide (x' = x ∧ y' = y) then written toroidal cur x y (cell next x y)
          else cell next x' y'.
Proof.
  intros Hb Hwf Hsz Hsafe.
  pose proof (in_bounds_same_size _ _ _ _ Hsz Hb) as Hb'.
  unfold World.step_cell, written.
  rewrite count_neighbours_spec by done. cbn [bind].
  set (n := spec_alive_neighbours toroidal cur x y).
  unfold World.set_if.
  assert (Hput : ∀ v, ∃ next',
    Ok (put next x y v) = Ok next' ∧ wf next' ∧ same_size cur next'
    ∧ ∀ x' y', 0 ≤ x' → 0 ≤ y' →
        cell next' x' y'
        = if decide (x' = x ∧ y' = y) then v else cell next x' y').
  { intros v. exists (put next x y v). split; [done|].
    split; [by apply put_wf|]. split; [done|].
    intros x' y' Hx' Hy'. by apply cell_put. }
  assert (Hkeep : ∃ next',
    Ok next = Ok next' ∧ wf next' ∧ same_size cur next'
    ∧ ∀ x' y', 0 ≤ x' → 0 ≤ y' →
        cell next' x' y'
        = if decide (x' = x ∧ y' = y) then cell next x y else cell next x' y').
  { exists next. split; [done|]. split; [done|]. split; [done|].
    intros x' y' _ _. case_decide as Heq; [by destruct Heq as [-> ->]|done]. }
  rewrite !(get_in_bounds cur) by done. cbn [bind].
  destruct (cell cur x y); cbn [Cell_eqb andb].
  - destruct (n =? 3); cbn [bind].
    + rewrite set_in_bounds by done. apply Hput.
    + apply Hkeep.
  - unfold spec_conway.
    destruct (Z.ltb_spec n 2) as [Hn|Hn].
    + rewrite set_in_bounds by done. cbn [bind].
      assert ((n =? 2) = false) as -> by lia.
      assert ((n =? 3) = false) as -> by lia.
      assert ((n >? 3) = false) as -> by lia.
      cbn [orb bind]. apply Hput.
    + cbn [bind orb].
      destruct (Z.ltb_spec 3 n) as [Hn3|Hn3].
      * assert ((n =? 2) = false) as -> by lia.
        assert ((n =? 3) = false) as -> by lia.
        assert ((n >? 3) = true) as -> by lia.
        cbn [orb bind]. rewrite set_in_bounds by done. apply Hput.
      * assert ((n =? 2) || (n =? 3) = true) as -> by lia.
        assert ((n >? 3) = false) as -> by lia.
        rewrite set_in_bounds by done. cbn [bind]. apply Hput.
Qed.

Lemma step_row_spec (next : t) (y : Z) (g : t) :
  0 ≤ y < height cur → step_inv toroidal cur next y 0 g →
  (toroidal = true → ∀ x, 0 ≤ x < width cur → torus_in_range cur x y) →
  ∃ g',
    for_range 0 (World.get_width w)
      (fun x g => World.step_cell w toroidal x y g) g = Ok g'
    ∧ step_inv toroidal cur next (y + 1) 0 g'.
Proof.
  intros Hy Hinv Hsafe. unfold World.get_width, get_width.
  destruct (for_range_inv (step_inv toroidal cur next y) 0 (width cur)
              (fun x g => World.step_cell w toroidal x y g) g)
    as (g' & Hrun & Hwf' & Hsz' & Hcells).
  - destruct cur_wf as (? & _). lia.
  - done.
  - intros i gi Hi (Hwfi & Hszi & Hci).
    destruct (step_cell_spec i y gi) as (g' & -> & Hwf' & Hsz' & Hc');
      [done | done | done | intros Ht; by apply Hsafe |].
    exists g'. split; [done|]. split; [done|]. split; [done|].
    intros x' y' Hb'. destruct Hb' as [Hx' Hy'].
    rewrite Hc' by lia. rewrite !Hci by done.
    destruct (decide (x' = i ∧ y' = y)) as [[-> ->]|Hne].
    + rewrite (decide_False (P := y < y ∨ _)) by lia.
      rewrite decide_True by lia. done.
    + repeat case_decide; try done; lia.
  - exists g'. split; [done|]. split; [done|]. split; [done|].
    intros x' y' Hb'. rewrite Hcells by done. destruct Hb' as [Hx' Hy'].
    repeat case_decide; try done; lia.
Qed.

(** The loops of [step] do not throw, and fill the next grid with what
    [step_cell] writes at every coordinate. *)
Lemma step_loops_spec (next : t) :
  wf next → same_size cur next →
  (toroidal = true → ∀ x y, in_bounds cur x y → torus_in_range cur x y) →
  ∃ next',
    for_range 0 (World.get_height w) (fun y g =>
      for_range 0 (World.get_width w) (fun x g =>
        World.step_cell w toroidal x y g) g) next = Ok next'
    ∧ wf next' ∧ same_size cur next'
    ∧ ∀ x y, in_bounds cur x y →
        cell next' x y = written toroidal cur x y (cell next x y).
Proof.
  intros Hwf Hsz Hsafe. unfold World.get_height, get_height.
  destruct (for_range_inv (fun y g => step_inv toroidal cur next y 0 g) 0 (height cur)
              (fun y g =>
                 for_range 0 (World.get_width w) (fun x g =>
                   World.step_cell w toroidal x y g) g) next)
    as (g' & Hrun & Hwf' & Hsz' & Hcells).
  - destruct cur_wf as (_ & ? & _). lia.
  - split; [done|]. split; [done|].
    intros x' y' [Hx' Hy']. rewrite decide_False by lia. done.
  - intros y g Hy Hinv. apply step_row_spec; [done | done |].
    intros Ht x Hx. by apply Hsafe.
  - exists g'. split; [done|]. split; [done|]. split; [done|].
    intros x y Hb. rewrite Hcells by done. destruct Hb as [Hx Hy].
    rewrite decide_True by lia. done.
Qed.

(** When the two buffers agree, what is written is Conway's rule. *)
Lemma written_conway (x y : Z) :
  written toroidal cur x y (cell cur x y)
  = spec_conway (cell cur x y) (spec_alive_neighbours toroidal cur x y).
Proof.
  unfold written, spec_conway.
  destruct (cell cur x y); [|done].
  by destruct (spec_alive_neighbours toroidal cur x y =? 3).
Qed.

Lemma step_spec :
  World.nextState w = cur →
  (toroidal = true → ∀ x y, in_bounds cur x y → torus_in_range cur x y) →
  ∃ w',
    World.step w toroidal = Ok w'
    ∧ World.nextState w' = World.currentState w'
    ∧ wf (World.currentState w')
    ∧ same_size cur (World.currentState w')
    ∧ ∀ x y, in_bounds cur x y →
        cell (World.currentState w') x y
        = spec_conway (cell cur x y) (spec_alive_neighbours toroidal cur x y).
Proof.
  intros Hnext Hsafe. unfold World.step. rewrite Hnext.
  destruct (step_loops_spec cur) as (next' & -> & Hwf' & Hsz' & Hcells);
    [done | done | done |].
  cbn [bind]. eexists. split; [done|]. simpl.
  split; [done|]. split; [done|]. split; [done|].
  intros x y Hb. rewrite Hcells by done. apply written_conway.
Qed.
End Step.

(** ** Reachable worlds *)

Lemma new_cells_wf (width height : Z) (cells : list (list Cell)) :
  width ≤ INT_MAX → height ≤ INT_MAX →
  Grid.new_cells width height = Ok cells →
  Grid.wf (Grid.mk width height cells).
Proof.
  intros Hw Hh. unfold Grid.new_cells.
  destruct (Z.ltb_spec height 0); [done|].
  destruct (Z.ltb_spec width 0); [done|].
  intros [= <-]. unfold Grid.wf. simpl.
  split; [lia|]. split; [lia|]. split.
  - rewrite length_replicate. lia.
  - apply Forall_replicate. rewrite length_replicate. lia.
Qed.

Lemma make_wf (width height : Z) (g : Grid.t) :
  width ≤ INT_MAX → height ≤ INT_MAX →
  Grid.make width height = Ok g → Grid.wf g.
Proof.
  intros Hw Hh. unfold Grid.make.
  destruct (Grid.new_cells width height) as [cells|e] eqn:Hcells; [|done].
  simpl. intros [= <-]. by apply new_cells_wf.
Qed.

Lemma set_wf (g g' : Grid.t) (x y : Z) (v : Cell) :
  Grid.wf g → Grid.set g x y v = Ok g' → Grid.wf g'.
Proof.
  intros Hwf. unfold Grid.set. destruct (Grid.out_of_range g x y); [done|].
  intros [= <-]. by apply put_wf.
Qed.

Lemma set_if_wf (w : World.t) (x y : Z) (c : Cell) (cond : bool) (v : Cell)
  (next next' : Grid.t) :
  Grid.wf next → World.set_if w x y c cond v next = Ok next' → Grid.wf next'.
Proof.
  intros Hwf. unfold World.set_if.
  destruct (Grid.get (World.currentState w) x y) as [here|e]; [|done].
  simpl. destruct (Cell_eqb here c && cond).
  - by apply set_wf.
  - by intros [= <-].
Qed.

Lemma step_cell_wf (w : World.t) (toroidal : bool) (x y : Z)
  (next next' : Grid.t) :
  Grid.wf next → World.step_cell w toroidal x y next = Ok next' →
  Grid.wf next'.
Proof.
  intros Hwf. unfold World.step_cell.
  destruct (World.count_neighbours w x y toroidal) as [n|e]; [|done]. simpl.
  destruct (World.set_if w x y ALIVE (n <? 2) DEAD next) as [n1|e] eqn:H1;
    [|done]. simpl.
  destruct (World.set_if w x y ALIVE ((n =? 2) || (n =? 3)) ALIVE n1)
    as [n2|e] eqn:H2; [|done]. simpl.
  destruct (World.set_if w x y ALIVE (n >? 3) DEAD n2) as [n3|e] eqn:H3;
    [|done]. simpl.
  destruct (World.set_if w x y DEAD (n =? 3) ALIVE n3) as [n4|e] eqn:H4;
    [|done]. simpl.
  intros [= <-].
  eauto using set_if_wf.
Qed.

(** A step that returns leaves a well-formed grid in both buffers when the
    next buffer was well formed. *)
Lemma step_wf (w w' : World.t) (toroidal : bool) :
  Grid.wf (World.nextState w) → World.step w toroidal = Ok w' →
  Grid.wf (World.currentState w')
  ∧ World.nextState w' = World.currentState w'.
Proof.
  intros Hwf Hstep. unfold World.step in Hstep.
  destruct (for_range _ _ _ _) as [next|e] eqn:Hrun; [|done].
  simpl in Hstep. injection Hstep as <-. simpl. split; [|done].
  unfold for_range in Hrun.
  apply (foldM_ok Grid.wf _ _ _ _) in Hrun; [done | | done].
  intros y s s' Hs Hrow. unfold for_range in Hrow.
  apply (foldM_ok Grid.wf _ _ _ _) in Hrow; [done | | done].
  intros x s1 s2 Hs1 Hcell. by apply step_cell_wf in Hcell.
Qed.

(** In a reachable world the current grid is well formed and the next grid
    is a copy of it. *)
Lemma reachable_inv (w : World.t) :
  reachable w →
  Grid.wf (World.currentState w) ∧ World.nextState w = World.currentState w.
Proof.
  induction 1 as [width height w Hw Hh Hmake | g Hwf | w w' toroidal _ IH Hstep].
  - unfold World.make in Hmake. simpl in Hmake.
    destruct (Grid.make width height) as [g|e] eqn:Hg; [|done].
    simpl in Hmake. injection Hmake as <-. simpl.
    split; [|done]. by apply (make_wf width height).
  - done.
  - destruct IH as [Hwf Hnext].
    apply (step_wf w w' toroidal); [by rewrite Hnext | done].
Qed.



Lemma blinker_wf : Grid.wf blinker.
Proof.
  unfold Grid.wf, blinker, INT_MAX. simpl.
  split; [lia|]. split; [lia|]. split; [done|]. by repeat constructor.
Defined.


(** ** A torus with a side above 2^30 *)




(** ** Several generations *)

Lemma foldM_const_length {S : Type} (f : S → result S) (idx : list Z) (s : S) :
  foldM (fun _ s => f s) idx s
  = Nat.iter (length idx) (fun k s => bind (f s) k) Ok s.
Proof.
  revert s. induction idx as [|i idx IH]; intros s; [done|].
  simpl. destruct (f s) as [s'|e]; [|done]. simpl. apply IH.
Qed.

Lemma step_n_iter (n : nat) (w : World.t) (toroidal : bool) :
  step_n n w toroidal
  = Nat.iter n (fun k w => bind (World.step w toroidal) k) Ok w.
Proof.
  revert w. induction n as [|n IH]; intros w; [done|].
  simpl. destruct (World.step w toroidal) as [w'|e]; [|done]. simpl. apply IH.
Qed.

(** C10: [advance] is [max(steps, 0)] calls of [step] one after the other;
    a count that is zero or negative runs no step and returns the world as
    it was, without throwing. *)
Theorem advance_steps (w : World.t) (steps : Z) (toroidal : bool) :
  World.advance w steps toroidal = step_n (Z.to_nat (Z.max steps 0)) w toroidal
  ∧ (steps ≤ 0 → World.advance w steps toroidal = Ok w).
Proof.
  split.
  - unfold World.advance, for_range.
    rewrite foldM_const_length, step_n_iter, length_seqZ.
    f_equal. lia.
  - intros Hsteps. unfold World.advance. by apply for_range_none.
Qed.

Lemma advance_steps_witness :
  -2 ≤ 0
  ∧ World.advance (World.of_grid blinker) (-2) false
    = Ok (World.of_grid blinker).
Proof.
  split; [lia|].
  apply (proj2 (advance_steps (World.of_grid blinker) (-2) false)). lia.
Defined.

(** ** Merging *)

Section Merge.
Import Grid.
Variables g other : t.
Variables x0 y0 : Z.
Hypothesis g_wf : wf g.
Hypothesis other_wf : wf other.
Hypothesis x0_pos : 0 ≤ x0.
Hypothesis y0_pos : 0 ≤ y0.
Hypothesis fits_x : x0 + width other ≤ width g.
Hypothesis fits_y : y0 + height other ≤ height g.

Lemma merge_column (x : Z) (g' : t) :
  x0 ≤ x < width other + x0 →
  merge_inv g other x0 y0 x y0 g' →
  merge_inv g other x0 y0 (x + 1) y0
    (for_pure y0 (height other + y0) (fun y g' =>
       if Cell_eqb (cell g' x y) DEAD
       then put g' x y (cell other (x - x0) (y - y0))
       else g') g').
Proof.
  intros Hx Hinv.
  assert (merge_inv g other x0 y0 x (height other + y0)
    (for_pure y0 (height other + y0) (fun y g' =>
       if Cell_eqb (cell g' x y) DEAD
       then put g' x y (cell other (x - x0) (y - y0))
       else g') g')) as (Hwf' & Hsz' & Hcells).
  { apply (for_pure_inv (merge_inv g other x0 y0 x)).
    - destruct other_wf as (_ & ? & _). lia.
    - done.
    - intros i gi Hi (Hwfi & Hszi & Hci).
      assert (in_bounds gi x i) as Hbi.
      { apply (in_bounds_same_size g); [done|]. unfold in_bounds. lia. }
      assert (cell gi x i = cell g x i) as Hhere.
      { rewrite Hci by lia. rewrite decide_False by lia. done. }
      rewrite Hhere.
      destruct (cell g x i) eqn:Hold; cbn [Cell_eqb].
      + split; [by apply put_wf|]. split; [done|].
        intros x' y' Hx' Hy'. rewrite cell_put by done. rewrite Hci by done.
        destruct (decide (x' = x ∧ y' = i)) as [[-> ->]|Hne].
        * rewrite decide_True by lia. by rewrite Hold.
        * repeat case_decide; try done; lia.
      + split; [done|]. split; [done|].
        intros x' y' Hx' Hy'. rewrite Hci by done.
        destruct (decide (x' = x ∧ y' = i)) as [[-> ->]|Hne].
        * rewrite decide_False by lia. rewrite decide_True by lia.
          by rewrite Hold.
        * repeat case_decide; try done; lia. }
  split; [done|]. split; [done|].
  intros x' y' Hx' Hy'. rewrite Hcells by done.
  repeat case_decide; try done; lia.
Qed.

Lemma merge_alive_only_spec :
  ∃ g',
    merge g other x0 y0 true = Ok g'
    ∧ wf g' ∧ same_size g g'
    ∧ ∀ x y, 0 ≤ x → 0 ≤ y →
        cell g' x y
        = if decide (x0 ≤ x < x0 + width other ∧ y0 ≤ y < y0 + height other)
          then overlay (cell g x y) (cell other (x - x0) (y - y0))
          else cell g x y.
Proof.
  unfold merge, get_width, get_height.
  assert ((x0 <? 0) || (y0 <? 0) = false) as -> by lia.
  assert ((x0 + width other >? width g) || (y0 + height other >? height g)
          = false) as -> by lia.
  eexists. split; [done|].
  assert (merge_inv g other x0 y0 (width other + x0) y0
    (for_pure x0 (width other + x0) (fun x g' =>
       for_pure y0 (height other + y0) (fun y g' =>
         if Cell_eqb (cell g' x y) DEAD
         then put g' x y (cell other (x - x0) (y - y0))
         else g') g') g)) as (Hwf' & Hsz' & Hcells).
  { apply (for_pure_inv (fun x => merge_inv g other x0 y0 x y0)).
    - destruct other_wf as (? & _). lia.
    - split; [done|]. split; [done|].
      intros x' y' _ _. rewrite decide_False by lia. done.
    - intros x gx Hx Hinv. apply merge_column; [lia | done]. }
  split; [done|]. split; [done|].
  intros x y Hx Hy. rewrite Hcells by done.
  repeat case_decide; try done; lia.
Qed.

End Merge.

(** C8: when [other] fits in the target at [(x0, y0)], a merge with
    [alive_only] does not throw and keeps the size, and it never turns a
    live cell of the target into a dead one: every cell of the target that
    was alive is still alive, inside the target region a cell that was dead
    holds the cell of [other] laid over it, and outside the region every
    cell is as it was. *)
Theorem merge_alive_only_keeps_alive (g other : Grid.t) (x0 y0 : Z) :
  Grid.wf g → Grid.wf other →
  0 ≤ x0 → 0 ≤ y0 →
  x0 + Grid.width other ≤ Grid.width g →
  y0 + Grid.height other ≤ Grid.height g →
  ∃ g',
    Grid.merge g other x0 y0 true = Ok g'
    ∧ same_size g g'
    ∧ ∀ x y, in_bounds g x y →
        ∃ c c',
          Grid.get g x y = Ok c ∧ Grid.get g' x y = Ok c'
          ∧ (c = ALIVE → c' = ALIVE)
          ∧ (x0 ≤ x < x0 + Grid.width other
             ∧ y0 ≤ y < y0 + Grid.height other →
             c = DEAD → Grid.get other (x - x0) (y - y0) = Ok c')
          ∧ (¬ (x0 ≤ x < x0 + Grid.width other
                ∧ y0 ≤ y < y0 + Grid.height other) →
             c' = c).
Proof.
  intros Hwf Hwfo Hx0 Hy0 Hfx Hfy.
  destruct (merge_alive_only_spec g other x0 y0 Hwf Hwfo Hx0 Hy0 Hfx Hfy)
    as (g' & Hrun & Hwf' & Hsz & Hcells).
  exists g'. split; [done|]. split; [done|].
  intros x y Hb.
  exists (Grid.cell g x y), (Grid.cell g' x y).
  split; [by apply get_in_bounds|].
  split; [apply get_in_bounds; [done | by apply (in_bounds_same_size g)]|].
  destruct Hb as [Hx Hy]. rewrite Hcells by lia.
  destruct (decide (x0 ≤ x < x0 + Grid.width other
                    ∧ y0 ≤ y < y0 + Grid.height other)) as [Hin|Hout].
  - split; [by intros ->|]. split; [|done].
    intros _ ->. simpl.
    apply get_in_bounds; [done|]. unfold in_bounds. lia.
  - split; [done|]. split; [done|]. done.
Qed.

Lemma dot_wf : Grid.wf dot.
Proof.
  unfold Grid.wf, dot, INT_MAX. simpl.
  split; [lia|]. split; [lia|]. split; [done|]. by repeat constructor.
Defined.

Lemma merge_alive_only_keeps_alive_witness :
  ∃ g',
    Grid.merge blinker dot 1 1 true = Ok g'
    ∧ same_size blinker g'
    ∧ ∀ x y, in_bounds blinker x y →
        ∃ c c',
          Grid.get blinker x y = Ok c ∧ Grid.get g' x y = Ok c'
          ∧ (c = ALIVE → c' = ALIVE)
          ∧ (1 ≤ x < 1 + Grid.width dot ∧ 1 ≤ y < 1 + Grid.height dot →
             c = DEAD → Grid.get dot (x - 1) (y - 1) = Ok c')
          ∧ (¬ (1 ≤ x < 1 + Grid.width dot ∧ 1 ≤ y < 1 + Grid.height dot) →
             c' = c).
Proof.
  apply (merge_alive_only_keeps_alive blinker dot 1 1).
  - apply blinker_wf.
  - apply dot_wf.
  - lia.
  - lia.
  - simpl. lia.
  - simpl. lia.
Defined.

(** ** Rotating *)

Lemma rotate90_width (g : Grid.t) :
  Grid.width (Grid.rotate90 g) = Grid.height g.
Proof. done. Qed.

Lemma rotate90_height (g : Grid.t) :
  Grid.height (Grid.rotate90 g) = Grid.width g.
Proof. done. Qed.

Lemma odd_mod_4 (r : Z) : Z.odd r = true → r `mod` 4 = 1 ∨ r `mod` 4 = 3.
Proof.
  intros Hodd. apply Z.odd_spec in Hodd as [k Hk].
  pose proof (Z.mod_pos_bound r 4 ltac:(lia)) as Hm.
  pose proof (Z.div_mod r 4 ltac:(lia)) as Hd. lia.
Qed.

(** C9: a rotation by [r] and by [r + 4] quarter turns give the same grid,
    for every integer [r]; a rotation by 0 gives the grid itself; a rotation
    by an odd number of quarter turns swaps width and height.  [rotate] is a
    function of the grid, which it leaves as it was. *)
Theorem rotate_period_4 (g : Grid.t) (r : Z) :
  Grid.rotate g r = Grid.rotate g (r + 4)
  ∧ Grid.rotate g 0 = g
  ∧ (Z.odd r = true →
     Grid.width (Grid.rotate g r) = Grid.height g
     ∧ Grid.height (Grid.rotate g r) = Grid.width g).
Proof.
  unfold Grid.rotate. split; [|split].
  - replace (r + 4) with (r + 1 * 4) by lia. by rewrite Z.mod_add.
  - done.
  - intros Hodd. destruct (odd_mod_4 r Hodd) as [-> | ->]; done.
Qed.

Lemma rotate_period_4_witness :
  Z.odd (-3) = true
  ∧ Grid.width (Grid.rotate bar (-3)) = Grid.height bar
  ∧ Grid.height (Grid.rotate bar (-3)) = Grid.width bar.
Proof.
  split; [reflexivity|].
  apply (proj2 (proj2 (rotate_period_4 bar (-3)))). reflexivity.
Defined.

(** The example of the documentation: a 1x3 grid turned once is 3x1, and
    its top cell ends at the right. *)
Lemma rotate_bar :
  Grid.rotate bar 1 = Grid.mk 3 1 [[DEAD]; [DEAD]; [ALIVE]].
Proof. reflexivity. Qed.

(** ** The sample grids *)

(** Each sample grid is what the constructor and [set] build. *)
Lemma samples_built :
  (let* g := Grid.make 3 3 in
   let* g := Grid.set g 1 0 ALIVE in
   let* g := Grid.set g 1 1 ALIVE in
   Grid.set g 1 2 ALIVE) = Ok blinker
  ∧ (let* g := Grid.make_square 3 in Grid.set g 1 1 ALIVE) = Ok lonely
  ∧ (let* g := Grid.make 1 3 in Grid.set g 0 0 ALIVE) = Ok bar
  ∧ Grid.make 1 1 = Ok dot
  ∧ (let* g := Grid.make 1 1 in Grid.set g 0 0 ALIVE) = Ok live_dot
  ∧ Grid.make 2 1 = Ok pair
  ∧ Grid.make 4 2 = Ok dead_4x2.
Proof. repeat split; reflexivity. Qed.

(** ** Resizing a world *)

Lemma resize_keeps_next (w w' : World.t) (new_width new_height : Z) :
  World.resize w new_width new_height = Ok w' →
  World.nextState w' = World.nextState w.
Proof.
  unfold World.resize.
  destruct (Grid.resize (World.currentState w) new_width new_height); [|done].
  simpl. by intros [= <-].
Qed.

(** C2: resizing a 2x2 world to 3x3 leaves the current grid 3x3 and the next
    grid 2x2; the step that follows then puts the 2x2 grid back as the
    current one. *)
Theorem resize_next_out_of_sync :
  ∃ w w' w'',
    World.make 2 2 = Ok w
    ∧ World.resize w 3 3 = Ok w'
    ∧ Grid.width (World.currentState w') = 3
    ∧ Grid.height (World.currentState w') = 3
    ∧ Grid.width (World.nextState w') = 2
    ∧ Grid.height (World.nextState w') = 2
    ∧ World.step w' false = Ok w''
    ∧ World.get_width w'' = 2.
Proof. do 3 eexists. repeat split; reflexivity. Qed.

(** ** The buffers after a step *)

Lemma step_next_is_current (w w' : World.t) (toroidal : bool) :
  World.step w toroidal = Ok w' →
  World.nextState w' = World.currentState w'.
Proof.
  unfold World.step.
  destruct (for_range _ _ _ _); [|done]. simpl. by intros [= <-].
Qed.

(** C6: after a step of the world made from a 3x3 grid whose only live cell
    is the centre, the next grid is a copy of the new current grid: its
    centre is dead, where the generation before the step had it alive. *)
Theorem step_next_not_previous :
  ∃ w',
    World.step (World.of_grid lonely) false = Ok w'
    ∧ World.nextState w' = World.currentState w'
    ∧ Grid.get (World.currentState (World.of_grid lonely)) 1 1 = Ok ALIVE
    ∧ Grid.get (World.nextState w') 1 1 = Ok DEAD.
Proof. eexists. repeat split; reflexivity. Qed.

(** ** The binary codec *)

(** [numBytes] is the number of bytes that hold the cells when the cell count
    leaves the remainder 0 or at least 4 on division by 8, and one byte less
    when the remainder is 1, 2 or 3. *)
Lemma numBytes_cases (width height : Z) :
  0 ≤ height * width →
  (1 ≤ (height * width) `mod` 8 ≤ 3 →
   Zoo.numBytes width height = (height * width + 7) `div` 8 - 1)
  ∧ (¬ 1 ≤ (height * width) `mod` 8 ≤ 3 →
     Zoo.numBytes width height = (height * width + 7) `div` 8).
Proof.
  intros Hn. unfold Zoo.numBytes.
  rewrite Z.rem_mod_nonneg by lia.
  pose proof (Z.mod_pos_bound (height * width) 8 ltac:(lia)) as Hm.
  rewrite Z.quot_div_nonneg by lia.
  split; intros Hr; Z.to_euclidean_division_equations; lia.
Qed.

(** C5: for the 1x1 grid with a live cell [save_binary] writes the eight
    header bytes and no cell byte; the format has one cell byte, 1. *)
Theorem save_binary_drops_cell_byte :
  Zoo.save_binary true live_dot = Ok [1; 0; 0; 0; 1; 0; 0; 0]
  ∧ spec_binary_file live_dot = [1; 0; 0; 0; 1; 0; 0; 0; 1].
Proof. split; reflexivity. Qed.

(** The header holds only the low byte of each size: a grid 256 cells wide
    is written with width bytes 0 0 0 0. *)
Lemma save_binary_wide_header :
  ∃ g bytes,
    Grid.make 256 1 = Ok g
    ∧ Zoo.save_binary true g = Ok bytes
    ∧ take 8 bytes = [0; 0; 0; 0; 1; 0; 0; 0]
    ∧ take 8 (spec_binary_file g) = [0; 1; 0; 0; 1; 0; 0; 0].
Proof. do 2 eexists. repeat split; vm_compute; reflexivity. Qed.

(** C3: the 1x1 grid with a live cell, saved and loaded again, comes back
    with its cell dead. *)
Theorem binary_round_trip_loses_cell (width0 height0 : Z) :
  ∃ bytes,
    Zoo.save_binary true live_dot = Ok bytes
    ∧ Zoo.load_binary width0 height0 (Some bytes) = Ok dot
    ∧ Grid.get live_dot 0 0 = Ok ALIVE
    ∧ Grid.get dot 0 0 = Ok DEAD.
Proof. eexists. repeat split; reflexivity. Qed.

(** The grid of the end-to-end example does come back as it was. *)
Lemma binary_round_trip_6x6 (width0 height0 : Z) :
  ∃ g bytes,
    (let* g := Grid.make_square 6 in
     let* g := Grid.set g 2 1 ALIVE in
     let* g := Grid.set g 3 2 ALIVE in
     let* g := Grid.set g 1 3 ALIVE in
     let* g := Grid.set g 2 3 ALIVE in
     Grid.set g 3 3 ALIVE) = Ok g
    ∧ Zoo.save_binary true g = Ok bytes
    ∧ Zoo.load_binary width0 height0 (Some bytes) = Ok g.
Proof. do 2 eexists. repeat split; reflexivity. Qed.

(** C7: a file whose header declares a 4x2 grid and which ends there, one
    cell byte short, loads without an exception as a 4x2 grid of dead
    cells. *)
Theorem load_binary_truncated_returns_grid (width0 height0 : Z) :
  Zoo.numBytes 4 2 = 1
  ∧ Zoo.load_binary width0 height0 (Some [4; 0; 0; 0; 2; 0; 0; 0]) = Ok dead_4x2.
Proof. split; reflexivity. Qed.

(** ** The ascii codec *)

(** C4: for the 2x1 grid [save_ascii] writes the header and a row of one
    character, not two, and [load_ascii] throws on that file. *)
Theorem ascii_round_trip_fails :
  ∃ bytes,
    Zoo.save_ascii true pair = Ok bytes
    ∧ bytes = bytes_of_string "2 1" ++ [10] ++ bytes_of_string " " ++ [10]
    ∧ Zoo.load_ascii (Some bytes) = Throw runtime_error.
Proof. eexists. repeat split; reflexivity. Qed.

(** A grid taller than wide is not saved at all: the inner loop runs to the
    height and reads past the last column. *)
Lemma save_ascii_tall_throws :
  Zoo.save_ascii true bar = Throw invalid_argument.
Proof. reflexivity. Qed.

(** The header is read as two single characters: a 10x10 grid does not load
    from the file written for it. *)
Lemma ascii_round_trip_two_digits :
  ∃ g bytes,
    Grid.make 10 10 = Ok g
    ∧ Zoo.save_ascii true g = Ok bytes
    ∧ Zoo.load_ascii (Some bytes) = Throw runtime_error.
Proof. do 2 eexists. repeat split; vm_compute; reflexivity. Qed.

(** A square grid with sides below 10 does come back as it was. *)
Lemma ascii_round_trip_glider :
  ∃ g bytes,
    Zoo.glider = Ok g
    ∧ Zoo.save_ascii true g = Ok bytes
    ∧ Zoo.load_ascii (Some bytes) = Ok g.
Proof. do 2 eexists. repeat split; reflexivity. Qed.

(** * Further properties *)

(** ** Construction and access *)

Lemma cell_new_cells (width height x y : Z) (cells : list (list Cell)) :
  Grid.new_cells width height = Ok cells →
  0 ≤ x < width → 0 ≤ y < height →
  (cells !!! Z.to_nat x) !!! Z.to_nat y = DEAD.
Proof.
  unfold Grid.new_cells.
  destruct (Z.ltb_spec height 0); [done|].
  destruct (Z.ltb_spec width 0); [done|].
  intros [= <-] Hx Hy.
  rewrite lookup_total_replicate_2 by lia.
  apply lookup_total_replicate_2. lia.
Qed.

Lemma make_all_dead_aux (width height : Z) :
  (0 ≤ width ≤ INT_MAX → 0 ≤ height ≤ INT_MAX →
   ∃ g,
     Grid.make width height = Ok g
     ∧ Grid.wf g
     ∧ Grid.get_width g = width ∧ Grid.get_height g = height
     ∧ ∀ x y, in_bounds g x y → Grid.get g x y = Ok DEAD)
  ∧ (width < 0 ∨ height < 0 → Grid.make width height = Throw length_error).
Proof.
  split.
  - intros Hw Hh. unfold Grid.make.
    destruct (Grid.new_cells width height) as [cells|e] eqn:Hcells.
    + simpl. eexists. split; [done|].
      assert (Grid.wf (Grid.mk width height cells)) as Hwf
        by (apply new_cells_wf; [lia | lia | done]).
      split; [done|]. split; [done|]. split; [done|].
      intros x y Hb. rewrite get_in_bounds by done.
      f_equal. destruct Hb. by apply (cell_new_cells width height).
    + unfold Grid.new_cells in Hcells.
      destruct (Z.ltb_spec height 0); [lia|].
      destruct (Z.ltb_spec width 0); [lia|]. done.
  - intros Hneg. unfold Grid.make, Grid.new_cells.
    destruct (Z.ltb_spec height 0); [done|].
    destruct (Z.ltb_spec width 0); [done|]. lia.
Qed.

(** X1: A grid built with sizes that are not negative has those sizes and only
    dead cells; a negative size makes the constructor throw. *)
Theorem make_all_dead (width height : Z) :
  (0 ≤ width ≤ INT_MAX → 0 ≤ height ≤ INT_MAX →
   ∃ g,
     Grid.make width height = Ok g
     ∧ Grid.wf g
     ∧ Grid.get_width g = width ∧ Grid.get_height g = height
     ∧ ∀ x y, in_bounds g x y → Grid.get g x y = Ok DEAD)
  ∧ (width < 0 ∨ height < 0 → Grid.make width height = Throw length_error).
Proof. apply make_all_dead_aux. Qed.

Lemma make_all_dead_witness :
  ∃ g,
    Grid.make 4 2 = Ok g
    ∧ Grid.wf g
    ∧ Grid.get_width g = 4 ∧ Grid.get_height g = 2
    ∧ ∀ x y, in_bounds g x y → Grid.get g x y = Ok DEAD.
Proof.
  apply (proj1 (make_all_dead 4 2)); unfold INT_MAX; lia.
Defined.

(** X2: [get] returns the cell at a coordinate inside the grid and throws
    [invalid_argument] at any other, a negative one included; [set] and
    [operator()] throw at the same coordinates. *)
Theorem get_checks_bounds (g : Grid.t) (x y : Z) (v : Cell) :
  Grid.wf g →
  INT_MIN ≤ x ≤ INT_MAX → INT_MIN ≤ y ≤ INT_MAX →
  (in_bounds g x y → Grid.get g x y = Ok (Grid.cell g x y))
  ∧ (¬ in_bounds g x y →
     Grid.get g x y = Throw invalid_argument
     ∧ Grid.set g x y v = Throw invalid_argument
     ∧ Grid.at_ g x y = Throw invalid_argument
     ∧ Grid.at_assign g x y v = Throw invalid_argument).
Proof.
  intros Hwf Hx Hy. split.
  - by apply get_in_bounds.
  - intros Hout. unfold Grid.get, Grid.set, Grid.at_, Grid.at_assign.
    by rewrite out_of_range_true.
Qed.

Lemma get_checks_bounds_witness :
  Grid.get blinker (-1) 0 = Throw invalid_argument
  ∧ Grid.set blinker (-1) 0 ALIVE = Throw invalid_argument
  ∧ Grid.at_ blinker (-1) 0 = Throw invalid_argument
  ∧ Grid.at_assign blinker (-1) 0 ALIVE = Throw invalid_argument.
Proof.
  apply (proj2 (get_checks_bounds blinker (-1) 0 ALIVE blinker_wf
                  ltac:(unfold INT_MIN, INT_MAX; lia)
                  ltac:(unfold INT_MIN, INT_MAX; lia))).
  unfold in_bounds. simpl. lia.
Defined.

(** X3: After [set] at a coordinate inside the grid, [get] there returns the
    value written and every other cell reads as before; the sizes do not
    change. *)
Theorem set_then_get (g : Grid.t) (x y : Z) (v : Cell) :
  Grid.wf g → in_bounds g x y →
  ∃ g',
    Grid.set g x y v = Ok g'
    ∧ Grid.wf g' ∧ same_size g g'
    ∧ Grid.get g' x y = Ok v
    ∧ ∀ x' y', in_bounds g x' y' → ¬ (x' = x ∧ y' = y) →
        Grid.get g' x' y' = Grid.get g x' y'.
Proof.
  intros Hwf Hb. exists (Grid.put g x y v).
  split; [by apply set_in_bounds|].
  split; [by apply put_wf|]. split; [done|].
  assert (Grid.wf (Grid.put g x y v)) as Hwf' by by apply put_wf.
  split.
  - rewrite get_in_bounds by done. f_equal.
    destruct Hb. rewrite cell_put by (done || lia).
    by rewrite decide_True.
  - intros x' y' Hb' Hne. rewrite !get_in_bounds by done. f_equal.
    destruct Hb'. rewrite cell_put by (done || lia).
    by rewrite decide_False.
Qed.

Lemma set_then_get_witness :
  ∃ g',
    Grid.set blinker 0 0 ALIVE = Ok g'
    ∧ Grid.wf g' ∧ same_size blinker g'
    ∧ Grid.get g' 0 0 = Ok ALIVE
    ∧ ∀ x' y', in_bounds blinker x' y' → ¬ (x' = 0 ∧ y' = 0) →
        Grid.get g' x' y' = Grid.get blinker x' y'.
Proof.
  apply (set_then_get blinker 0 0 ALIVE blinker_wf).
  unfold in_bounds. simpl. lia.
Defined.

(** ** Counting cells *)

(** Two loops over the same range, stepped together. *)
Lemma for_pure_both {A B : Type} (Inv : Z → A → B → Prop) (lo hi : Z)
  (fA : Z → A → A) (fB : Z → B → B) (a : A) (b : B) :
  lo ≤ hi →
  Inv lo a b →
  (∀ i a b, lo ≤ i < hi → Inv i a b → Inv (i + 1) (fA i a) (fB i b)) →
  Inv hi (for_pure lo hi fA a) (for_pure lo hi fB b).
Proof.
  intros Hle. unfold for_pure.
  remember (Z.to_nat (hi - lo)) as n eqn:Hn.
  revert lo a b Hle Hn. induction n as [|n IH]; intros lo a b Hle Hn H0 Hstep.
  - assert (lo = hi) as -> by lia. rewrite seqZ_empty by lia. done.
  - rewrite seqZ_step by lia. simpl.
    apply IH; [lia | lia | |].
    + apply Hstep; [lia | done].
    + intros i a' b' Hi. apply Hstep. lia.
Qed.

(** While the cells fit in an [int] neither counter wraps: after [x] columns
    the two counts add up to [x * height]. *)
Lemma alive_plus_dead_aux (g : Grid.t) :
  Grid.wf g →
  Grid.width g * Grid.height g ≤ INT_MAX →
  Grid.get_alive_cells g + Grid.get_dead_cells g = Grid.get_total_cells g
  ∧ Grid.get_total_cells g = Grid.width g * Grid.height g.
Proof.
  intros (Hw & Hh & _) Hcells.
  assert (Grid.get_total_cells g = Grid.width g * Grid.height g) as Htotal.
  { unfold Grid.get_total_cells, Grid.get_width, Grid.get_height.
    apply to_int_id. nia. }
  split; [|done]. rewrite Htotal.
  unfold Grid.get_alive_cells, Grid.get_dead_cells, Grid.get_width,
    Grid.get_height.
  assert (∀ x a d, 0 ≤ x → 0 ≤ a ∧ 0 ≤ d ∧ a + d = x → (0 ≤ a ∧ 0 ≤ d) ∧ a + d = x)
    as Hsplit by (intros; lia).
  apply (Hsplit (Grid.width g * Grid.height g)); [nia|]. clear Hsplit.
  apply (for_pure_both
           (fun x a d => 0 ≤ a ∧ 0 ≤ d ∧ a + d = x * Grid.height g));
    [lia | lia |].
  intros x a d Hx (Ha & Hd & Hsum).
  assert (∀ a' d', 0 ≤ a' ∧ 0 ≤ d' ∧ a' + d' = x * Grid.height g + Grid.height g
            → 0 ≤ a' ∧ 0 ≤ d' ∧ a' + d' = (x + 1) * Grid.height g)
    as Hend by (intros; lia).
  apply Hend. clear Hend.
  apply (for_pure_both
           (fun y a' d' => 0 ≤ a' ∧ 0 ≤ d' ∧ a' + d' = x * Grid.height g + y));
    [lia | lia |].
  intros y a' d' Hy (Ha' & Hd' & Hsum').
  assert (x * Grid.height g + y + 1 ≤ INT_MAX) as Hfit by nia.
  destruct (Grid.cell g x y); cbn [Cell_eqb];
    rewrite to_int_id by lia; lia.
Qed.

(** X4: In a grid whose cells fit in an [int], the live cells and the dead
    cells add up to its cells, which are width times height many. *)
Theorem alive_plus_dead (g : Grid.t) :
  Grid.wf g →
  Grid.width g * Grid.height g ≤ INT_MAX →
  Grid.get_alive_cells g + Grid.get_dead_cells g = Grid.get_total_cells g
  ∧ Grid.get_total_cells g = Grid.width g * Grid.height g.
Proof. apply alive_plus_dead_aux. Qed.

Lemma alive_plus_dead_witness :
  Grid.width blinker * Grid.height blinker ≤ INT_MAX
  ∧ Grid.get_alive_cells blinker + Grid.get_dead_cells blinker
    = Grid.get_total_cells blinker
  ∧ Grid.get_total_cells blinker = Grid.width blinker * Grid.height blinker.
Proof.
  assert (Grid.width blinker * Grid.height blinker ≤ INT_MAX) as Hcells
    by (cbn [Grid.width Grid.height blinker]; unfold INT_MAX; lia).
  split; [exact Hcells|].
  apply (alive_plus_dead blinker blinker_wf Hcells).
Defined.

(** ** Resizing a grid *)

Lemma put_cells_wf (cells : list (list Cell)) (w h x y : Z) (v : Cell) :
  Grid.wf (Grid.mk w h cells) → Grid.wf (Grid.mk w h (Grid.put_cells cells x y v)).
Proof. intros Hwf. apply (put_wf (Grid.mk w h cells) x y v Hwf). Qed.

Lemma resize_keeps_overlap_aux (g : Grid.t) (width height : Z) :
  Grid.wf g →
  (0 ≤ width ≤ INT_MAX → 0 ≤ height ≤ INT_MAX →
   ∃ g',
     Grid.resize g width height = Ok g'
     ∧ Grid.wf g'
     ∧ Grid.get_width g' = width ∧ Grid.get_height g' = height
     ∧ ∀ x y, in_bounds g' x y →
         Grid.get g' x y
         = if decide (x < Grid.width g ∧ y < Grid.height g)
           then Grid.get g x y else Ok DEAD)
  ∧ (width < 0 ∨ height < 0 →
     Grid.resize g width height = Throw length_error).
Proof.
  intros Hwf. split.
  - intros Hw Hh. unfold Grid.resize, Grid.get_width, Grid.get_height.
    destruct (Grid.new_cells width height) as [tmp|e] eqn:Htmp; cycle 1.
    { unfold Grid.new_cells in Htmp.
      destruct (Z.ltb_spec height 0); [lia|].
      destruct (Z.ltb_spec width 0); [lia|]. done. }
    cbn [bind]. eexists. split; [done|].
    pose proof Hwf as (Hgw & Hgh & _).
    set (stopWidth := Z.min width (Grid.width g)).
    set (stopHeight := Z.min height (Grid.height g)).
    pose (copied := fun (x i : Z) (cells : list (list Cell)) =>
      Grid.wf (Grid.mk width height cells)
      ∧ ∀ x' y', 0 ≤ x' < width → 0 ≤ y' < height →
          (cells !!! Z.to_nat x') !!! Z.to_nat y'
          = if decide ((x' < x ∧ y' < stopHeight) ∨ (x' = x ∧ y' < i))
            then Grid.cell g x' y' else DEAD).
    assert (copied stopWidth 0
      (for_pure 0 stopWidth (fun x tmp =>
         for_pure 0 stopHeight (fun y tmp =>
           Grid.put_cells tmp x y (Grid.cell g x y)) tmp) tmp))
      as [Hwf' Hcells].
    { apply (for_pure_inv (fun x => copied x 0)).
      - lia.
      - split; [by apply new_cells_wf; [lia | lia |]|].
        intros x' y' Hx' Hy'. rewrite decide_False by lia.
        by apply (cell_new_cells width height).
      - intros x cells Hx Hinv.
        assert (copied x stopHeight
          (for_pure 0 stopHeight (fun y tmp =>
             Grid.put_cells tmp x y (Grid.cell g x y)) cells)) as [Hwfx Hcx].
        { apply (for_pure_inv (copied x)).
          - lia.
          - done.
          - intros i ci Hi [Hwfi Hci]. split; [by apply put_cells_wf|].
            intros x' y' Hx' Hy'.
            rewrite (cell_put_cells ci width height) by
              (done || lia || (unfold in_bounds; simpl; lia)).
            rewrite Hci by done.
            destruct (decide (x' = x ∧ y' = i)) as [[-> ->]|Hne].
            + rewrite decide_True by lia. done.
            + repeat case_decide; try done; lia. }
        split; [done|]. intros x' y' Hx' Hy'. rewrite Hcx by done.
        repeat case_decide; try done; lia. }
    split; [done|]. split; [done|]. split; [done|].
    intros x y Hb. rewrite get_in_bounds by done.
    destruct Hb as [Hx Hy]. simpl in Hx, Hy.
    unfold Grid.cell at 1. simpl. rewrite Hcells by done.
    destruct (decide (x < Grid.width g ∧ y < Grid.height g)) as [Hin|Hout].
    + rewrite decide_True by lia.
      rewrite get_in_bounds; [done | done | unfold in_bounds; lia].
    + rewrite decide_False by lia. done.
  - intros Hneg. unfold Grid.resize, Grid.new_cells.
    destruct (Z.ltb_spec height 0); [done|].
    destruct (Z.ltb_spec width 0); [done|]. lia.
Qed.

(** X5: [resize] to sizes that are not negative gives a grid of those sizes that
    holds the old cells where the old and the new grid overlap and dead cells
    elsewhere; a negative size makes it throw. *)
Theorem resize_keeps_overlap (g : Grid.t) (width height : Z) :
  Grid.wf g →
  (0 ≤ width ≤ INT_MAX → 0 ≤ height ≤ INT_MAX →
   ∃ g',
     Grid.resize g width height = Ok g'
     ∧ Grid.wf g'
     ∧ Grid.get_width g' = width ∧ Grid.get_height g' = height
     ∧ ∀ x y, in_bounds g' x y →
         Grid.get g' x y
         = if decide (x < Grid.width g ∧ y < Grid.height g)
           then Grid.get g x y else Ok DEAD)
  ∧ (width < 0 ∨ height < 0 →
     Grid.resize g width height = Throw length_error).
Proof. apply resize_keeps_overlap_aux. Qed.

Lemma resize_keeps_overlap_witness :
  ∃ g',
    Grid.resize blinker 2 5 = Ok g'
    ∧ Grid.wf g'
    ∧ Grid.get_width g' = 2 ∧ Grid.get_height g' = 5
    ∧ ∀ x y, in_bounds g' x y →
        Grid.get g' x y
        = if decide (x < Grid.width blinker ∧ y < Grid.height blinker)
          then Grid.get blinker x y else Ok DEAD.
Proof.
  apply (proj1 (resize_keeps_overlap blinker 2 5 blinker_wf));
    unfold INT_MAX; lia.
Defined.

(** X6: Resizing a grid and then resizing it back to its first sizes keeps the
    cells that lay inside both sizes and leaves every other cell dead. *)
Theorem resize_and_back (g : Grid.t) (width height : Z) :
  Grid.wf g →
  0 ≤ width ≤ INT_MAX → 0 ≤ height ≤ INT_MAX →
  ∃ g1 g2,
    Grid.resize g width height = Ok g1
    ∧ Grid.resize g1 (Grid.get_width g) (Grid.get_height g) = Ok g2
    ∧ same_size g g2
    ∧ ∀ x y, in_bounds g x y →
        Grid.get g2 x y
        = if decide (x < width ∧ y < height) then Grid.get g x y else Ok DEAD.
Proof.
  intros Hwf Hw Hh.
  destruct (proj1 (resize_keeps_overlap_aux g width height Hwf) Hw Hh)
    as (g1 & Hr1 & Hwf1 & Hw1 & Hh1 & Hc1).
  pose proof Hwf as (Hgw & Hgh & _).
  destruct (proj1 (resize_keeps_overlap_aux g1 (Grid.get_width g) (Grid.get_height g)
                     Hwf1) Hgw Hgh)
    as (g2 & Hr2 & Hwf2 & Hw2 & Hh2 & Hc2).
  exists g1, g2. split; [done|]. split; [done|]. split; [done|].
  intros x y [Hx Hy]. unfold Grid.get_width, Grid.get_height in *.
  rewrite Hc2 by (unfold in_bounds; lia). rewrite Hw1, Hh1.
  destruct (decide (x < width ∧ y < height)) as [Hin|Hout]; [|done].
  rewrite Hc1 by (unfold in_bounds; lia).
  rewrite decide_True by lia. done.
Qed.

Lemma resize_and_back_witness :
  ∃ g1 g2,
    Grid.resize blinker 2 5 = Ok g1
    ∧ Grid.resize g1 (Grid.get_width blinker) (Grid.get_height blinker) = Ok g2
    ∧ same_size blinker g2
    ∧ ∀ x y, in_bounds blinker x y →
        Grid.get g2 x y
        = if decide (x < 2 ∧ y < 5) then Grid.get blinker x y else Ok DEAD.
Proof.
  apply (resize_and_back blinker 2 5 blinker_wf); unfold INT_MAX; lia.
Defined.

(** ** Cropping *)

Lemma at_assign_in_bounds (g : Grid.t) (x y : Z) (v : Cell) :
  Grid.wf g → in_bounds g x y → Grid.at_assign g x y v = Ok (Grid.put g x y v).
Proof. apply set_in_bounds. Qed.

Section Crop.
Variable g : Grid.t.
Variables x0 y0 x1 y1 : Z.
Hypothesis g_wf : Grid.wf g.
Hypothesis x_range : 0 ≤ x0 ≤ x1 ∧ x1 ≤ Grid.width g.
Hypothesis y_range : 0 ≤ y0 ≤ y1 ∧ y1 ≤ Grid.height g.

Lemma crop_spec :
  ∃ c,
    Grid.crop g x0 y0 x1 y1 = Ok c
    ∧ Grid.wf c
    ∧ Grid.width c = x1 - x0 ∧ Grid.height c = y1 - y0
    ∧ ∀ i j, 0 ≤ i < x1 - x0 → 0 ≤ j < y1 - y0 →
        Grid.cell c i j = Grid.cell g (x0 + i) (y0 + j).
Proof.
  pose proof g_wf as (Hgw & Hgh & _).
  unfold Grid.crop, Grid.get_width, Grid.get_height.
  rewrite !(to_unsigned_id x0), !(to_unsigned_id y0), !(to_unsigned_id x1),
    !(to_unsigned_id y1), !(to_unsigned_id (Grid.width g)),
    !(to_unsigned_id (Grid.height g)) by lia.
  assert ((x0 >? Grid.width g) || (y0 >? Grid.height g)
          || (x1 >? Grid.width g) || (y1 >? Grid.height g) = false) as -> by lia.
  assert ((x0 <? 0) || (x1 <? 0) || (y0 <? 0) || (y1 <? 0) = false) as -> by lia.
  assert ((x0 >? x1) = false) as -> by lia.
  assert ((y0 >? y1) = false) as -> by lia.
  rewrite !to_unsigned_id by lia. rewrite !to_int_id by lia.
  destruct (proj1 (make_all_dead_aux (x1 - x0) (y1 - y0)))
    as (c0 & -> & Hwf0 & Hw0 & Hh0 & Hdead); [lia | lia |].
  cbn [bind]. unfold Grid.get_width, Grid.get_height in *.
  pose (filled := fun (x y : Z) (c : Grid.t) =>
    Grid.wf c ∧ same_size c0 c
    ∧ ∀ i j, 0 ≤ i < x1 - x0 → 0 ≤ j < y1 - y0 →
        (i < x - x0 ∨ (i = x - x0 ∧ j < y - y0)) →
        Grid.cell c i j = Grid.cell g (x0 + i) (y0 + j)).
  destruct (for_range_inv (fun x => filled x y0) x0 x1
    (fun x c => for_range y0 y1 (fun y c =>
       Grid.at_assign c (to_unsigned (x - x0)) (to_unsigned (y - y0))
         (Grid.cell g x y)) c) c0) as (c & Hrun & Hwf & Hsz & Hcells).
  - lia.
  - split; [done|]. split; [done|]. intros i j Hi Hj Hlt. lia.
  - intros x cx Hx Hinv.
    destruct (for_range_inv (filled x) y0 y1 (fun y c =>
       Grid.at_assign c (to_unsigned (x - x0)) (to_unsigned (y - y0))
         (Grid.cell g x y)) cx) as (c & Hrun & Hwf & Hsz & Hcells).
    + lia.
    + done.
    + intros y cy Hy (Hwfy & Hszy & Hcy).
      rewrite !to_unsigned_id by lia.
      assert (in_bounds cy (x - x0) (y - y0)) as Hb.
      { destruct Hszy as [Hwy Hhy]. unfold in_bounds. lia. }
      rewrite at_assign_in_bounds by done.
      eexists. split; [done|]. split; [by apply put_wf|]. split; [done|].
      intros i j Hi Hj Hlt. rewrite cell_put by (done || lia).
      destruct (decide (i = x - x0 ∧ j = y - y0)) as [[-> ->]|Hne].
      * f_equal; lia.
      * apply Hcy; [done | done | lia].
    + exists c. split; [done|]. split; [done|]. split; [done|].
      intros i j Hi Hj Hlt. apply Hcells; [done | done | lia].
  - exists c. split; [done|]. split; [done|].
    destruct Hsz as [Hwc Hhc].
    split; [lia|]. split; [lia|].
    intros i j Hi Hj. apply Hcells; [done | done | lia].
Qed.

End Crop.

(** X7: [crop] on a window that lies inside the grid returns a grid of the
    size of the window whose cell [(i, j)] is the cell [(x0 + i, y0 + j)] of
    the source. *)
Theorem crop_copies_window (g : Grid.t) (x0 y0 x1 y1 : Z) :
  Grid.wf g →
  0 ≤ x0 ≤ x1 → x1 ≤ Grid.width g →
  0 ≤ y0 ≤ y1 → y1 ≤ Grid.height g →
  ∃ c,
    Grid.crop g x0 y0 x1 y1 = Ok c
    ∧ Grid.get_width c = x1 - x0 ∧ Grid.get_height c = y1 - y0
    ∧ ∀ i j, in_bounds c i j → Grid.get c i j = Grid.get g (x0 + i) (y0 + j).
Proof.
  intros Hwf Hx Hx1 Hy Hy1.
  destruct (crop_spec g x0 y0 x1 y1 Hwf) as (c & Hrun & Hwfc & Hw & Hh & Hcells);
    [lia | lia |].
  exists c. split; [done|]. split; [done|]. split; [done|].
  intros i j Hb. pose proof Hb as [Hi Hj].
  rewrite !get_in_bounds; [| done | unfold in_bounds; lia | done | done].
  f_equal. apply Hcells; lia.
Qed.

Lemma crop_copies_window_witness :
  ∃ c,
    Grid.crop blinker 1 0 2 3 = Ok c
    ∧ Grid.get_width c = 2 - 1 ∧ Grid.get_height c = 3 - 0
    ∧ ∀ i j, in_bounds c i j → Grid.get c i j = Grid.get blinker (1 + i) (0 + j).
Proof.
  apply (crop_copies_window blinker 1 0 2 3 blinker_wf); simpl; lia.
Defined.

(** X8: [crop] throws [invalid_argument] for every window that is inverted or
    reaches outside the grid, a negative coordinate included. *)
Theorem crop_rejects_bad_window (g : Grid.t) (x0 y0 x1 y1 : Z) :
  Grid.wf g →
  INT_MIN ≤ x0 ≤ INT_MAX → INT_MIN ≤ y0 ≤ INT_MAX →
  INT_MIN ≤ x1 ≤ INT_MAX → INT_MIN ≤ y1 ≤ INT_MAX →
  ¬ (0 ≤ x0 ≤ x1 ∧ x1 ≤ Grid.width g ∧ 0 ≤ y0 ≤ y1 ∧ y1 ≤ Grid.height g) →
  Grid.crop g x0 y0 x1 y1 = Throw invalid_argument.
Proof.
  intros (Hgw & Hgh & _) Hx0 Hy0 Hx1 Hy1 Hbad.
  unfold Grid.crop, Grid.get_width, Grid.get_height.
  rewrite !(to_unsigned_id (Grid.width g)), !(to_unsigned_id (Grid.height g))
    by lia.
  assert (Hu : ∀ v, INT_MIN ≤ v ≤ INT_MAX →
            (0 ≤ v ∧ to_unsigned v = v) ∨ (v < 0 ∧ INT_MAX < to_unsigned v)).
  { intros v Hv. destruct (decide (v < 0)).
    - right. rewrite to_unsigned_negative by lia.
      unfold INT_MIN, INT_MAX in *. lia.
    - left. rewrite to_unsigned_id by lia. lia. }
  pose proof (Hu x0 Hx0) as Hx0'. pose proof (Hu y0 Hy0) as Hy0'.
  pose proof (Hu x1 Hx1) as Hx1'. pose proof (Hu y1 Hy1) as Hy1'.
  clear Hu. unfold INT_MAX in *.
  generalize dependent (to_unsigned x0). generalize dependent (to_unsigned y0).
  generalize dependent (to_unsigned x1). generalize dependent (to_unsigned y1).
  intros uy1 Hy1' ux1 Hx1' uy0 Hy0' ux0 Hx0'.
  destruct ((ux0 >? Grid.width g) || (uy0 >? Grid.height g)
            || (ux1 >? Grid.width g) || (uy1 >? Grid.height g)) eqn:G1; [done|].
  destruct ((ux0 <? 0) || (ux1 <? 0) || (uy0 <? 0) || (uy1 <? 0)); [done|].
  destruct (ux0 >? ux1) eqn:G3; [done|].
  destruct (uy0 >? uy1) eqn:G4; [done|].
  exfalso. lia.
Qed.

Lemma crop_rejects_bad_window_witness :
  Grid.crop blinker 2 0 1 3 = Throw invalid_argument.
Proof.
  apply (crop_rejects_bad_window blinker 2 0 1 3 blinker_wf);
    unfold INT_MIN, INT_MAX; simpl; lia.
Defined.

(** ** Merging, all cells *)

Section MergeAll.
Import Grid.
Variables g other : t.
Variables x0 y0 : Z.
Hypothesis g_wf : wf g.
Hypothesis other_wf : wf other.
Hypothesis x0_pos : 0 ≤ x0.
Hypothesis y0_pos : 0 ≤ y0.
Hypothesis fits_x : x0 + width other ≤ width g.
Hypothesis fits_y : y0 + height other ≤ height g.

Lemma merge_overwrite_spec :
  ∃ g',
    merge g other x0 y0 false = Ok g'
    ∧ wf g' ∧ same_size g g'
    ∧ ∀ x y, 0 ≤ x → 0 ≤ y →
        cell g' x y
        = if decide (x0 ≤ x < x0 + width other ∧ y0 ≤ y < y0 + height other)
          then cell other (x - x0) (y - y0)
          else cell g x y.
Proof.
  unfold merge, get_width, get_height.
  assert ((x0 <? 0) || (y0 <? 0) = false) as -> by lia.
  assert ((x0 + width other >? width g) || (y0 + height other >? height g)
          = false) as -> by lia.
  eexists. split; [done|]. cbv iota.
  pose proof other_wf as (How & Hoh & _).
  pose (laid := fun (x i : Z) (g' : t) =>
    wf g' ∧ same_size g g'
    ∧ ∀ x' y', 0 ≤ x' → 0 ≤ y' →
        cell g' x' y'
        = if decide ((x0 ≤ x' < x ∧ y0 ≤ y' < y0 + height other)
                     ∨ (x' = x ∧ y0 ≤ y' < i))
          then cell other (x' - x0) (y' - y0)
          else cell g x' y').
  assert (laid (width other + x0) y0
    (for_pure x0 (width other + x0) (fun x g' =>
       for_pure y0 (height other + y0) (fun y g' =>
         put g' x y (cell other (x - x0) (y - y0))) g') g))
    as (Hwf' & Hsz' & Hcells).
  { apply (for_pure_inv (fun x => laid x y0)).
    - lia.
    - split; [done|]. split; [done|].
      intros x' y' _ _. rewrite decide_False by lia. done.
    - intros x gx Hx Hinv.
      assert (laid x (height other + y0)
        (for_pure y0 (height other + y0) (fun y g' =>
           put g' x y (cell other (x - x0) (y - y0))) gx))
        as (Hwfx & Hszx & Hcx).
      { apply (for_pure_inv (laid x)).
        - lia.
        - done.
        - intros i gi Hi (Hwfi & Hszi & Hci).
          assert (in_bounds gi x i) as Hbi.
          { apply (in_bounds_same_size g); [done|]. unfold in_bounds. lia. }
          split; [by apply put_wf|]. split; [done|].
          intros x' y' Hx' Hy'. rewrite cell_put by done. rewrite Hci by done.
          destruct (decide (x' = x ∧ y' = i)) as [[-> ->]|Hne].
          + rewrite decide_True by lia. done.
          + repeat case_decide; try done; lia. }
      split; [done|]. split; [done|].
      intros x' y' Hx' Hy'. rewrite Hcx by done.
      repeat case_decide; try done; lia. }
  split; [done|]. split; [done|].
  intros x y Hx Hy. rewrite Hcells by done.
  repeat case_decide; try done; lia.
Qed.

End MergeAll.

(** X9: When [other] fits in the target at [(x0, y0)], a merge without
    [alive_only] does not throw and keeps the size; afterwards each cell of
    the target region reads as the cell of [other] laid over it. *)
Theorem merge_overwrites_region (g other : Grid.t) (x0 y0 : Z) :
  Grid.wf g → Grid.wf other →
  0 ≤ x0 → 0 ≤ y0 →
  x0 + Grid.width other ≤ Grid.width g →
  y0 + Grid.height other ≤ Grid.height g →
  ∃ g',
    Grid.merge g other x0 y0 false = Ok g'
    ∧ same_size g g'
    ∧ ∀ x y,
        x0 ≤ x < x0 + Grid.width other → y0 ≤ y < y0 + Grid.height other →
        Grid.get g' x y = Grid.get other (x - x0) (y - y0).
Proof.
  intros Hwf Hwfo Hx0 Hy0 Hfx Hfy.
  destruct (merge_overwrite_spec g other x0 y0 Hwf Hwfo Hx0 Hy0 Hfx Hfy)
    as (g' & Hrun & Hwf' & Hsz & Hcells).
  exists g'. split; [done|]. split; [done|].
  intros x y Hx Hy.
  rewrite !get_in_bounds;
    [| done | unfold in_bounds; lia | done
     | apply (in_bounds_same_size g); [done | unfold in_bounds; lia]].
  rewrite Hcells by lia. by rewrite decide_True by lia.
Qed.

Lemma merge_overwrites_region_witness :
  ∃ g',
    Grid.merge blinker dot 1 1 false = Ok g'
    ∧ same_size blinker g'
    ∧ ∀ x y,
        1 ≤ x < 1 + Grid.width dot → 1 ≤ y < 1 + Grid.height dot →
        Grid.get g' x y = Grid.get dot (x - 1) (y - 1).
Proof.
  apply (merge_overwrites_region blinker dot 1 1 blinker_wf dot_wf);
    simpl; lia.
Defined.

(** X10: In either mode a merge leaves every target cell outside the region it
    lays [other] over as it was. *)
Theorem merge_keeps_outside (g other : Grid.t) (x0 y0 : Z) (alive_only : bool) :
  Grid.wf g → Grid.wf other →
  0 ≤ x0 → 0 ≤ y0 →
  x0 + Grid.width other ≤ Grid.width g →
  y0 + Grid.height other ≤ Grid.height g →
  ∃ g',
    Grid.merge g other x0 y0 alive_only = Ok g'
    ∧ ∀ x y, in_bounds g x y →
        ¬ (x0 ≤ x < x0 + Grid.width other ∧ y0 ≤ y < y0 + Grid.height other) →
        Grid.get g' x y = Grid.get g x y.
Proof.
  intros Hwf Hwfo Hx0 Hy0 Hfx Hfy.
  assert (∃ g', Grid.merge g other x0 y0 alive_only = Ok g'
            ∧ Grid.wf g' ∧ same_size g g'
            ∧ ∀ x y, in_bounds g x y →
                ¬ (x0 ≤ x < x0 + Grid.width other
                   ∧ y0 ≤ y < y0 + Grid.height other) →
                Grid.cell g' x y = Grid.cell g x y)
    as (g' & Hrun & Hwf' & Hsz & Hcells).
  { destruct alive_only.
    - destruct (merge_alive_only_spec g other x0 y0 Hwf Hwfo Hx0 Hy0 Hfx Hfy)
        as (g' & Hrun & Hwf' & Hsz & Hcells).
      exists g'. split; [done|]. split; [done|]. split; [done|].
      intros x y [Hx Hy] Hout. rewrite Hcells by lia.
      by rewrite decide_False.
    - destruct (merge_overwrite_spec g other x0 y0 Hwf Hwfo Hx0 Hy0 Hfx Hfy)
        as (g' & Hrun & Hwf' & Hsz & Hcells).
      exists g'. split; [done|]. split; [done|]. split; [done|].
      intros x y [Hx Hy] Hout. rewrite Hcells by lia.
      by rewrite decide_False. }
  exists g'. split; [done|]. intros x y Hb Hout.
  rewrite !get_in_bounds;
    [| done | done | done | by apply (in_bounds_same_size g)].
  f_equal. by apply Hcells.
Qed.

Lemma merge_keeps_outside_witness :
  ∃ g',
    Grid.merge blinker dot 1 1 true = Ok g'
    ∧ ∀ x y, in_bounds blinker x y →
        ¬ (1 ≤ x < 1 + Grid.width dot ∧ 1 ≤ y < 1 + Grid.height dot) →
        Grid.get g' x y = Grid.get blinker x y.
Proof.
  apply (merge_keeps_outside blinker dot 1 1 true blinker_wf dot_wf);
    simpl; lia.
Defined.

(** A merge throws [invalid_argument], in either mode, when the corner is
    negative or [other] reaches past the right or bottom edge of the
    target, as long as the far corner of [other] still has [int]
    coordinates. *)
Lemma merge_rejects_misfit (g other : Grid.t) (x0 y0 : Z) (alive_only : bool) :
  x0 + Grid.width other ≤ INT_MAX →
  y0 + Grid.height other ≤ INT_MAX →
  x0 < 0 ∨ y0 < 0
  ∨ Grid.width g < x0 + Grid.width other
  ∨ Grid.height g < y0 + Grid.height other →
  Grid.merge g other x0 y0 alive_only = Throw invalid_argument.
Proof.
  intros _ _ Hbad. unfold Grid.merge, Grid.get_width, Grid.get_height.
  destruct (Z.ltb_spec x0 0); [done|].
  destruct (Z.ltb_spec y0 0); [done|]. cbn [orb].
  rewrite !Z.gtb_ltb.
  destruct (Z.ltb_spec (Grid.width g) (x0 + Grid.width other)); [done|].
  destruct (Z.ltb_spec (Grid.height g) (y0 + Grid.height other)); [done|].
  lia.
Qed.

(** ** Cropping and merging together *)

(** X11: Cropping the region a merge has just overwritten gives back a grid of
    the size and the cells of [other]. *)
Theorem merge_then_crop (g other : Grid.t) (x0 y0 : Z) :
  Grid.wf g → Grid.wf other →
  0 ≤ x0 → 0 ≤ y0 →
  x0 + Grid.width other ≤ Grid.width g →
  y0 + Grid.height other ≤ Grid.height g →
  ∃ g' c,
    Grid.merge g other x0 y0 false = Ok g'
    ∧ Grid.crop g' x0 y0 (x0 + Grid.width other) (y0 + Grid.height other) = Ok c
    ∧ same_size other c
    ∧ ∀ i j, in_bounds other i j → Grid.get c i j = Grid.get other i j.
Proof.
  intros Hwf Hwfo Hx0 Hy0 Hfx Hfy.
  destruct (merge_overwrite_spec g other x0 y0 Hwf Hwfo Hx0 Hy0 Hfx Hfy)
    as (g' & Hrun & Hwf' & [Hw' Hh'] & Hcells).
  pose proof Hwfo as (How & Hoh & _).
  destruct (crop_spec g' x0 y0 (x0 + Grid.width other) (y0 + Grid.height other)
              Hwf') as (c & Hcrop & Hwfc & Hwc & Hhc & Hcc); [lia | lia |].
  exists g', c. split; [done|]. split; [done|].
  split; [unfold same_size; lia|].
  intros i j [Hi Hj].
  rewrite !get_in_bounds; [| done | done | done | unfold in_bounds; lia].
  f_equal. rewrite Hcc by lia. rewrite Hcells by lia.
  rewrite decide_True by lia. f_equal; lia.
Qed.

Lemma merge_then_crop_witness :
  ∃ g' c,
    Grid.merge blinker dot 1 1 false = Ok g'
    ∧ Grid.crop g' 1 1 (1 + Grid.width dot) (1 + Grid.height dot) = Ok c
    ∧ same_size dot c
    ∧ ∀ i j, in_bounds dot i j → Grid.get c i j = Grid.get dot i j.
Proof.
  apply (merge_then_crop blinker dot 1 1 blinker_wf dot_wf); simpl; lia.
Defined.

(** X12: Merging a crop of a grid back where it was cut leaves every cell of the
    grid as it was. *)
Theorem crop_then_merge (g : Grid.t) (x0 y0 x1 y1 : Z) :
  Grid.wf g →
  0 ≤ x0 ≤ x1 → x1 ≤ Grid.width g →
  0 ≤ y0 ≤ y1 → y1 ≤ Grid.height g →
  ∃ c g',
    Grid.crop g x0 y0 x1 y1 = Ok c
    ∧ Grid.merge g c x0 y0 false = Ok g'
    ∧ same_size g g'
    ∧ ∀ x y, in_bounds g x y → Grid.get g' x y = Grid.get g x y.
Proof.
  intros Hwf Hx Hx1 Hy Hy1.
  destruct (crop_spec g x0 y0 x1 y1 Hwf) as (c & Hcrop & Hwfc & Hwc & Hhc & Hcc);
    [lia | lia |].
  destruct (merge_overwrite_spec g c x0 y0 Hwf Hwfc)
    as (g' & Hrun & Hwf' & Hsz & Hcells); [lia | lia | lia | lia |].
  exists c, g'. split; [done|]. split; [done|]. split; [done|].
  intros x y Hb. pose proof Hb as [Hbx Hby].
  rewrite !get_in_bounds;
    [| done | done | done | by apply (in_bounds_same_size g)].
  f_equal. rewrite Hcells by lia.
  case_decide as Hin; [|done].
  rewrite Hcc by lia. f_equal; lia.
Qed.

Lemma crop_then_merge_witness :
  ∃ c g',
    Grid.crop blinker 1 0 2 3 = Ok c
    ∧ Grid.merge blinker c 1 0 false = Ok g'
    ∧ same_size blinker g'
    ∧ ∀ x y, in_bounds blinker x y → Grid.get g' x y = Grid.get blinker x y.
Proof.
  apply (crop_then_merge blinker 1 0 2 3 blinker_wf); simpl; lia.
Defined.

(** ** Printing *)

Lemma seqZ_snoc (m n : Z) : 0 ≤ n → seqZ m (n + 1) = seqZ m n ++ [m + n].
Proof. intros Hn. by rewrite seqZ_app by lia. Qed.

Lemma for_pure_snoc {A : Type} (lo hi : Z) (c : A) (out : list A) :
  lo ≤ hi →
  for_pure lo hi (fun _ out => out ++ [c]) out
  = out ++ replicate (Z.to_nat (hi - lo)) c.
Proof.
  intros Hle.
  apply (for_pure_inv
           (fun i o => lo ≤ i ∧ o = out ++ replicate (Z.to_nat (i - lo)) c)
           lo hi (fun _ o => o ++ [c]) out Hle).
  - split; [lia|]. rewrite Z.sub_diag. simpl. by rewrite app_nil_r.
  - intros i o Hi [_ ->]. split; [lia|].
    replace (Z.to_nat (i + 1 - lo)) with (Datatypes.S (Z.to_nat (i - lo))) by lia.
    by rewrite replicate_S_end, app_assoc.
Qed.

(** X13: A grid prints as a bordered rectangle: the border line, one line for
    each row from the top with ['#'] for a live and [' '] for a dead cell
    between two pipes, and the border line again; printing does not throw. *)
Theorem print_layout (g : Grid.t) :
  Grid.wf g →
  Grid.print g
  = Ok (print_border (Grid.width g)
          ++ concat (print_row g <$> seqZ 0 (Grid.height g))
          ++ print_border (Grid.width g)).
Proof.
  intros Hwf. pose proof Hwf as (Hw & Hh & _).
  unfold Grid.print, Grid.get_width, Grid.get_height.
  rewrite !for_pure_snoc by lia. rewrite Z.sub_0_r.
  remember (([43] ++ replicate (Z.to_nat (Grid.width g)) 45) ++ [43; 10])
    as top eqn:Htop.
  destruct (for_range_inv
    (fun y out => 0 ≤ y ∧ out = top ++ concat (print_row g <$> seqZ 0 y))
    0 (Grid.height g)
    (fun y out =>
       let* out :=
         for_range 0 (Grid.width g) (fun x out =>
           let* c := Grid.get g x y in
           if Cell_eqb c ALIVE then Ok (out ++ [35]) else Ok (out ++ [32]))
           (out ++ [124]) in
       Ok (out ++ [124; 10])) top) as (out & -> & _ & ->).
  - lia.
  - split; [lia|]. cbn [seqZ fmap list_fmap concat]. by rewrite app_nil_r.
  - intros y out Hy [_ ->].
    destruct (for_range_inv
      (fun x o => 0 ≤ x
         ∧ o = (top ++ concat (print_row g <$> seqZ 0 y)) ++ [124]
               ++ ((fun x => Cell_char (Grid.cell g x y)) <$> seqZ 0 x))
      0 (Grid.width g)
      (fun x out =>
         let* c := Grid.get g x y in
         if Cell_eqb c ALIVE then Ok (out ++ [35]) else Ok (out ++ [32]))
      ((top ++ concat (print_row g <$> seqZ 0 y)) ++ [124]))
      as (o & -> & _ & ->).
    + lia.
    + split; [lia|]. done.
    + intros x o Hx [_ ->]. rewrite get_in_bounds by done. cbn [bind].
      rewrite seqZ_snoc by lia. rewrite fmap_app, Z.add_0_l. cbn [fmap list_fmap].
      eexists. split; [|split; [lia|reflexivity]].
      destruct (Grid.cell g x y); cbn [Cell_eqb Cell_char]; f_equal;
        rewrite <- !app_assoc; done.
    + cbn [bind]. eexists. split; [done|]. split; [lia|].
      rewrite seqZ_snoc by lia. rewrite fmap_app, concat_app, Z.add_0_l.
      cbn [fmap list_fmap concat].
      unfold print_row. rewrite app_nil_r, <- !app_assoc. done.
  - cbn [bind]. rewrite for_pure_snoc by lia. rewrite Z.sub_0_r.
    f_equal. subst top. unfold print_border.
    rewrite <- !app_assoc. done.
Qed.

Lemma print_layout_witness :
  Grid.print blinker
  = Ok (print_border (Grid.width blinker)
          ++ concat (print_row blinker <$> seqZ 0 (Grid.height blinker))
          ++ print_border (Grid.width blinker)).
Proof. apply (print_layout blinker blinker_wf). Defined.

(** ** The wrap-around helper *)

(** X14: For a side [b] from 1 to 2^30 and an [int] [a] with [a + b] an
    [int], [c_mod a b] is the non-negative modulo: it lies in [0, b), is [a]
    itself when [a] does, and is the same for [a] and [a + b], so that a
    coordinate one step off either edge lands on the opposite edge.  For a
    side above 2^30 the sum inside overflows: [c_mod (b - 1) b] is not
    [b - 1], and not positive at all. *)
Theorem c_mod_wraps (a b : Z) :
  (0 < b ≤ 2 ^ 30 → INT_MIN ≤ a → a + b ≤ INT_MAX →
   World.c_mod a b = a `mod` b
   ∧ 0 ≤ World.c_mod a b < b
   ∧ World.c_mod (a + b) b = World.c_mod a b
   ∧ (0 ≤ a < b → World.c_mod a b = a)
   ∧ World.c_mod (-1) b = b - 1
   ∧ World.c_mod b b = 0)
  ∧ (2 ^ 30 < b ≤ INT_MAX → World.c_mod (b - 1) b ≤ 0).
Proof.
  split.
  - intros Hb _ _. rewrite !c_mod_spec by (lia || by apply mod_in_range_side).
    split; [done|].
    split; [apply Z.mod_pos_bound; lia|].
    split; [rewrite <- (Z.mul_1_l b) at 1; by rewrite Z.mod_add by lia|].
    split; [intros Ha; by apply Z.mod_small|].
    split.
    + symmetry. apply (Z.mod_unique_pos _ _ (-1)); lia.
    + apply Z.mod_same. lia.
  - intros Hb. unfold World.c_mod, INT_MAX in *.
    rewrite (Z.rem_small (b - 1) b) by lia.
    apply Z.rem_nonpos; [lia|].
    unfold to_int. rewrite Z.mod_small by lia.
    destruct (Z.ltb_spec (b - 1 + b) (2 ^ 31)); lia.
Qed.

Lemma c_mod_wraps_witness :
  (World.c_mod (-1) 5 = (-1) `mod` 5
   ∧ 0 ≤ World.c_mod (-1) 5 < 5
   ∧ World.c_mod (-1 + 5) 5 = World.c_mod (-1) 5
   ∧ (0 ≤ -1 < 5 → World.c_mod (-1) 5 = -1)
   ∧ World.c_mod (-1) 5 = 5 - 1
   ∧ World.c_mod 5 5 = 0)
  ∧ World.c_mod (2147483647 - 1) 2147483647 ≤ 0.
Proof.
  split.
  - apply (proj1 (c_mod_wraps (-1) 5)); unfold INT_MIN, INT_MAX; lia.
  - apply (proj2 (c_mod_wraps 0 2147483647)). unfold INT_MAX. lia.
Defined.

(** ** Neighbour counts *)

Lemma spec_neighbour_range (toroidal : bool) (g : Grid.t) (x y : Z) :
  0 ≤ spec_neighbour toroidal g x y ≤ 1.
Proof.
  unfold spec_neighbour. destruct toroidal.
  - destruct (Grid.cell _ _ _); simpl; lia.
  - destruct (_ && _); [destruct (Grid.cell _ _ _); simpl; lia | lia].
Qed.

(** For a cell of the grid [count_neighbours] does not throw, off the torus
    or on a torus with sides up to 2^30, and its count lies between 0 and
    8. *)
Lemma count_neighbours_range (w : World.t) (x y : Z) (toroidal : bool) :
  Grid.wf (World.currentState w) → in_bounds (World.currentState w) x y →
  (toroidal = true →
   Grid.width (World.currentState w) ≤ 2 ^ 30
   ∧ Grid.height (World.currentState w) ≤ 2 ^ 30) →
  ∃ n, World.count_neighbours w x y toroidal = Ok n ∧ 0 ≤ n ≤ 8.
Proof.
  intros Hwf Hb Hsides. eexists. split.
  { apply count_neighbours_spec; [done | done |].
    intros Ht. destruct (Hsides Ht), Hb. apply torus_in_range_sides; lia. }
  unfold spec_alive_neighbours, neighbourhood. cbn [fmap list_fmap foldr fst snd].
  repeat match goal with
    | |- context [spec_neighbour ?t ?g ?a ?b] =>
        pose proof (spec_neighbour_range t g a b);
        generalize dependent (spec_neighbour t g a b); intros
    end.
  lia.
Qed.

(** ** Worlds with no live cell *)

Lemma spec_alive_neighbours_dead (toroidal : bool) (g : Grid.t) (x y : Z) :
  (∀ x' y', in_bounds g x' y' → Grid.cell g x' y' = DEAD) →
  in_bounds g x y →
  spec_alive_neighbours toroidal g x y = 0.
Proof.
  intros Hdead [Hx Hy].
  assert (∀ x' y', spec_neighbour toroidal g x' y' = 0) as Hzero.
  { intros x' y'. unfold spec_neighbour. destruct toroidal.
    - rewrite Hdead; [done|]. unfold in_bounds.
      pose proof (Z.mod_pos_bound x' (Grid.width g)).
      pose proof (Z.mod_pos_bound y' (Grid.height g)). lia.
    - destruct (_ && _) eqn:Hc; [|done].
      rewrite Hdead; [done|]. unfold in_bounds.
      repeat (apply andb_prop in Hc as [Hc ?]). lia. }
  unfold spec_alive_neighbours, neighbourhood. cbn [fmap list_fmap foldr].
  rewrite !Hzero. done.
Qed.

(** X15: A step never makes life out of nothing: when no cell of a reachable
    world is alive, a step, toroidal only if the sides are at most 2^30,
    returns a world of the same size in which no cell is alive. *)
Theorem step_dead_stays_dead (w : World.t) (toroidal : bool) :
  reachable w →
  (toroidal = true →
   Grid.width (World.get_state w) ≤ 2 ^ 30
   ∧ Grid.height (World.get_state w) ≤ 2 ^ 30) →
  (∀ x y, in_bounds (World.get_state w) x y →
     Grid.get (World.get_state w) x y = Ok DEAD) →
  ∃ w',
    World.step w toroidal = Ok w'
    ∧ same_size (World.get_state w) (World.get_state w')
    ∧ ∀ x y, in_bounds (World.get_state w') x y →
        Grid.get (World.get_state w') x y = Ok DEAD.
Proof.
  intros Hreach Hsides Hdead. unfold World.get_state in *.
  destruct (reachable_inv w Hreach) as [Hwf Hnext].
  destruct (step_spec w toroidal Hwf Hnext)
    as (w' & Hstep & _ & Hwf' & Hsz & Hcells).
  { intros Ht x y [Hx Hy]. destruct (Hsides Ht) as [Hw Hh].
    apply torus_in_range_sides; lia. }
  assert (∀ x y, in_bounds (World.currentState w) x y →
            Grid.cell (World.currentState w) x y = DEAD) as Hdead'.
  { intros x y Hb. specialize (Hdead x y Hb).
    rewrite get_in_bounds in Hdead by done. by injection Hdead. }
  exists w'. split; [done|]. split; [done|].
  intros x y Hb.
  assert (in_bounds (World.currentState w) x y) as Hb0.
  { destruct Hsz as [Hw Hh], Hb as [Hx Hy]. unfold in_bounds. lia. }
  rewrite get_in_bounds by done. f_equal.
  rewrite Hcells by done. rewrite Hdead' by done.
  by rewrite spec_alive_neighbours_dead.
Qed.

Lemma step_dead_stays_dead_witness :
  ∃ w',
    World.step (World.of_grid dot) true = Ok w'
    ∧ same_size (World.get_state (World.of_grid dot)) (World.get_state w')
    ∧ ∀ x y, in_bounds (World.get_state w') x y →
        Grid.get (World.get_state w') x y = Ok DEAD.
Proof.
  apply (step_dead_stays_dead (World.of_grid dot) true).
  - apply reachable_of_grid, dot_wf.
  - intros _.
    cbn [World.get_state World.of_grid World.currentState Grid.width
           Grid.height dot]. lia.
  - intros x y [Hx Hy]. simpl in Hx, Hy.
    assert (x = 0) as -> by lia. assert (y = 0) as -> by lia. reflexivity.
Defined.

(** ** The size of a world after a step *)

Lemma set_same_size (g g' : Grid.t) (x y : Z) (v : Cell) :
  Grid.set g x y v = Ok g' → same_size g g'.
Proof.
  unfold Grid.set. destruct (Grid.out_of_range g x y); [done|].
  by intros [= <-].
Qed.

Lemma set_if_same_size (w : World.t) (x y : Z) (c : Cell) (cond : bool)
  (v : Cell) (next next' : Grid.t) :
  World.set_if w x y c cond v next = Ok next' → same_size next next'.
Proof.
  unfold World.set_if.
  destruct (Grid.get (World.currentState w) x y) as [here|e]; [|done].
  simpl. destruct (Cell_eqb here c && cond).
  - apply set_same_size.
  - by intros [= <-].
Qed.

Lemma same_size_trans (a b c : Grid.t) :
  same_size a b → same_size b c → same_size a c.
Proof. unfold same_size. intros [-> ->] [-> ->]. done. Qed.

Lemma step_cell_same_size (w : World.t) (toroidal : bool) (x y : Z)
  (next next' : Grid.t) :
  World.step_cell w toroidal x y next = Ok next' → same_size next next'.
Proof.
  unfold World.step_cell.
  destruct (World.count_neighbours w x y toroidal) as [n|e]; [|done]. simpl.
  destruct (World.set_if w x y ALIVE (n <? 2) DEAD next) as [n1|e] eqn:H1;
    [|done]. simpl.
  destruct (World.set_if w x y ALIVE ((n =? 2) || (n =? 3)) ALIVE n1)
    as [n2|e] eqn:H2; [|done]. simpl.
  destruct (World.set_if w x y ALIVE (n >? 3) DEAD n2) as [n3|e] eqn:H3;
    [|done]. simpl.
  destruct (World.set_if w x y DEAD (n =? 3) ALIVE n3) as [n4|e] eqn:H4;
    [|done]. simpl.
  intros [= <-].
  apply set_if_same_size in H1, H2, H3, H4.
  eauto using same_size_trans.
Qed.

Lemma step_takes_size_of_next_aux (w w' : World.t) (toroidal : bool) :
  World.step w toroidal = Ok w' →
  World.nextState w' = World.currentState w'
  ∧ same_size (World.nextState w) (World.get_state w').
Proof.
  intros Hstep. split; [by apply (step_next_is_current w w' toroidal)|].
  unfold World.step in Hstep.
  destruct (for_range _ _ _ _) as [next|e] eqn:Hrun; [|done].
  simpl in Hstep. injection Hstep as <-. simpl.
  unfold for_range in Hrun.
  apply (foldM_ok (same_size (World.nextState w)) _ _ _ _) in Hrun; [done | | done].
  intros y s s' Hs Hrow. unfold for_range in Hrow.
  apply (foldM_ok (same_size (World.nextState w)) _ _ _ _) in Hrow; [done | | done].
  intros x s1 s2 Hs1 Hcell.
  apply step_cell_same_size in Hcell. eauto using same_size_trans.
Qed.

(** X16: Whenever [step] returns, the two buffers of the world are equal and
    have the size the next buffer had before the step, whatever the size of
    the current buffer was. *)
Theorem step_takes_size_of_next (w w' : World.t) (toroidal : bool) :
  World.step w toroidal = Ok w' →
  World.nextState w' = World.currentState w'
  ∧ same_size (World.nextState w) (World.get_state w').
Proof. apply step_takes_size_of_next_aux. Qed.

Lemma step_takes_size_of_next_witness :
  ∃ w',
    World.step (World.of_grid lonely) false = Ok w'
    ∧ World.nextState w' = World.currentState w'
    ∧ same_size (World.nextState (World.of_grid lonely)) (World.get_state w').
Proof.
  eexists. split; [reflexivity|].
  eapply (step_takes_size_of_next (World.of_grid lonely) _ false).
  reflexivity.
Defined.

(** X17: In a reachable world a resize does not outlast the next step: when
    the step after it returns, the world has the size it had before the
    resize. *)
Theorem resize_undone_by_step (w w1 w2 : World.t) (new_width new_height : Z)
  (toroidal : bool) :
  reachable w →
  World.resize w new_width new_height = Ok w1 →
  World.step w1 toroidal = Ok w2 →
  World.get_width w2 = World.get_width w
  ∧ World.get_height w2 = World.get_height w.
Proof.
  intros Hreach Hresize Hstep.
  destruct (reachable_inv w Hreach) as [_ Hnext].
  apply resize_keeps_next in Hresize.
  apply step_takes_size_of_next_aux in Hstep as [_ [Hw Hh]].
  unfold World.get_state in *. rewrite Hresize, Hnext in Hw, Hh. done.
Qed.

Lemma resize_undone_by_step_witness :
  ∃ w1 w2,
    World.resize (World.of_grid blinker) 5 5 = Ok w1
    ∧ World.step w1 false = Ok w2
    ∧ World.get_width w2 = World.get_width (World.of_grid blinker)
    ∧ World.get_height w2 = World.get_height (World.of_grid blinker).
Proof.
  do 2 eexists. split; [reflexivity|]. split; [reflexivity|].
  eapply (resize_undone_by_step (World.of_grid blinker) _ _ 5 5 false).
  - apply reachable_of_grid, blinker_wf.
  - reflexivity.
  - reflexivity.
Defined.

(** ** Advancing in two parts *)

(** X18: Advancing by [a + b] generations is advancing by [a] and then by [b],
    for counts that are not negative; an exception in either part is the
    exception of the whole. *)
Theorem advance_add (w : World.t) (a b : Z) (toroidal : bool) :
  0 ≤ a → 0 ≤ b →
  World.advance w (a + b) toroidal
  = bind (World.advance w a toroidal) (fun w' => World.advance w' b toroidal).
Proof.
  intros Ha Hb. unfold World.advance, for_range.
  rewrite !Z.sub_0_r. rewrite seqZ_app by done. rewrite foldM_app.
  destruct (foldM _ (seqZ 0 a) w) as [w'|e]; [|done]. simpl.
  rewrite !foldM_const_length, !length_seqZ. done.
Qed.

Lemma advance_add_witness :
  World.advance (World.of_grid blinker) (1 + 1) false
  = bind (World.advance (World.of_grid blinker) 1 false)
      (fun w' => World.advance w' 1 false).
Proof. apply (advance_add (World.of_grid blinker) 1 1 false); lia. Defined.

(** ** Files that cannot be opened *)

(** Every codec function throws [runtime_error] when its file cannot be
    opened; [load_ascii] has no test for it and throws because the first
    read yields [EOF], so it throws on an empty file as well. *)
Lemma codec_unopenable (g : Grid.t) (width0 height0 : Z) :
  Zoo.load_ascii None = Throw runtime_error
  ∧ Zoo.load_ascii (Some []) = Throw runtime_error
  ∧ Zoo.load_binary width0 height0 None = Throw runtime_error
  ∧ Zoo.save_ascii false g = Throw runtime_error
  ∧ Zoo.save_binary false g = Throw runtime_error.
Proof. repeat split; reflexivity. Qed.

(** ** Bits and bytes *)

Lemma to_uchar_mod (v : Z) : to_uchar v = v `mod` 256.
Proof. unfold to_uchar. change 255 with (Z.ones 8). by apply Z.land_ones. Qed.

Lemma testbit_to_uchar (v n : Z) :
  0 ≤ n → Z.testbit (to_uchar v) n = (n <? 8) && Z.testbit v n.
Proof.
  intros Hn. unfold to_uchar. change 255 with (Z.ones 8).
  rewrite Z.land_spec, Z.testbit_ones_nonneg by lia. apply andb_comm.
Qed.

Lemma testbit_lor_bit (b j n : Z) :
  0 ≤ j → Z.testbit (Z.lor b (Z.shiftl 1 j)) n = Z.testbit b n || (j =? n).
Proof.
  intros Hj. rewrite Z.lor_spec, Z.shiftl_1_l. by rewrite Z.pow2_bits_eqb.
Qed.

Lemma land_bit_zero (b j : Z) :
  0 ≤ j → (Z.land b (Z.shiftl 1 j) =? 0) = negb (Z.testbit b j).
Proof.
  intros Hj. rewrite Z.shiftl_1_l.
  destruct (Z.testbit b j) eqn:Hb; simpl.
  - apply Z.eqb_neq. intros Hz.
    assert (Z.testbit (Z.land b (2 ^ j)) j = true) as Ht.
    { rewrite Z.land_spec, Hb, Z.pow2_bits_eqb by done. by rewrite Z.eqb_refl. }
    rewrite Hz, Z.bits_0 in Ht. done.
  - apply Z.eqb_eq. apply Z.bits_inj'. intros n Hn.
    rewrite Z.land_spec, Z.bits_0, Z.pow2_bits_eqb by done.
    destruct (Z.eqb_spec j n) as [->|]; [by rewrite Hb|apply andb_false_r].
Qed.

Lemma bytes_int_bytes (v : Z) :
  INT_MIN ≤ v ≤ INT_MAX → bytes_int (int_bytes v) = v.
Proof.
  unfold INT_MIN, INT_MAX, bytes_int, int_bytes. intros Hv.
  cbv beta iota zeta delta [lookup_total list_lookup_total].
  rewrite !to_uchar_mod, !Z.shiftr_div_pow2, !Z.shiftl_mul_pow2 by lia.
  change (2 ^ 8) with 256. change (2 ^ 31) with 2147483648.
  change (2 ^ 32) with 4294967296.
  replace (v `div` 2 ^ 16) with ((v `div` 256) `div` 256)
    by (by rewrite Z.div_div by lia).
  replace (v `div` 2 ^ 24) with (((v `div` 256) `div` 256) `div` 256)
    by (by rewrite !Z.div_div by lia).
  change (2 ^ 16) with 65536. change (2 ^ 24) with 16777216.
  set (q1 := v `div` 256). set (q2 := q1 `div` 256). set (q3 := q2 `div` 256).
  pose proof (Z.div_mod v 256 ltac:(lia)) as E0.
  pose proof (Z.div_mod q1 256 ltac:(lia)) as E1.
  pose proof (Z.div_mod q2 256 ltac:(lia)) as E2.
  pose proof (Z.div_mod q3 256 ltac:(lia)) as E3.
  pose proof (Z.mod_pos_bound v 256 ltac:(lia)) as B0.
  pose proof (Z.mod_pos_bound q1 256 ltac:(lia)) as B1.
  pose proof (Z.mod_pos_bound q2 256 ltac:(lia)) as B2.
  pose proof (Z.mod_pos_bound q3 256 ltac:(lia)) as B3.
  fold q1 in E0. fold q2 in E1. fold q3 in E2.
  match goal with
  | |- context [?u <? 2147483648] => destruct (Z.ltb_spec u 2147483648)
  end; lia.
Qed.

(** The low byte [save_binary] puts first is the only one of the four it
    fills: the other three are shifted out. *)
Lemma shifted_out (v k : Z) : 8 ≤ k → to_uchar (Z.shiftl v k) = 0.
Proof.
  intros Hk. apply Z.bits_inj'. intros n Hn.
  rewrite testbit_to_uchar, Z.bits_0 by done.
  destruct (Z.ltb_spec n 8); [|done]. simpl.
  rewrite Z.shiftl_spec by done. apply Z.testbit_neg_r. lia.
Qed.

(** ** Loops with [break] *)

Lemma for_range_break_inv {S : Type} (Inv : Z → S → Prop) (lo hi : Z)
  (body : Z → S → result (ctl S)) (s : S) :
  lo ≤ hi →
  Inv lo s →
  (∀ i s, lo ≤ i < hi → Inv i s →
     ∃ r, body i s = Ok r
          ∧ match r with
            | Next s' => Inv (i + 1) s'
            | Break s' => Inv hi s'
            end) →
  ∃ s', for_range_break lo hi body s = Ok s' ∧ Inv hi s'.
Proof.
  intros Hle. unfold for_range_break.
  remember (Z.to_nat (hi - lo)) as n eqn:Hn.
  revert lo s Hle Hn. induction n as [|n IH]; intros lo s Hle Hn H0 Hbody.
  - assert (lo = hi) as -> by lia. rewrite seqZ_empty by lia.
    exists s. auto.
  - rewrite seqZ_step by lia. simpl.
    destruct (Hbody lo s) as (r & -> & Hr); [lia | done |]. simpl.
    destruct r as [s1|s1].
    + apply IH; [lia | lia | done |].
      intros i s2 Hi. apply Hbody. lia.
    + exists s1. auto.
Qed.

(** ** What [save_binary] writes *)

Lemma numBytes_nonneg (width height : Z) :
  0 ≤ height * width → 0 ≤ Zoo.numBytes width height.
Proof.
  intros Hn. unfold Zoo.numBytes.
  pose proof (Z.rem_nonneg (height * width) 8 ltac:(lia) Hn).
  apply Z.quot_pos; lia.
Qed.

Lemma bit_coordinates (g : Grid.t) (k : Z) :
  Grid.wf g → 0 ≤ k < Grid.height g * Grid.width g →
  Z.rem k (Grid.width g) = k `mod` Grid.width g
  ∧ Z.quot k (Grid.width g) = k `div` Grid.width g
  ∧ in_bounds g (k `mod` Grid.width g) (k `div` Grid.width g).
Proof.
  intros (Hw & Hh & _) Hk.
  assert (0 < Grid.width g) as Hpos by nia.
  split; [by apply Z.rem_mod_nonneg; lia|].
  split; [by apply Z.quot_div_nonneg; lia|].
  unfold in_bounds. pose proof (Z.mod_pos_bound k (Grid.width g) Hpos).
  split; [lia|]. split; [apply Z.div_pos; lia|].
  apply Z.div_lt_upper_bound; lia.
Qed.

Section SaveBinary.
Variable g : Grid.t.
Hypothesis g_wf : Grid.wf g.
Local Abbreviation width := (Grid.width g).
Local Abbreviation height := (Grid.height g).
Local Abbreviation count := (Zoo.numBytes (Grid.width g) (Grid.height g)).

(** The bits of byte [i] once the inner loop has reached bit [j], the bytes
    before it being complete and the bytes after it still zero. *)
Local Abbreviation packed := (fun (i j : Z) (bytes : list Z) =>
  length bytes = Z.to_nat count
  ∧ ∀ i' j', 0 ≤ i' < count → 0 ≤ j' →
      Z.testbit (bytes !!! Z.to_nat i') j'
      = if decide (i' < i) then (j' <? 8) && (spec_cell_bit g (8 * i' + j') =? 1)
        else if decide (i' = i)
             then (j' <? j) && (spec_cell_bit g (8 * i' + j') =? 1)
             else false).

Lemma save_binary_byte (i : Z) (bytes : list Z) :
  0 ≤ i < count → packed i 0 bytes →
  ∃ bytes',
    for_range_break 0 8 (fun j gridBytes =>
      let curBit := i * 8 + j in
      if curBit >=? height * width then Ok (Break gridBytes)
      else
        let x := Z.rem curBit width in
        let y := Z.quot curBit width in
        let* c := Grid.at_ g x y in
        if Cell_eqb c ALIVE then
          Ok (Next (<[Z.to_nat i :=
                       to_uchar (Z.lor (gridBytes !!! Z.to_nat i)
                                       (Z.shiftl 1 j))]> gridBytes))
        else Ok (Next gridBytes)) bytes = Ok bytes'
    ∧ packed (i + 1) 0 bytes'.
Proof.
  intros Hi Hinv.
  destruct (for_range_break_inv (fun j b => 0 ≤ j ∧ packed i j b) 0 8
    (fun j gridBytes =>
      let curBit := i * 8 + j in
      if curBit >=? height * width then Ok (Break gridBytes)
      else
        let x := Z.rem curBit width in
        let y := Z.quot curBit width in
        let* c := Grid.at_ g x y in
        if Cell_eqb c ALIVE then
          Ok (Next (<[Z.to_nat i :=
                       to_uchar (Z.lor (gridBytes !!! Z.to_nat i)
                                       (Z.shiftl 1 j))]> gridBytes))
        else Ok (Next gridBytes)) bytes)
    as (bytes' & Hrun & _ & Hlen & Hbits).
  - lia.
  - split; [lia|]. done.
  - intros j b Hj [_ [Hlen Hbits]]. cbv zeta.
    rewrite Z.geb_leb.
    destruct (Z.leb_spec (height * width) (i * 8 + j)) as [Hpast|Hin].
    + eexists. split; [done|]. split; [lia|]. split; [done|].
      intros i' j' Hi' Hj'. rewrite Hbits by done.
      destruct (decide (i' < i)); [done|].
      destruct (decide (i' = i)) as [->|]; [|done].
      destruct (Z.ltb_spec j' j); destruct (Z.ltb_spec j' 8);
        simpl; try done; try lia.
      unfold spec_cell_bit.
      destruct (Z.ltb_spec (8 * i + j') (width * height)); [lia|done].
    + destruct (bit_coordinates g (i * 8 + j) g_wf ltac:(lia))
        as (-> & -> & Hb).
      rewrite at_in_bounds by done. cbn [bind].
      assert (spec_cell_bit g (8 * i + j)
              = alive01 (Grid.cell g ((i * 8 + j) `mod` width)
                           ((i * 8 + j) `div` width))) as Hbit.
      { unfold spec_cell_bit. replace (8 * i + j) with (i * 8 + j) by lia.
        destruct (Z.ltb_spec (i * 8 + j) (width * height)); [done|lia]. }
      destruct (Grid.cell g _ _); cbn [Cell_eqb alive01] in *.
      * eexists. split; [done|]. split; [lia|]. split; [done|].
        intros i' j' Hi' Hj'. rewrite Hbits by done.
        destruct (decide (i' < i)); [done|].
        destruct (decide (i' = i)) as [->|]; [|done].
        destruct (Z.ltb_spec j' j); destruct (Z.ltb_spec j' (j + 1));
          simpl; try done; try lia.
        assert (j' = j) as -> by lia. by rewrite Hbit.
      * eexists. split; [done|]. split; [lia|].
        split; [by rewrite length_insert|].
        intros i' j' Hi' Hj'.
        destruct (decide (i' = i)) as [->|Hne].
        -- rewrite list_lookup_total_insert_eq by lia.
           rewrite testbit_to_uchar, testbit_lor_bit by lia.
           rewrite Hbits by done.
           rewrite !(decide_False (P := i < i)) by lia.
           rewrite !(decide_True (P := i = i)) by done.
           destruct (Z.ltb_spec j' j); destruct (Z.ltb_spec j' (j + 1));
             destruct (Z.eqb_spec j j'); destruct (Z.ltb_spec j' 8);
             simpl; try done; try lia.
           subst j'. by rewrite Hbit.
        -- rewrite list_lookup_total_insert_ne by lia.
           rewrite Hbits by done.
           destruct (decide (i' < i)); [done|].
           by rewrite !decide_False by done.
  - exists bytes'. split; [done|]. split; [done|].
    intros i' j' Hi' Hj'. rewrite Hbits by done.
    destruct (decide (i' < i));
      [by rewrite (decide_True (P := i' < i + 1)) by lia|].
    destruct (decide (i' = i)) as [->|].
    + by rewrite (decide_True (P := i < i + 1)) by lia.
    + rewrite (decide_False (P := i' < i + 1)) by lia.
      destruct (decide (i' = i + 1)); [|done].
      by destruct (Z.ltb_spec j' 0); [lia|].
Qed.

(** What [save_binary] writes for a grid of at most 65536 cells, whose cell
    bytes fit on the stack. *)
Lemma save_binary_spec :
  width * height ≤ 65536 →
  ∃ data,
    Zoo.save_binary true g
    = Ok ([to_uchar width; 0; 0; 0; to_uchar height; 0; 0; 0] ++ data)
    ∧ Z.of_nat (length data) = count
    ∧ ∀ i j, 0 ≤ i < count → 0 ≤ j →
        Z.testbit (data !!! Z.to_nat i) j
        = (j <? 8) && (spec_cell_bit g (8 * i + j) =? 1).
Proof.
  intros _. pose proof g_wf as (Hw & Hh & _).
  pose proof (numBytes_nonneg width height ltac:(nia)) as Hcount.
  unfold Zoo.save_binary, Grid.get_width, Grid.get_height. cbn [negb].
  rewrite (shifted_out width 8), (shifted_out width 16),
    (shifted_out width 24), (shifted_out height 8), (shifted_out height 16),
    (shifted_out height 24) by lia.
  rewrite !Z.shiftl_0_r.
  destruct (for_range_inv (fun i b => 0 ≤ i ∧ packed i 0 b) 0 count
    (fun i gridBytes =>
      for_range_break 0 8 (fun j gridBytes =>
        let curBit := i * 8 + j in
        if curBit >=? height * width then Ok (Break gridBytes)
        else
          let x := Z.rem curBit width in
          let y := Z.quot curBit width in
          let* c := Grid.at_ g x y in
          if Cell_eqb c ALIVE then
            Ok (Next (<[Z.to_nat i :=
                         to_uchar (Z.lor (gridBytes !!! Z.to_nat i)
                                         (Z.shiftl 1 j))]> gridBytes))
          else Ok (Next gridBytes)) gridBytes)
    (replicate (Z.to_nat count) 0)) as (data & Hrun & _ & Hlen & Hbits).
  - done.
  - split; [lia|]. split; [by rewrite length_replicate|].
    intros i' j' Hi' Hj'. rewrite lookup_total_replicate_2 by lia.
    rewrite Z.bits_0. rewrite decide_False by lia.
    destruct (decide (i' = 0)); [|done].
    by destruct (Z.ltb_spec j' 0); [lia|].
  - intros i b Hi [_ Hinv].
    destruct (save_binary_byte i b Hi Hinv) as (b' & Hb' & Hinv').
    exists b'. split; [done|]. split; [lia|done].
  - exists data. cbv zeta in Hrun |- *. rewrite Hrun. cbn [bind].
    split; [done|]. split; [lia|].
    intros i j Hi Hj. rewrite Hbits by done. by rewrite decide_True by lia.
Qed.

End SaveBinary.

(** ** What [load_binary] reads *)

Lemma stream_read_int (v0 v : Z) (rest : list Z) :
  stream_read 4 (int_bytes v0) (int_bytes v ++ rest) = (int_bytes v, rest).
Proof. reflexivity. Qed.

Lemma stream_read_padded (n i : Z) (data : list Z) :
  0 ≤ i < n →
  (stream_read n (replicate (Z.to_nat n) 0) data).1 !!! Z.to_nat i
  = default 0 (data !! Z.to_nat i).
Proof.
  intros Hi. unfold stream_read. cbn [fst].
  rewrite list_lookup_total_alt.
  destruct (decide (Z.to_nat i < length data)%nat) as [Hlt|Hge].
  - rewrite lookup_app_l by (rewrite length_take; lia).
    rewrite lookup_take_lt by lia.
    destruct (lookup_lt_is_Some_2 data (Z.to_nat i) Hlt) as [b ->]. done.
  - rewrite take_ge by lia.
    rewrite lookup_app_r by lia.
    rewrite (lookup_ge_None_2 data) by lia.
    rewrite lookup_drop, lookup_replicate_2 by lia. done.
Qed.

Lemma index_coordinates (w x y c : Z) :
  0 ≤ x < w → (y * w + x = c ↔ x = c `mod` w ∧ y = c `div` w).
Proof.
  intros Hx. split.
  - intros <-. split.
    + rewrite Z.add_comm, Z.mod_add by lia. symmetry. by apply Z.mod_small.
    + rewrite Z.add_comm, Z.div_add by lia. rewrite Z.div_small by done. lia.
  - intros [-> ->]. pose proof (Z.div_mod c w ltac:(lia)). lia.
Qed.

Section LoadBinary.
Variables w h : Z.
Variable data : list Z.
Variables width0 height0 : Z.
Hypothesis w_range : 0 ≤ w ≤ INT_MAX.
Hypothesis h_range : 0 ≤ h ≤ INT_MAX.
Local Abbreviation cellBytes :=
  ((stream_read (Zoo.numBytes w h) (replicate (Z.to_nat (Zoo.numBytes w h)) 0)
      data).1).

(** The grid once the loops have passed the first [k] bits. *)
Local Abbreviation decoded := (fun (k : Z) (g : Grid.t) =>
  Grid.wf g ∧ Grid.width g = w ∧ Grid.height g = h
  ∧ ∀ x y, in_bounds g x y →
      Grid.cell g x y
      = if decide (y * w + x < k)
        then (if file_bit data (y * w + x) then ALIVE else DEAD)
        else DEAD).

Lemma load_binary_byte (i : Z) (g : Grid.t) :
  0 ≤ i < Zoo.numBytes w h → decoded (8 * i) g →
  ∃ g',
    for_range_break 0 8 (fun j loadGrid =>
      let curBit := i * 8 + j in
      if curBit >=? h * w then Ok (Break loadGrid)
      else
        let x := Z.rem curBit w in
        let y := Z.quot curBit w in
        if negb (Z.land (cellBytes !!! Z.to_nat i) (Z.shiftl 1 j) =? 0)
        then
          let* loadGrid := Grid.set loadGrid x y ALIVE in
          Ok (Next loadGrid)
        else Ok (Next loadGrid)) g = Ok g'
    ∧ decoded (8 * (i + 1)) g'.
Proof.
  intros Hi Hinv.
  destruct (for_range_break_inv (fun j g' => 0 ≤ j ∧ decoded (8 * i + j) g') 0 8
    (fun j loadGrid =>
      let curBit := i * 8 + j in
      if curBit >=? h * w then Ok (Break loadGrid)
      else
        let x := Z.rem curBit w in
        let y := Z.quot curBit w in
        if negb (Z.land (cellBytes !!! Z.to_nat i) (Z.shiftl 1 j) =? 0)
        then
          let* loadGrid := Grid.set loadGrid x y ALIVE in
          Ok (Next loadGrid)
        else Ok (Next loadGrid)) g)
    as (g' & Hrun & _ & Hdec).
  - lia.
  - split; [lia|]. by rewrite Z.add_0_r.
  - intros j gj Hj [_ (Hwf & Hgw & Hgh & Hcells)]. cbv zeta.
    rewrite Z.geb_leb.
    destruct (Z.leb_spec (h * w) (i * 8 + j)) as [Hpast|Hin].
    + eexists. split; [done|]. split; [lia|].
      split; [done|]. split; [done|]. split; [done|].
      intros x y Hb. rewrite Hcells by done.
      destruct Hb as [Hx Hy]. rewrite Hgw in Hx. rewrite Hgh in Hy.
      assert (y * w + x < h * w) by nia.
      rewrite !decide_True by lia. done.
    + destruct (bit_coordinates gj (i * 8 + j) Hwf ltac:(rewrite Hgw, Hgh; lia))
        as (Hrem & Hquot & Hb).
      rewrite Hgw in Hrem, Hquot, Hb. rewrite Hrem, Hquot.
      rewrite land_bit_zero, negb_involutive by lia.
      rewrite stream_read_padded by done.
      assert (file_bit data (i * 8 + j)
              = Z.testbit (default 0 (data !! Z.to_nat i)) j) as Hbit.
      { unfold file_bit. f_equal.
        - do 3 f_equal. rewrite Z.add_comm, Z.div_add by lia.
          rewrite Z.div_small by lia. lia.
        - rewrite Z.add_comm, Z.mod_add by lia. by apply Z.mod_small. }
      rewrite <- Hbit.
      assert (Hstep : ∀ x y, in_bounds gj x y →
                (y * w + x < 8 * i + (j + 1)
                 ↔ y * w + x < 8 * i + j
                   ∨ (x = (i * 8 + j) `mod` w ∧ y = (i * 8 + j) `div` w))).
      { intros x y [Hx Hy]. rewrite Hgw in Hx.
        rewrite <- (index_coordinates w x y (i * 8 + j)) by done. lia. }
      assert (Hhere : Grid.cell gj ((i * 8 + j) `mod` w) ((i * 8 + j) `div` w)
                      = DEAD).
      { rewrite Hcells by done. rewrite decide_False; [done|].
        pose proof (proj2 (index_coordinates w _ _ (i * 8 + j)
                             ltac:(destruct Hb as [Hb _]; rewrite Hgw in Hb;
                                   exact Hb)) (conj eq_refl eq_refl)).
        lia. }
      destruct (file_bit data (i * 8 + j)) eqn:Hfb.
      * rewrite set_in_bounds by done. cbn [bind].
        eexists. split; [done|]. split; [lia|].
        split; [by apply put_wf|]. split; [done|]. split; [done|].
        intros x y Hbxy. pose proof Hbxy as [Hx Hy].
        rewrite cell_put by (done || lia).
        destruct (decide (x = (i * 8 + j) `mod` w ∧ y = (i * 8 + j) `div` w))
          as [Heq|Hne].
        -- rewrite decide_True by (apply Hstep; [done | by right]).
           apply index_coordinates in Heq; [|by rewrite <- Hgw].
           by rewrite Heq, Hfb.
        -- rewrite Hcells by done.
           destruct (decide (y * w + x < 8 * i + j)) as [Hlt|Hnlt].
           ++ by rewrite decide_True by (apply Hstep; [done | by left]).
           ++ rewrite decide_False; [done|].
              intros Hlt. apply Hstep in Hlt; [|done]. tauto.
      * eexists. split; [done|]. split; [lia|].
        split; [done|]. split; [done|]. split; [done|].
        intros x y Hbxy. pose proof Hbxy as [Hx Hy].
        rewrite Hcells by done.
        destruct (decide (y * w + x < 8 * i + j)) as [Hlt|Hnlt].
        -- by rewrite decide_True by (apply Hstep; [done | by left]).
        -- destruct (decide (y * w + x < 8 * i + (j + 1))) as [Hlt'|]; [|done].
           apply Hstep in Hlt' as [?|Heq]; [done | |done].
           apply index_coordinates in Heq; [|by rewrite <- Hgw].
           by rewrite Heq, Hfb.
  - exists g'. split; [done|].
    replace (8 * (i + 1)) with (8 * i + 8) by lia. done.
Qed.

(** What [load_binary] reads from a header that announces at most 65536
    cells, whose cell bytes fit on the stack. *)
Lemma load_binary_spec :
  w * h ≤ 65536 →
  ∃ g,
    Zoo.load_binary width0 height0 (Some (int_bytes w ++ int_bytes h ++ data))
    = Ok g
    ∧ decoded (8 * Zoo.numBytes w h) g.
Proof.
  intros _. pose proof (numBytes_nonneg w h ltac:(nia)) as Hcount.
  unfold Zoo.load_binary.
  change Grid.make_empty with (Ok (Grid.mk 0 0 [])). cbn [bind].
  rewrite stream_read_int. rewrite stream_read_int.
  rewrite !bytes_int_bytes by (unfold INT_MIN; lia).
  destruct (proj1 (make_all_dead_aux w h) w_range h_range)
    as (g0 & -> & Hwf0 & Hw0 & Hh0 & Hdead).
  cbn [bind].
  destruct (stream_read (Zoo.numBytes w h) _ data) as [bytes rest] eqn:Hread.
  assert (bytes = cellBytes) as -> by by rewrite Hread.
  destruct (for_range_inv (fun i g => 0 ≤ i ∧ decoded (8 * i) g)
    0 (Zoo.numBytes w h)
    (fun i loadGrid =>
      for_range_break 0 8 (fun j loadGrid =>
        let curBit := i * 8 + j in
        if curBit >=? h * w then Ok (Break loadGrid)
        else
          let x := Z.rem curBit w in
          let y := Z.quot curBit w in
          if negb (Z.land (cellBytes !!! Z.to_nat i) (Z.shiftl 1 j) =? 0)
          then
            let* loadGrid := Grid.set loadGrid x y ALIVE in
            Ok (Next loadGrid)
          else Ok (Next loadGrid)) loadGrid) g0) as (g & Hrun & _ & Hdec).
  - done.
  - split; [lia|]. split; [done|]. split; [done|]. split; [done|].
    intros x y Hb. rewrite decide_False.
    + specialize (Hdead x y Hb). rewrite get_in_bounds in Hdead by done.
      by injection Hdead.
    + destruct Hb as [Hx Hy]. unfold Grid.get_width in Hw0.
      rewrite Hw0 in Hx. nia.
  - intros i gi Hi [_ Hinv].
    destruct (load_binary_byte i gi Hi Hinv) as (g' & Hg' & Hinv').
    exists g'. split; [done|]. split; [lia|].
    replace (8 * (i + 1)) with (8 * i + 8) in Hinv' by lia.
    replace (8 * (i + 1)) with (8 * i + 8) by lia. done.
  - exists g. cbv zeta in Hrun |- *. rewrite Hrun. done.
Qed.

End LoadBinary.

(** ** What [save_ascii] writes *)

Lemma save_ascii_layout_aux (g : Grid.t) :
  Grid.wf g → Grid.height g ≤ Grid.width g →
  Zoo.save_ascii true g
  = Ok (decimal (Grid.width g) ++ [32] ++ decimal (Grid.height g) ++ [10]
          ++ concat (ascii_row g (Grid.height g) <$> seqZ 0 (Grid.height g))).
Proof.
  intros Hwf Hwide. pose proof Hwf as (Hw & Hh & _).
  unfold Zoo.save_ascii, Grid.get_width, Grid.get_height. cbn [negb].
  change (bytes_of_string " ") with [32].
  change (bytes_of_string "#") with [35].
  remember (decimal (Grid.width g) ++ [32] ++ decimal (Grid.height g) ++ [10])
    as head eqn:Hhead.
  destruct (for_range_inv
    (fun y out => 0 ≤ y
       ∧ out = head ++ concat (ascii_row g (Grid.height g) <$> seqZ 0 y))
    0 (Grid.height g)
    (fun y writefile =>
       let* writefile :=
         for_range 0 (Grid.height g) (fun x writefile =>
           let* c := Grid.get g x y in
           if Cell_eqb c ALIVE then Ok (writefile ++ [35])
           else
             let* c := Grid.get g x y in
             if Cell_eqb c DEAD then Ok (writefile ++ [32])
             else Ok writefile) writefile in
       Ok (writefile ++ [10])) head) as (out & -> & _ & ->).
  - lia.
  - split; [lia|]. cbn [seqZ fmap list_fmap concat]. by rewrite app_nil_r.
  - intros y out Hy [_ ->].
    destruct (for_range_inv
      (fun x o => 0 ≤ x
         ∧ o = (head ++ concat (ascii_row g (Grid.height g) <$> seqZ 0 y))
               ++ ((fun x => Cell_char (Grid.cell g x y)) <$> seqZ 0 x))
      0 (Grid.height g)
      (fun x writefile =>
         let* c := Grid.get g x y in
         if Cell_eqb c ALIVE then Ok (writefile ++ [35])
         else
           let* c := Grid.get g x y in
           if Cell_eqb c DEAD then Ok (writefile ++ [32])
           else Ok writefile)
      (head ++ concat (ascii_row g (Grid.height g) <$> seqZ 0 y)))
      as (o & -> & _ & ->).
    + lia.
    + split; [lia|]. cbn [seqZ fmap list_fmap]. by rewrite app_nil_r.
    + intros x o Hx [_ ->].
      rewrite !get_in_bounds by (done || (unfold in_bounds; lia)).
      cbn [bind].
      rewrite seqZ_snoc by lia. rewrite fmap_app, Z.add_0_l.
      cbn [fmap list_fmap].
      eexists. split; [|split; [lia|reflexivity]].
      destruct (Grid.cell g x y); cbn [Cell_eqb Cell_char bind]; f_equal;
        rewrite <- !app_assoc; done.
    + cbn [bind]. eexists. split; [done|]. split; [lia|].
      rewrite seqZ_snoc by lia. rewrite fmap_app, concat_app, Z.add_0_l.
      cbn [fmap list_fmap concat].
      unfold ascii_row. rewrite app_nil_r, <- !app_assoc. done.
  - subst head. rewrite <- !app_assoc. done.
Qed.

(** X19: For a grid that is not taller than wide [save_ascii] writes the two
    sizes in decimal with a space between and a newline after, then one line
    for each row; every line holds [height] cells, not [width]: ['#'] for a
    live and [' '] for a dead cell. *)
Theorem save_ascii_layout (g : Grid.t) :
  Grid.wf g → Grid.height g ≤ Grid.width g →
  Zoo.save_ascii true g
  = Ok (decimal (Grid.width g) ++ [32] ++ decimal (Grid.height g) ++ [10]
          ++ concat (ascii_row g (Grid.height g) <$> seqZ 0 (Grid.height g))).
Proof. apply save_ascii_layout_aux. Qed.

Lemma save_ascii_layout_witness :
  Zoo.save_ascii true pair
  = Ok (decimal (Grid.width pair) ++ [32] ++ decimal (Grid.height pair) ++ [10]
          ++ concat (ascii_row pair (Grid.height pair)
                       <$> seqZ 0 (Grid.height pair))).
Proof.
  apply (save_ascii_layout pair).
  - unfold Grid.wf, pair, INT_MAX. simpl.
    split; [lia|]. split; [lia|]. split; [done|]. by repeat constructor.
  - simpl. lia.
Defined.

(** X20: A grid that is taller than wide is not saved: [save_ascii] throws
    [invalid_argument], reading past the last column of the first row. *)
Theorem save_ascii_tall_grid_throws (g : Grid.t) :
  Grid.wf g → Grid.width g < Grid.height g →
  Zoo.save_ascii true g = Throw invalid_argument.
Proof.
  intros Hwf Htall. pose proof Hwf as (Hw & Hh & _).
  unfold Zoo.save_ascii, Grid.get_width, Grid.get_height. cbn [negb].
  rewrite for_range_unroll by lia.
  rewrite (for_range_throws (fun _ _ => True) 0 (Grid.width g) (Grid.height g)
             _ _ invalid_argument); [done | lia | done | |].
  - intros x o Hx _.
    rewrite !get_in_bounds by (done || (unfold in_bounds; lia)). cbn [bind].
    destruct (Grid.cell g x 0); cbn [Cell_eqb bind]; eauto.
  - intros o _.
    destruct (get_checks_bounds_aux g (Grid.width g) 0) as [Hthrow _];
      [done | unfold INT_MIN, INT_MAX in *; lia | unfold INT_MIN, INT_MAX; lia
      | unfold in_bounds; lia |].
    by rewrite Hthrow.
Qed.

Lemma save_ascii_tall_grid_throws_witness :
  Zoo.save_ascii true bar = Throw invalid_argument.
Proof.
  apply (save_ascii_tall_grid_throws bar).
  - unfold Grid.wf, bar, INT_MAX. simpl.
    split; [lia|]. split; [lia|]. split; [done|]. by repeat constructor.
  - simpl. lia.
Defined.

(** ** What [load_ascii] reads *)

Lemma to_char_cell (c : Cell) : to_char (Cell_char c) = Cell_char c.
Proof. by destruct c. Qed.

Lemma to_char_digit (n : Z) : 0 ≤ n ≤ 79 → to_char (48 + n) = 48 + n.
Proof.
  intros Hn. unfold to_char. rewrite to_uchar_mod.
  rewrite Z.mod_small by lia.
  destruct (Z.ltb_spec (48 + n) 128); lia.
Qed.

Section LoadAscii.
Variable g : Grid.t.
Variables sep1 sep2 : Z.
Variable rest : list Z.
Hypothesis g_wf : Grid.wf g.
Hypothesis width_digit : Grid.width g ≤ 79.
Hypothesis height_digit : Grid.height g ≤ 79.
Local Abbreviation width := (Grid.width g).
Local Abbreviation height := (Grid.height g).

(** The grid and the input when the loops have reached column [x] of row
    [y]. *)
Local Abbreviation parsed :=
  (fun (tail : list Z) (y x : Z) (st : Grid.t * list Z) =>
  Grid.wf st.1 ∧ same_size g st.1
  ∧ (∀ x' y', in_bounds g x' y' → y' < y ∨ (y' = y ∧ x' < x) →
       Grid.cell st.1 x' y' = Grid.cell g x' y')
  ∧ st.2 = ((fun x => Cell_char (Grid.cell g x y)) <$> seqZ x (width - x))
             ++ [10] ++ tail).

Lemma load_ascii_row (tail : list Z) (y : Z) (st : Grid.t * list Z) :
  0 ≤ y < height → parsed tail y 0 st →
  ∃ st',
    (let '(parsedGrid, inputFile) := st in
     let* '(parsedGrid, inputFile) :=
       for_range 0 width (fun x '(parsedGrid, inputFile) =>
         let '(c, inputFile) := stream_get inputFile in
         let buffer := to_char c in
         if buffer =? 35 then
           let* parsedGrid := Grid.set parsedGrid x y ALIVE in
           Ok (parsedGrid, inputFile)
         else if buffer =? 32 then
           let* parsedGrid := Grid.set parsedGrid x y DEAD in
           Ok (parsedGrid, inputFile)
         else Throw runtime_error) (parsedGrid, inputFile) in
     let '(c, inputFile) := stream_get inputFile in
     let buffer := to_char c in
     if negb (buffer =? 10) then Throw runtime_error
     else Ok (parsedGrid, inputFile)) = Ok st'
    ∧ Grid.wf st'.1 ∧ same_size g st'.1
    ∧ (∀ x' y', in_bounds g x' y' → y' < y + 1 →
         Grid.cell st'.1 x' y' = Grid.cell g x' y')
    ∧ st'.2 = tail.
Proof.
  intros Hy Hinv. pose proof g_wf as (Hw & Hh & _).
  destruct st as [g0 s0].
  destruct (for_range_inv (fun x st => 0 ≤ x ∧ parsed tail y x st) 0 width
    (fun x '(parsedGrid, inputFile) =>
       let '(c, inputFile) := stream_get inputFile in
       let buffer := to_char c in
       if buffer =? 35 then
         let* parsedGrid := Grid.set parsedGrid x y ALIVE in
         Ok (parsedGrid, inputFile)
       else if buffer =? 32 then
         let* parsedGrid := Grid.set parsedGrid x y DEAD in
         Ok (parsedGrid, inputFile)
       else Throw runtime_error) (g0, s0))
    as ([g1 s1] & Hrun & _ & Hwf1 & Hsz1 & Hcells1 & Hs1).
  - lia.
  - split; [lia|]. done.
  - intros x [gx sx] Hx [_ (Hwfx & Hszx & Hcx & Hsx)]. cbn [fst snd] in *.
    rewrite seqZ_step in Hsx by lia. cbn [fmap list_fmap app] in Hsx.
    rewrite Hsx. cbn [stream_get]. cbv zeta. rewrite to_char_cell.
    assert (in_bounds gx x y) as Hb.
    { apply (in_bounds_same_size g); [done | unfold in_bounds; lia]. }
    assert (∀ v, v = Grid.cell g x y →
      ∃ st', Ok (Grid.put gx x y v, ((fun x0 => Cell_char (Grid.cell g x0 y))
                   <$> seqZ (x + 1) (width - (x + 1))) ++ [10] ++ tail)
             = Ok st' ∧ 0 ≤ x + 1 ∧ parsed tail y (x + 1) st') as Hput.
    { intros v Hv. eexists. split; [done|]. split; [lia|]. cbn [fst snd].
      split; [by apply put_wf|]. split; [done|]. split; [|done].
      intros x' y' Hb' Hlt. pose proof Hb' as [Hx' Hy'].
      rewrite cell_put by (done || lia).
      destruct (decide (x' = x ∧ y' = y)) as [[-> ->]|Hne]; [done|].
      apply Hcx; [done | lia]. }
    destruct (Grid.cell g x y) eqn:Hc; cbn [Cell_char Z.eqb Pos.eqb];
      rewrite set_in_bounds by done; cbn [bind]; by apply Hput.
  - cbn [fst snd] in *. rewrite Hrun. cbn [bind].
    rewrite Z.sub_diag in Hs1. cbn [seqZ fmap list_fmap app] in Hs1.
    rewrite Hs1. cbn [stream_get]. cbv zeta.
    change (to_char 10) with 10. cbn [Z.eqb Pos.eqb negb].
    eexists. split; [done|]. cbn [fst snd].
    split; [done|]. split; [done|]. split; [|done].
    intros x' y' Hb' Hlt. apply Hcells1; [done|].
    destruct Hb' as [Hx' Hy']. lia.
Qed.

Lemma load_ascii_spec :
  ∃ g',
    Zoo.load_ascii
      (Some (48 + width :: sep1 :: 48 + height :: sep2
               :: concat (ascii_row g width <$> seqZ 0 height) ++ rest))
    = Ok g'
    ∧ Grid.wf g' ∧ same_size g g'
    ∧ ∀ x y, in_bounds g x y → Grid.cell g' x y = Grid.cell g x y.
Proof.
  pose proof g_wf as (Hw & Hh & _).
  unfold Zoo.load_ascii.
  change Grid.make_empty with (Ok (Grid.mk 0 0 [])).
  cbn [bind default from_option id stream_get]. cbv zeta.
  rewrite !to_char_digit by lia.
  replace (48 + width - 48) with width by lia.
  replace (48 + height - 48) with height by lia.
  assert ((width <? 0) || (height <? 0) = false) as -> by lia.
  destruct (proj1 (resize_keeps_overlap_aux (Grid.mk 0 0 []) width height
                     ltac:(by repeat split; unfold INT_MAX; simpl; try lia))
              ltac:(lia) ltac:(lia))
    as (g0 & -> & Hwf0 & Hw0 & Hh0 & Hc0).
  cbn [bind].
  destruct (for_range_inv
    (fun y st => 0 ≤ y
       ∧ Grid.wf st.1 ∧ same_size g st.1
       ∧ (∀ x' y', in_bounds g x' y' → y' < y →
            Grid.cell st.1 x' y' = Grid.cell g x' y')
       ∧ st.2 = concat (ascii_row g width <$> seqZ y (height - y)) ++ rest)
    0 height
    (fun y '(parsedGrid, inputFile) =>
       let* '(parsedGrid, inputFile) :=
         for_range 0 width (fun x '(parsedGrid, inputFile) =>
           let '(c, inputFile) := stream_get inputFile in
           let buffer := to_char c in
           if buffer =? 35 then
             let* parsedGrid := Grid.set parsedGrid x y ALIVE in
             Ok (parsedGrid, inputFile)
           else if buffer =? 32 then
             let* parsedGrid := Grid.set parsedGrid x y DEAD in
             Ok (parsedGrid, inputFile)
           else Throw runtime_error) (parsedGrid, inputFile) in
       let '(c, inputFile) := stream_get inputFile in
       let buffer := to_char c in
       if negb (buffer =? 10) then Throw runtime_error
       else Ok (parsedGrid, inputFile))
    (g0, concat (ascii_row g width <$> seqZ 0 height) ++ rest))
    as ([g' s'] & Hrun & _ & Hwf' & Hsz' & Hcells' & _).
  - lia.
  - split; [lia|]. cbn [fst snd]. split; [done|].
    split; [by unfold same_size, Grid.get_width, Grid.get_height in *|].
    split; [intros x' y' [_ ?] ?; lia|]. by rewrite Z.sub_0_r.
  - intros y st Hy (_ & Hwfy & Hszy & Hcy & Hsy).
    destruct (load_ascii_row
                (concat (ascii_row g width <$> seqZ (y + 1) (height - (y + 1)))
                   ++ rest) y st Hy)
      as (st' & Hrow & Hwf' & Hsz' & Hc' & Hs').
    { split; [done|]. split; [done|]. split.
      - intros x' y' Hb' [Hlt|[_ Hlt]]; [by apply Hcy | destruct Hb'; lia].
      - rewrite Hsy, seqZ_step by lia. cbn [fmap list_fmap concat].
        unfold ascii_row at 1. rewrite Z.sub_0_r, <- !app_assoc. done. }
    exists st'. destruct st as [gy sy]. split; [exact Hrow|].
    split; [lia|]. done.
  - exists g'. cbn [fst snd] in *. cbv zeta in Hrun |- *. rewrite Hrun.
    cbn [bind]. split; [done|]. split; [done|]. split; [done|].
    intros x y Hb. apply Hcells'; [done|]. destruct Hb as [_ Hy]. lia.
Qed.

Lemma load_ascii_bad_spec (y x b : Z) :
  0 ≤ y < height → 0 ≤ x ≤ width →
  (x < width → to_char b ≠ 35 ∧ to_char b ≠ 32) →
  (x = width → to_char b ≠ 10) →
  Zoo.load_ascii
    (Some (48 + width :: sep1 :: 48 + height :: sep2
             :: concat (ascii_row g width <$> seqZ 0 y)
             ++ ((fun x => Cell_char (Grid.cell g x y)) <$> seqZ 0 x)
             ++ b :: rest))
  = Throw runtime_error.
Proof.
  intros Hy Hx Hcell Hend. pose proof g_wf as (Hw & Hh & _).
  unfold Zoo.load_ascii.
  change Grid.make_empty with (Ok (Grid.mk 0 0 [])).
  cbn [bind default from_option id stream_get]. cbv zeta.
  rewrite !to_char_digit by lia.
  replace (48 + width - 48) with width by lia.
  replace (48 + height - 48) with height by lia.
  assert ((width <? 0) || (height <? 0) = false) as -> by lia.
  destruct (proj1 (resize_keeps_overlap_aux (Grid.mk 0 0 []) width height
                     ltac:(by repeat split; unfold INT_MAX; simpl; try lia))
              ltac:(lia) ltac:(lia))
    as (g0 & -> & Hwf0 & Hw0 & Hh0 & Hc0).
  cbn [bind].
  set (bad := ((fun x => Cell_char (Grid.cell g x y)) <$> seqZ 0 x) ++ b :: rest).
  rewrite (for_range_throws
    (fun y' st => 0 ≤ y'
       ∧ Grid.wf st.1 ∧ same_size g st.1
       ∧ (∀ x' y'', in_bounds g x' y'' → y'' < y' →
            Grid.cell st.1 x' y'' = Grid.cell g x' y'')
       ∧ st.2 = concat (ascii_row g width <$> seqZ y' (y - y')) ++ bad)
    0 y height _ _ runtime_error); [done | lia | | |].
  - split; [lia|]. cbn [fst snd]. split; [done|].
    split; [by unfold same_size, Grid.get_width, Grid.get_height in *|].
    split; [intros x' y' [_ ?] ?; lia|]. by rewrite Z.sub_0_r.
  - intros y' st Hy' (_ & Hwfy & Hszy & Hcy & Hsy).
    destruct (load_ascii_row
                (concat (ascii_row g width <$> seqZ (y' + 1) (y - (y' + 1)))
                   ++ bad) y' st ltac:(lia))
      as (st' & Hrow & Hwf' & Hsz' & Hc' & Hs').
    { split; [done|]. split; [done|]. split.
      - intros x' y'' Hb' [Hlt|[_ Hlt]]; [by apply Hcy | destruct Hb'; lia].
      - rewrite Hsy, seqZ_step by lia. cbn [fmap list_fmap concat].
        unfold ascii_row at 1. rewrite Z.sub_0_r, <- !app_assoc. done. }
    exists st'. destruct st as [gy sy]. split; [exact Hrow|].
    split; [lia|]. done.
  - intros [gy sy] (_ & Hwfy & Hszy & _ & Hsy). cbn [fst snd] in *.
    rewrite seqZ_nil in Hsy by lia. cbn [fmap list_fmap concat app] in Hsy.
    subst sy bad.
    destruct (decide (x < width)) as [Hlt|Hge].
    + rewrite (for_range_throws
        (fun i st => 0 ≤ i ∧ Grid.wf st.1 ∧ same_size g st.1
           ∧ st.2 = ((fun x => Cell_char (Grid.cell g x y)) <$> seqZ i (x - i))
                      ++ b :: rest)
        0 x width _ _ runtime_error); [done | lia | | |].
      * split; [lia|]. cbn [fst snd]. by rewrite Z.sub_0_r.
      * intros i [gi si] Hi (_ & Hwfi & Hszi & Hsi). cbn [fst snd] in *.
        rewrite seqZ_step in Hsi by lia. cbn [fmap list_fmap app] in Hsi.
        rewrite Hsi. cbn [stream_get]. cbv zeta. rewrite to_char_cell.
        assert (in_bounds gi i y) as Hb.
        { apply (in_bounds_same_size g); [done | unfold in_bounds; lia]. }
        destruct (Grid.cell g i y); cbn [Cell_char Z.eqb Pos.eqb];
          rewrite set_in_bounds by done; cbn [bind];
          (eexists; split; [done|]; split; [lia|]; cbn [fst snd];
           split; [by apply put_wf|]; split; done).
      * intros [gi si] (_ & _ & _ & Hsi). cbn [fst snd] in *.
        rewrite seqZ_nil in Hsi by lia. cbn [fmap list_fmap app] in Hsi.
        rewrite Hsi. cbn [stream_get]. cbv zeta.
        destruct (Hcell Hlt) as [H35 H32].
        apply Z.eqb_neq in H35, H32. by rewrite H35, H32.
    + assert (x = width) as -> by lia.
      destruct (for_range_inv
        (fun i st => 0 ≤ i ∧ Grid.wf st.1 ∧ same_size g st.1
           ∧ st.2 = ((fun x => Cell_char (Grid.cell g x y))
                       <$> seqZ i (width - i)) ++ b :: rest)
        0 width
        (fun x '(parsedGrid, inputFile) =>
           let '(c, inputFile) := stream_get inputFile in
           let buffer := to_char c in
           if buffer =? 35 then
             let* parsedGrid := Grid.set parsedGrid x y ALIVE in
             Ok (parsedGrid, inputFile)
           else if buffer =? 32 then
             let* parsedGrid := Grid.set parsedGrid x y DEAD in
             Ok (parsedGrid, inputFile)
           else Throw runtime_error)
        (gy, ((fun x => Cell_char (Grid.cell g x y)) <$> seqZ 0 width)
               ++ b :: rest))
        as ([g1 s1] & Hrun & _ & _ & _ & Hs1).
      * lia.
      * split; [lia|]. cbn [fst snd]. by rewrite Z.sub_0_r.
      * intros i [gi si] Hi (_ & Hwfi & Hszi & Hsi). cbn [fst snd] in *.
        rewrite seqZ_step in Hsi by lia. cbn [fmap list_fmap app] in Hsi.
        rewrite Hsi. cbn [stream_get]. cbv zeta. rewrite to_char_cell.
        assert (in_bounds gi i y) as Hb.
        { apply (in_bounds_same_size g); [done | unfold in_bounds; lia]. }
        destruct (Grid.cell g i y); cbn [Cell_char Z.eqb Pos.eqb];
          rewrite set_in_bounds by done; cbn [bind];
          (eexists; split; [done|]; split; [lia|]; cbn [fst snd];
           split; [by apply put_wf|]; split; done).
      * cbv zeta in Hrun |- *. rewrite Hrun. cbn [bind fst snd] in *.
        rewrite seqZ_nil in Hs1 by lia. cbn [fmap list_fmap app] in Hs1.
        rewrite Hs1. cbn [stream_get].
        specialize (Hend eq_refl). apply Z.eqb_neq in Hend.
        by rewrite Hend.
Qed.

End LoadAscii.

(** ** The binary codec, in general *)

Lemma pair_wf : Grid.wf pair.
Proof.
  unfold Grid.wf, pair, INT_MAX. simpl.
  split; [lia|]. split; [lia|]. split; [done|]. by repeat constructor.
Defined.

Lemma live_dot_wf : Grid.wf live_dot.
Proof.
  unfold Grid.wf, live_dot, INT_MAX. simpl.
  split; [lia|]. split; [lia|]. split; [done|]. by repeat constructor.
Defined.

Lemma dead_4x2_wf : Grid.wf dead_4x2.
Proof.
  unfold Grid.wf, dead_4x2, INT_MAX. simpl.
  split; [lia|]. split; [lia|]. split; [done|]. by repeat constructor.
Defined.

(** X21: For a grid of at most 65536 cells, whose cell bytes take at most
    8 KiB of the stack, [save_binary] returns without an exception.  It
    writes the low byte of the width, three zero bytes, the low byte of the
    height, three zero bytes, and then [numBytes] bytes in which bit [j] of
    byte [i] is set exactly when cell number [8 i + j], counted along the
    rows, exists and is alive. *)
Theorem save_binary_packs_bits (g : Grid.t) :
  Grid.wf g →
  Grid.width g * Grid.height g ≤ 65536 →
  ∃ data,
    Zoo.save_binary true g
    = Ok ([to_uchar (Grid.width g); 0; 0; 0; to_uchar (Grid.height g); 0; 0; 0]
            ++ data)
    ∧ Z.of_nat (length data) = Zoo.numBytes (Grid.width g) (Grid.height g)
    ∧ ∀ i j, 0 ≤ i < Zoo.numBytes (Grid.width g) (Grid.height g) → 0 ≤ j →
        Z.testbit (data !!! Z.to_nat i) j
        = (j <? 8) && (spec_cell_bit g (8 * i + j) =? 1).
Proof. intros Hwf Hcells. by apply save_binary_spec. Qed.

Lemma save_binary_packs_bits_witness :
  Grid.width blinker * Grid.height blinker ≤ 65536
  ∧ ∃ data,
      Zoo.save_binary true blinker
      = Ok ([to_uchar (Grid.width blinker); 0; 0; 0;
             to_uchar (Grid.height blinker); 0; 0; 0] ++ data)
      ∧ Z.of_nat (length data)
        = Zoo.numBytes (Grid.width blinker) (Grid.height blinker)
      ∧ ∀ i j,
          0 ≤ i < Zoo.numBytes (Grid.width blinker) (Grid.height blinker) →
          0 ≤ j →
          Z.testbit (data !!! Z.to_nat i) j
          = (j <? 8) && (spec_cell_bit blinker (8 * i + j) =? 1).
Proof.
  assert (Grid.width blinker * Grid.height blinker ≤ 65536) as Hcells
    by (cbn [Grid.width Grid.height blinker]; lia).
  split; [exact Hcells|].
  apply (save_binary_packs_bits blinker blinker_wf Hcells).
Defined.

(** X22: [load_binary] does not throw on a file that holds the eight header
    bytes of two sizes from 0 to 65536 that announce at most 65536 cells,
    whose cell bytes take at most 8 KiB of the stack, however few bytes
    follow: it returns a grid of those sizes in which cell [(x, y)] is alive
    exactly when its number [y * width + x] is below [8 * numBytes] and bit
    [y * width + x] of the bytes after the header is set, a byte the file
    lacks counting as 0. *)
Theorem load_binary_reads_bits (w h width0 height0 : Z) (data : list Z) :
  0 ≤ w ≤ 65536 → 0 ≤ h ≤ 65536 →
  w * h ≤ 65536 →
  ∃ g,
    Zoo.load_binary width0 height0 (Some (int_bytes w ++ int_bytes h ++ data))
    = Ok g
    ∧ Grid.get_width g = w ∧ Grid.get_height g = h
    ∧ ∀ x y, in_bounds g x y →
        Grid.get g x y
        = Ok (if decide (y * w + x < 8 * Zoo.numBytes w h)
              then (if file_bit data (y * w + x) then ALIVE else DEAD)
              else DEAD).
Proof.
  intros Hw Hh Hsmall.
  destruct (load_binary_spec w h data width0 height0
              ltac:(unfold INT_MAX; lia) ltac:(unfold INT_MAX; lia) Hsmall)
    as (g & Hrun & Hwf & Hgw & Hgh & Hcells).
  exists g. split; [done|]. split; [done|]. split; [done|].
  intros x y Hb. rewrite get_in_bounds by done. f_equal. by apply Hcells.
Qed.

Lemma load_binary_reads_bits_witness :
  ∃ g,
    Zoo.load_binary 7 7 (Some (int_bytes 4 ++ int_bytes 2 ++ [129]))
    = Ok g
    ∧ Grid.get_width g = 4 ∧ Grid.get_height g = 2
    ∧ ∀ x y, in_bounds g x y →
        Grid.get g x y
        = Ok (if decide (y * 4 + x < 8 * Zoo.numBytes 4 2)
              then (if file_bit [129] (y * 4 + x) then ALIVE else DEAD)
              else DEAD).
Proof.
  apply (load_binary_reads_bits 4 2 7 7 [129]); lia.
Defined.

(** X23: A header with a negative size makes [load_binary] throw
    [runtime_error]: the exception of the constructor is caught and thrown
    again. *)
Theorem load_binary_negative_size (w h width0 height0 : Z) (data : list Z) :
  INT_MIN ≤ w ≤ INT_MAX → INT_MIN ≤ h ≤ INT_MAX →
  w < 0 ∨ h < 0 →
  Zoo.load_binary width0 height0 (Some (int_bytes w ++ int_bytes h ++ data))
  = Throw runtime_error.
Proof.
  intros Hw Hh Hneg. unfold Zoo.load_binary.
  change Grid.make_empty with (Ok (Grid.mk 0 0 [])). cbn [bind].
  rewrite stream_read_int. rewrite stream_read_int.
  rewrite !bytes_int_bytes by done.
  by rewrite (proj2 (make_all_dead_aux w h) Hneg).
Qed.

Lemma load_binary_negative_size_witness :
  Zoo.load_binary 0 0 (Some (int_bytes (-1) ++ int_bytes 2 ++ [255]))
  = Throw runtime_error.
Proof.
  apply (load_binary_negative_size (-1) 2 0 0 [255]);
    unfold INT_MIN, INT_MAX; lia.
Defined.

Lemma int_bytes_small (v : Z) : 0 ≤ v ≤ 255 → int_bytes v = [to_uchar v; 0; 0; 0].
Proof.
  intros Hv. unfold int_bytes.
  rewrite !Z.shiftr_div_pow2 by lia.
  rewrite !(Z.div_small v) by lia. done.
Qed.

Section BinaryRoundTrip.
Variable g : Grid.t.
Variables width0 height0 : Z.
Hypothesis g_wf : Grid.wf g.
Hypothesis width_byte : Grid.width g ≤ 255.
Hypothesis height_byte : Grid.height g ≤ 255.
Local Abbreviation width := (Grid.width g).
Local Abbreviation height := (Grid.height g).

Lemma binary_round_trip_spec :
  ∃ bytes g',
    Zoo.save_binary true g = Ok bytes
    ∧ Zoo.load_binary width0 height0 (Some bytes) = Ok g'
    ∧ Grid.wf g' ∧ same_size g g'
    ∧ ∀ x y, in_bounds g x y →
        Grid.cell g' x y
        = if decide (y * width + x < 8 * Zoo.numBytes width height)
          then Grid.cell g x y else DEAD.
Proof.
  pose proof g_wf as (Hw & Hh & _).
  destruct (save_binary_spec g g_wf ltac:(nia))
    as (data & Hsave & Hlen & Hbits).
  destruct (load_binary_spec width height data width0 height0 Hw Hh
              ltac:(nia))
    as (g' & Hload & Hwf' & Hgw & Hgh & Hcells).
  exists ([to_uchar width; 0; 0; 0; to_uchar height; 0; 0; 0] ++ data), g'.
  split; [done|]. split.
  { rewrite <- Hload. rewrite !int_bytes_small by lia. done. }
  split; [done|]. split; [done|].
  intros x y Hb.
  rewrite Hcells by (apply (in_bounds_same_size g); done).
  destruct (decide (y * width + x < 8 * Zoo.numBytes width height))
    as [Hlt|]; [|done].
  destruct Hb as [Hx Hy].
  set (k := y * width + x) in *.
  assert (0 ≤ k < height * width) as Hk by (unfold k; nia).
  pose proof (Z.div_mod k 8 ltac:(lia)) as Hdm.
  pose proof (Z.mod_pos_bound k 8 ltac:(lia)) as Hmod.
  assert (0 ≤ k `div` 8 < Zoo.numBytes width height) as Hbyte by lia.
  unfold file_bit.
  destruct (lookup_lt_is_Some_2 data (Z.to_nat (k `div` 8)) ltac:(lia))
    as [b Hb].
  rewrite Hb. cbn [default from_option id].
  rewrite <- (list_lookup_total_correct _ _ _ Hb).
  rewrite Hbits by lia. rewrite <- Hdm.
  assert ((k `mod` 8 <? 8) = true) as -> by lia. cbn [andb].
  unfold spec_cell_bit.
  assert ((k <? width * height) = true) as -> by lia.
  destruct (proj1 (index_coordinates width x y k Hx) eq_refl) as [<- <-].
  by destruct (Grid.cell g x y).
Qed.

End BinaryRoundTrip.

(** X24: A grid with sides below 256 whose cell count leaves the remainder 0 or
    at least 4 on division by 8 comes back from [save_binary] and
    [load_binary] with the same size and the same cells. *)
Theorem binary_round_trip (g : Grid.t) (width0 height0 : Z) :
  Grid.wf g →
  Grid.width g ≤ 255 → Grid.height g ≤ 255 →
  ¬ 1 ≤ (Grid.height g * Grid.width g) `mod` 8 ≤ 3 →
  ∃ bytes g',
    Zoo.save_binary true g = Ok bytes
    ∧ Zoo.load_binary width0 height0 (Some bytes) = Ok g'
    ∧ same_size g g'
    ∧ ∀ x y, in_bounds g x y → Grid.get g' x y = Grid.get g x y.
Proof.
  intros Hwf Hw Hh Hres.
  destruct (binary_round_trip_spec g width0 height0 Hwf Hw Hh)
    as (bytes & g' & Hsave & Hload & Hwf' & Hsz & Hcells).
  exists bytes, g'. split; [done|]. split; [done|]. split; [done|].
  intros x y Hb.
  rewrite !get_in_bounds; [| done | done | done | by apply (in_bounds_same_size g)].
  f_equal. rewrite Hcells by done.
  pose proof Hwf as (Hgw & Hgh & _).
  rewrite (proj2 (numBytes_cases (Grid.width g) (Grid.height g) ltac:(nia)) Hres).
  rewrite decide_True; [done|].
  destruct Hb as [Hx Hy].
  assert (y * Grid.width g + x < Grid.height g * Grid.width g) by nia.
  pose proof (Z.div_mod (Grid.height g * Grid.width g + 7) 8 ltac:(lia)).
  pose proof (Z.mod_pos_bound (Grid.height g * Grid.width g + 7) 8 ltac:(lia)).
  lia.
Qed.

Lemma binary_round_trip_witness :
  ∃ bytes g',
    Zoo.save_binary true dead_4x2 = Ok bytes
    ∧ Zoo.load_binary 7 7 (Some bytes) = Ok g'
    ∧ same_size dead_4x2 g'
    ∧ ∀ x y, in_bounds dead_4x2 x y → Grid.get g' x y = Grid.get dead_4x2 x y.
Proof.
  apply (binary_round_trip dead_4x2 7 7 dead_4x2_wf).
  - simpl. lia.
  - simpl. lia.
  - vm_compute. intros [H _]. apply H. reflexivity.
Defined.

(** X25: For any grid with sides below 256 the cells that [save_binary] and
    [load_binary] bring back are the first [8 * numBytes] along the rows;
    every later cell comes back dead. *)
Theorem binary_round_trip_cut (g : Grid.t) (width0 height0 : Z) :
  Grid.wf g →
  Grid.width g ≤ 255 → Grid.height g ≤ 255 →
  ∃ bytes g',
    Zoo.save_binary true g = Ok bytes
    ∧ Zoo.load_binary width0 height0 (Some bytes) = Ok g'
    ∧ same_size g g'
    ∧ ∀ x y, in_bounds g x y →
        Grid.get g' x y
        = if decide (y * Grid.width g + x
                     < 8 * Zoo.numBytes (Grid.width g) (Grid.height g))
          then Grid.get g x y else Ok DEAD.
Proof.
  intros Hwf Hw Hh.
  destruct (binary_round_trip_spec g width0 height0 Hwf Hw Hh)
    as (bytes & g' & Hsave & Hload & Hwf' & Hsz & Hcells).
  exists bytes, g'. split; [done|]. split; [done|]. split; [done|].
  intros x y Hb.
  rewrite !get_in_bounds; [| done | done | done | by apply (in_bounds_same_size g)].
  rewrite Hcells by done. by case_decide.
Qed.

Lemma binary_round_trip_cut_witness :
  ∃ bytes g',
    Zoo.save_binary true live_dot = Ok bytes
    ∧ Zoo.load_binary 7 7 (Some bytes) = Ok g'
    ∧ same_size live_dot g'
    ∧ ∀ x y, in_bounds live_dot x y →
        Grid.get g' x y
        = if decide (y * Grid.width live_dot + x
                     < 8 * Zoo.numBytes (Grid.width live_dot)
                           (Grid.height live_dot))
          then Grid.get live_dot x y else Ok DEAD.
Proof.
  apply (binary_round_trip_cut live_dot 7 7 live_dot_wf); simpl; lia.
Defined.

(** ** The ascii codec, in general *)

Lemma decimal_digit (n : Z) : 0 ≤ n ≤ 9 → decimal n = [48 + n].
Proof.
  intros Hn.
  assert (n = 0 ∨ n = 1 ∨ n = 2 ∨ n = 3 ∨ n = 4 ∨ n = 5 ∨ n = 6 ∨ n = 7
          ∨ n = 8 ∨ n = 9) as Hcases by lia.
  repeat (destruct Hcases as [-> | Hcases]; [reflexivity|]).
  by subst n.
Qed.

Lemma load_ascii_reads_aux (g : Grid.t) (sep1 sep2 : Z) (rest : list Z) :
  Grid.wf g → Grid.width g ≤ 79 → Grid.height g ≤ 79 →
  ∃ g',
    Zoo.load_ascii
      (Some (48 + Grid.width g :: sep1 :: 48 + Grid.height g :: sep2
               :: concat (ascii_row g (Grid.width g) <$> seqZ 0 (Grid.height g))
               ++ rest))
    = Ok g'
    ∧ same_size g g'
    ∧ ∀ x y, in_bounds g x y → Grid.get g' x y = Grid.get g x y.
Proof.
  intros Hwf Hw Hh.
  destruct (load_ascii_spec g sep1 sep2 rest Hwf Hw Hh)
    as (g' & Hrun & Hwf' & Hsz & Hcells).
  exists g'. split; [done|]. split; [done|].
  intros x y Hb.
  rewrite !get_in_bounds; [| done | done | done | by apply (in_bounds_same_size g)].
  f_equal. by apply Hcells.
Qed.

(** X26: [load_ascii] reads each size from a single character, so any size up to
    79 written as the character with code 48 plus the size, and it reads the
    two characters after the sizes without looking at them.  When rows of
    [width] cell characters and a newline follow, it returns the grid they
    spell and ignores what comes after the last row. *)
Theorem load_ascii_reads (g : Grid.t) (sep1 sep2 : Z) (rest : list Z) :
  Grid.wf g → Grid.width g ≤ 79 → Grid.height g ≤ 79 →
  ∃ g',
    Zoo.load_ascii
      (Some (48 + Grid.width g :: sep1 :: 48 + Grid.height g :: sep2
               :: concat (ascii_row g (Grid.width g) <$> seqZ 0 (Grid.height g))
               ++ rest))
    = Ok g'
    ∧ same_size g g'
    ∧ ∀ x y, in_bounds g x y → Grid.get g' x y = Grid.get g x y.
Proof. apply load_ascii_reads_aux. Qed.

Lemma load_ascii_reads_witness :
  ∃ g',
    Zoo.load_ascii
      (Some (48 + Grid.width pair :: 0 :: 48 + Grid.height pair :: 0
               :: concat (ascii_row pair (Grid.width pair)
                            <$> seqZ 0 (Grid.height pair))
               ++ [1; 2; 3]))
    = Ok g'
    ∧ same_size pair g'
    ∧ ∀ x y, in_bounds pair x y → Grid.get g' x y = Grid.get pair x y.
Proof.
  apply (load_ascii_reads pair 0 0 [1; 2; 3] pair_wf); simpl; lia.
Defined.

(** X27: A square grid with a side of at most 9 comes back from [save_ascii] and
    [load_ascii] with the same size and the same cells. *)
Theorem ascii_round_trip_square (g : Grid.t) :
  Grid.wf g → Grid.width g = Grid.height g → Grid.width g ≤ 9 →
  ∃ bytes g',
    Zoo.save_ascii true g = Ok bytes
    ∧ Zoo.load_ascii (Some bytes) = Ok g'
    ∧ same_size g g'
    ∧ ∀ x y, in_bounds g x y → Grid.get g' x y = Grid.get g x y.
Proof.
  intros Hwf Hsq Hside. pose proof Hwf as (Hw & Hh & _).
  destruct (load_ascii_reads_aux g 32 10 [] Hwf) as (g' & Hload & Hsz & Hcells);
    [lia | lia |].
  eexists _, g'. split; [apply save_ascii_layout_aux; [done | lia]|].
  split; [|done].
  rewrite <- Hload. rewrite !decimal_digit by lia.
  rewrite app_nil_r, <- Hsq. done.
Qed.

Lemma ascii_round_trip_square_witness :
  ∃ bytes g',
    Zoo.save_ascii true blinker = Ok bytes
    ∧ Zoo.load_ascii (Some bytes) = Ok g'
    ∧ same_size blinker g'
    ∧ ∀ x y, in_bounds blinker x y → Grid.get g' x y = Grid.get blinker x y.
Proof.
  apply (ascii_round_trip_square blinker blinker_wf); simpl; [done | lia].
Defined.

(** [load_ascii] throws [runtime_error] when the first or the third
    character of the file is below ['0'], which is how a negative or missing
    size shows. *)
Lemma load_ascii_rejects_sizes (c1 c2 c3 : Z) (rest : list Z) :
  to_char c1 < 48 ∨ to_char c3 < 48 →
  Zoo.load_ascii (Some (c1 :: c2 :: c3 :: rest)) = Throw runtime_error.
Proof.
  intros Hbad. unfold Zoo.load_ascii.
  change Grid.make_empty with (Ok (Grid.mk 0 0 [])).
  cbn [bind default from_option id stream_get]. cbv zeta.
  assert ((to_char c1 - 48 <? 0) || (to_char c3 - 48 <? 0) = true) as -> by lia.
  done.
Qed.

(** X28: [load_ascii] throws [runtime_error] at the first character that is not
    what its place asks for: where the cell at column [x] of row [y] is due,
    a character other than ['#'] and [' ']; where row [y] ends, a character
    other than a newline.  The rows and cells before that place are read
    without an exception. *)
Theorem load_ascii_rejects_character (g : Grid.t) (sep1 sep2 : Z)
  (rest : list Z) (y x b : Z) :
  Grid.wf g → Grid.width g ≤ 79 → Grid.height g ≤ 79 →
  0 ≤ y < Grid.height g → 0 ≤ x ≤ Grid.width g →
  (x < Grid.width g → to_char b ≠ 35 ∧ to_char b ≠ 32) →
  (x = Grid.width g → to_char b ≠ 10) →
  Zoo.load_ascii
    (Some (48 + Grid.width g :: sep1 :: 48 + Grid.height g :: sep2
             :: concat (ascii_row g (Grid.width g) <$> seqZ 0 y)
             ++ ((fun x => Cell_char (Grid.cell g x y)) <$> seqZ 0 x)
             ++ b :: rest))
  = Throw runtime_error.
Proof. intros Hwf Hw Hh. by apply load_ascii_bad_spec. Qed.

Lemma load_ascii_rejects_character_witness :
  Zoo.load_ascii
    (Some (48 + Grid.width pair :: 32 :: 48 + Grid.height pair :: 10
             :: concat (ascii_row pair (Grid.width pair) <$> seqZ 0 0)
             ++ ((fun x => Cell_char (Grid.cell pair x 0)) <$> seqZ 0 1)
             ++ 65 :: [32; 10]))
  = Throw runtime_error.
Proof.
  apply (load_ascii_rejects_character pair 32 10 [32; 10] 0 1 65 pair_wf).
  - simpl. lia.
  - simpl. lia.
  - simpl. lia.
  - simpl. lia.
  - intros _. split; vm_compute; discriminate.
  - simpl. lia.
Defined.

(** X29: A grid that is wider than tall, with sides of at most 9 and at least
    one row, is saved by [save_ascii] with rows that are too short, and
    [load_ascii] throws [runtime_error] on the file. *)
Theorem ascii_round_trip_wide_fails (g : Grid.t) :
  Grid.wf g →
  1 ≤ Grid.height g → Grid.height g < Grid.width g → Grid.width g ≤ 9 →
  ∃ bytes,
    Zoo.save_ascii true g = Ok bytes
    ∧ Zoo.load_ascii (Some bytes) = Throw runtime_error.
Proof.
  intros Hwf Hrows Hwide Hside.
  eexists. split; [apply save_ascii_layout_aux; [done | lia]|].
  rewrite !decimal_digit by lia.
  assert (seqZ 0 (Grid.height g) = 0 :: seqZ 1 (Grid.height g - 1)) as ->.
  { by rewrite seqZ_cons by lia. }
  cbn [fmap list_fmap concat]. unfold ascii_row at 1.
  rewrite <- !app_assoc.
  apply (load_ascii_bad_spec g 32 10
           (concat (ascii_row g (Grid.height g) <$> seqZ 1 (Grid.height g - 1)))
           Hwf ltac:(lia) ltac:(lia) 0 (Grid.height g) 10);
    [lia | lia | intros _; split; vm_compute; discriminate | lia].
Qed.

Lemma ascii_round_trip_wide_fails_witness :
  ∃ bytes,
    Zoo.save_ascii true pair = Ok bytes
    ∧ Zoo.load_ascii (Some bytes) = Throw runtime_error.
Proof.
  apply (ascii_round_trip_wide_fails pair pair_wf); simpl; lia.
Defined.

(** ** A new world *)

Lemma alive_cells_of_dead_grid (g : Grid.t) :
  Grid.wf g →
  (∀ x y, in_bounds g x y → Grid.cell g x y = DEAD) →
  Grid.get_alive_cells g = 0.
Proof.
  intros (Hw & Hh & _) Hdead.
  unfold Grid.get_alive_cells, Grid.get_width, Grid.get_height.
  apply (for_pure_inv (fun _ counter => counter = 0)); [lia | done |].
  intros x c Hx ->.
  apply (for_pure_inv (fun _ counter => counter = 0)); [lia | done |].
  intros y c Hy ->. by rewrite Hdead.
Qed.

(** X30: A world built with sizes that are not negative and whose cells fit
    in an [int] is reachable, has those sizes, no live cell and width times
    height dead cells; a negative size makes the constructor throw. *)
Theorem new_world_is_dead (width height : Z) :
  (0 ≤ width ≤ INT_MAX → 0 ≤ height ≤ INT_MAX →
   width * height ≤ INT_MAX →
   ∃ w,
     World.make width height = Ok w
     ∧ reachable w
     ∧ World.get_width w = width ∧ World.get_height w = height
     ∧ World.get_total_cells w = width * height
     ∧ World.get_alive_cells w = 0
     ∧ World.get_dead_cells w = width * height)
  ∧ (width < 0 ∨ height < 0 → World.make width height = Throw length_error).
Proof.
  split.
  - intros Hw Hh Hcells.
    destruct (proj1 (make_all_dead_aux width height) Hw Hh)
      as (g & Hmake & Hwf & Hgw & Hgh & Hdead).
    assert (World.make width height = Ok (World.mk g g)) as Hworld.
    { unfold World.make. change Grid.make_empty with (Ok (Grid.mk 0 0 [])).
      cbn [bind]. by rewrite Hmake. }
    exists (World.mk g g). split; [done|].
    split; [by apply (reachable_make width height); [lia | lia |]|].
    unfold World.get_width, World.get_height, World.get_total_cells,
      World.get_alive_cells, World.get_dead_cells. cbn [World.currentState].
    split; [done|]. split; [done|].
    unfold Grid.get_width, Grid.get_height in *.
    destruct (alive_plus_dead_aux g Hwf) as [Hsum Htotal];
      [by rewrite Hgw, Hgh|].
    assert (Grid.get_alive_cells g = 0) as Halive.
    { apply alive_cells_of_dead_grid; [done|]. intros x y Hb.
      specialize (Hdead x y Hb). rewrite get_in_bounds in Hdead by done.
      by injection Hdead. }
    rewrite Htotal, Hgw, Hgh in *. split; [done|]. split; [done|]. lia.
  - intros Hneg. unfold World.make.
    change Grid.make_empty with (Ok (Grid.mk 0 0 [])). cbn [bind].
    by rewrite (proj2 (make_all_dead_aux width height) Hneg).
Qed.

Lemma new_world_is_dead_witness :
  ∃ w,
    World.make 4 2 = Ok w
    ∧ reachable w
    ∧ World.get_width w = 4 ∧ World.get_height w = 2
    ∧ World.get_total_cells w = 4 * 2
    ∧ World.get_alive_cells w = 0
    ∧ World.get_dead_cells w = 4 * 2.
Proof.
  apply (proj1 (new_world_is_dead 4 2)); unfold INT_MAX; lia.
Defined.
